(** * Audio parameter engine: unit conversion, curve mapping, envelope
      scheduling, node pool and URL state codec

    Shallow embedding of the TypeScript sources: the MIDI and parameter
    mapping utilities ([utils/midiUtils.ts]), [utils/frequencyUtils.ts],
    the envelope scheduler ([scheduleEnvelopeAttack],
    [scheduleEnvelopeRelease]), the node pool ([getPooledNode],
    [releaseNode], ...), the parse helpers ([parseAndClamp],
    [parseOrDefault]), [clampParameter] of [utils/audioUtils.ts] and the URL
    codec ([utils/urlUtils.ts]); and the properties the specification states
    about them.  Further modules embed the MIDI message functions, the note
    names and the time and modulation scalings of [utils/midiUtils.ts], the
    glide and volume formulas of [utils/audioUtils.ts], the signal utilities
    (scaling, gain, cents, rounding, buffer levels) and the knob mapping
    utilities, with the properties the code itself shows.

    Part I holds the embedding, one module per source file.  Part II holds
    the properties.

    Numbers.  The analytic functions (curves, scalings, pitch bend) are
    embedded over the real numbers: [Math.pow], [Math.log], [Math.log2],
    [Math.sqrt] and [Math.round] are their mathematical counterparts, with no
    rounding error, overflow or NaN; where a source function can produce NaN
    on an input of interest (a note string without digits), its embedding
    returns [option].  A property stated over this model names the domain
    and, where the result is rounded at run time, a tolerance far above the
    rounding error, so that it reads the same on the doubles the program
    computes with.  The scheduler and the codec only move numbers around,
    add them and compare them, so they are embedded over binary64 itself
    (primitive floats); the two conversions between numbers and text that
    the host supplies are parameters of the codec.  [calculateFrequency] and
    the control curves are embedded over binary64 too (module [Binary64]),
    with [Math.pow] and [Math.log] as parameters the host supplies: what
    they return depends on overflow, NaN and rounding. *)

From Stdlib Require Import Reals Lra Lia ZArith List String Ascii Bool.
From Stdlib Require DecimalString.
From Stdlib Require Floats.
Import ListNotations.

#[global] Set Warnings "-inexact-float".

(* ================================================================== *)
(** * Part I: the embedding                                            *)
(* ================================================================== *)

(** ** The [Math] object over the reals *)

Module JSMath.
Local Open Scope R_scope.

(** [Math.round(x)]: the nearest integer, ties towards +infinity, that is
    [floor (x + 1/2)]. *)
Definition Math_round (x : R) : R := IZR (Int_part (x + / 2)).

Definition Math_max (a b : R) : R := Rmax a b.
Definition Math_min (a b : R) : R := Rmin a b.

(** [Math.pow(x, y)].  An integer exponent is an iterated product or
    quotient (any base); a fractional exponent of a positive base is
    [exp (y * ln x)]; a fractional positive exponent of base [0] gives [0].
    A fractional exponent of a negative base (NaN in JavaScript) and a
    negative exponent of base [0] (Infinity) are outside the model. *)
Definition Math_pow (x y : R) : R :=
  if Req_dec_T y (IZR (Int_part y)) then powerRZ x (Int_part y)
  else if Rlt_dec 0 x then Rpower x y
  else 0.

(** [Math.log], [Math.log2], [Math.sqrt] on positive (non-negative for
    [sqrt]) arguments. *)
Definition Math_log (x : R) : R := ln x.
Definition Math_log2 (x : R) : R := ln x / ln 2.
Definition Math_sqrt (x : R) : R := sqrt x.

End JSMath.

(** ** [config/constants.ts] *)

Module MIDI.
Definition A4_FREQUENCY : R := 440%R.
Definition A4_MIDI_NOTE : R := 69%R.
End MIDI.

Module FILTER_MAPPING.
Module CUTOFF.
Definition MIN_FREQ : R := 20%R.
Definition MAX_FREQ : R := 12000%R.
Definition MUSICAL_CURVE_POWER : R := (12 / 10)%R.
End CUTOFF.
End FILTER_MAPPING.

Module SYNTH_PARAMS.
Module FILTER.
Module CUTOFF.
Definition MIN : R := (-4)%R.
Definition MAX : R := 4%R.
Definition DEFAULT : R := 0%R.
End CUTOFF.
End FILTER.
End SYNTH_PARAMS.

(** ** JavaScript string helpers used by the note parser *)

Module JSString.
Local Open Scope string_scope.

Definition isDigit (c : ascii) : bool :=
  let n := nat_of_ascii c in (48 <=? n)%nat && (n <=? 57)%nat.

(** [s.replace(/\d/g, "")] *)
Fixpoint removeDigits (s : string) : string :=
  match s with
  | EmptyString => EmptyString
  | String c r => if isDigit c then removeDigits r else String c (removeDigits r)
  end.

(** [s.replace(/\D/g, "")] *)
Fixpoint keepDigits (s : string) : string :=
  match s with
  | EmptyString => EmptyString
  | String c r => if isDigit c then String c (keepDigits r) else keepDigits r
  end.

(** [s.toUpperCase()] on ASCII text. *)
Definition upperChar (c : ascii) : ascii :=
  let n := nat_of_ascii c in
  if (97 <=? n)%nat && (n <=? 122)%nat then ascii_of_nat (n - 32) else c.

Fixpoint toUpperCase (s : string) : string :=
  match s with
  | EmptyString => EmptyString
  | String c r => String (upperChar c) (toUpperCase r)
  end.

Fixpoint decimalValue (acc : Z) (s : string) : Z :=
  match s with
  | EmptyString => acc
  | String c r => decimalValue (10 * acc + Z.of_nat (nat_of_ascii c - 48)) r
  end.

(** [parseInt(s)] on a string of decimal digits; [None] stands for NaN
    (the empty string). *)
Definition parseIntDigits (s : string) : option Z :=
  match s with
  | EmptyString => None
  | _ => Some (decimalValue 0 s)
  end.

(** [arr.indexOf(x)]: the first index, or [-1]. *)
Fixpoint indexOfFrom (i : Z) (x : string) (arr : list string) : Z :=
  match arr with
  | [] => (-1)%Z
  | y :: r => if String.eqb y x then i else indexOfFrom (i + 1) x r
  end.

Definition indexOf (arr : list string) (x : string) : Z := indexOfFrom 0 x arr.

End JSString.

(** ** [utils/midiUtils.ts]: MIDI conversions and parameter mapping *)

Module MidiUtils.
Import JSMath JSString.
Local Open Scope R_scope.

Definition noteNames : list string :=
  ["C"; "C#"; "D"; "D#"; "E"; "F"; "F#"; "G"; "G#"; "A"; "A#"; "B"]%string.

Definition noteNameToMidiNote (noteName : string) : Z :=
  indexOf noteNames (toUpperCase noteName).

Definition midiNoteToFrequency (midiNote : R) : R :=
  MIDI.A4_FREQUENCY * Math_pow 2 ((midiNote - MIDI.A4_MIDI_NOTE) / 12).

Definition frequencyToMidiNote (frequency : R) : R :=
  Math_round (12 * Math_log2 (frequency / MIDI.A4_FREQUENCY) + MIDI.A4_MIDI_NOTE).

(** [noteToMidiNote]: [None] is NaN, which [parseInt] gives when the note
    has no digit. *)
Definition noteToMidiNote (note : string) : option Z :=
  let noteName := removeDigits note in
  match parseIntDigits (keepDigits note) with
  | None => None
  | Some octave =>
      let noteNumber := noteNameToMidiNote noteName in
      Some (noteNumber + (octave + 1) * 12)%Z
  end.

Definition noteToFrequency (note : string) : option R :=
  match noteToMidiNote note with
  | None => None
  | Some n => Some (midiNoteToFrequency (IZR n))
  end.

Definition velocityToGain (velocity : R) : R := velocity / 127.
Definition gainToVelocity (gain : R) : R := Math_round (gain * 127).

Inductive Curve : Type := Linear | Exponential | Logarithmic.

Definition controlToValue (control : R) (range : R * R) (curve : Curve) : R :=
  let normalized := control / 127 in
  let '(min, max) := range in
  match curve with
  | Exponential => min + (max - min) * Math_pow normalized 2
  | Logarithmic =>
      min + ((max - min) * Math_log (1 + normalized * 9)) / Math_log 10
  | Linear => min + (max - min) * normalized
  end.

Definition valueToControl (value : R) (range : R * R) (curve : Curve) : R :=
  let '(min, max) := range in
  let normalized := (value - min) / (max - min) in
  let result :=
    match curve with
    | Exponential => Math_sqrt normalized
    | Logarithmic => (Math_pow 10 normalized - 1) / 9
    | Linear => normalized
    end in
  Math_round (result * 127).

Definition pitchBendToValue (bend : R) : R :=
  let normalized := (bend - 8192) / 8192 in
  normalized * 2.

Definition valueToPitchBend (value : R) : R :=
  let normalized := value / 2 in
  Math_round ((normalized + 1) * 8192).

Definition mapCutoff (val : R) : R :=
  let minFreq := FILTER_MAPPING.CUTOFF.MIN_FREQ in
  let maxFreq := 3000 in
  let clampedVal :=
    Math_max SYNTH_PARAMS.FILTER.CUTOFF.MIN
             (Math_min SYNTH_PARAMS.FILTER.CUTOFF.MAX val) in
  let normalizedVal := (clampedVal + 4) / 8 in
  let musicalCurve :=
    Math_pow normalizedVal FILTER_MAPPING.CUTOFF.MUSICAL_CURVE_POWER in
  let result := minFreq * Math_pow (maxFreq / minFreq) musicalCurve in
  Math_max minFreq (Math_min maxFreq result).

End MidiUtils.

(** ** The signal utilities: the sibling pitch-bend pair *)

Module SignalUtils.
Import JSMath.
Local Open Scope R_scope.

Definition CENTER_PITCH_BEND : R := 81915 / 10.

Definition pitchBendToSemitones (bend : R) : R :=
  let normalized := (bend - CENTER_PITCH_BEND) / CENTER_PITCH_BEND in
  normalized * 2.

Definition semitonesToPitchBend (semitones : R) : R :=
  let normalized := semitones / 2 in
  Math_round ((normalized + 1) * CENTER_PITCH_BEND).

End SignalUtils.

(** ** Definitions used to state the properties of the numeric mappings *)

Module MappingSpec.
Import JSMath MidiUtils.
Local Open Scope R_scope.

(** The tolerance the specification allows each curve's round trip. *)
Definition curveTolerance (curve : Curve) : R :=
  match curve with
  | Linear => / 1000000000
  | Exponential | Logarithmic => / 1000000
  end.

(** The clamp [mapCutoff] applies to its argument. *)
Definition clampCutoff (v : R) : R := Math_max (-4) (Math_min 4 v).

End MappingSpec.

(** ** The envelope scheduler *)

Module EnvelopeUtils.
Import Floats.
Local Open Scope float_scope.

(** The three methods of the parameter automation interface the scheduler
    calls. *)
Inductive AutomationCall : Type :=
| cancelScheduledValues (cancelTime : float)
| setValueAtTime (value startTime : float)
| linearRampToValueAtTime (value endTime : float).

(** An [AudioParam] is observed through the calls it has received, oldest
    first; a method call appends to them. *)
Definition AudioParam : Type := list AutomationCall.

Definition invoke (c : AutomationCall) (param : AudioParam) : AudioParam :=
  param ++ [c].

Module Attack.
Record Options : Type := {
  start : float;
  peak : float;
  sustain : float;
  attackTime : float;
  decayTime : float;
  now : float
}.
End Attack.

Module Release.
Record Options : Type := {
  from : float;
  to : float;
  releaseTime : float;
  now : float
}.
End Release.

Definition scheduleEnvelopeAttack (param : AudioParam) (o : Attack.Options)
    : AudioParam :=
  let param := invoke (cancelScheduledValues (Attack.now o)) param in
  let param := invoke (setValueAtTime (Attack.start o) (Attack.now o)) param in
  let param :=
    invoke (linearRampToValueAtTime (Attack.peak o)
              (Attack.now o + Attack.attackTime o)) param in
  invoke (linearRampToValueAtTime (Attack.sustain o)
            (Attack.now o + Attack.attackTime o + Attack.decayTime o)) param.

Definition scheduleEnvelopeRelease (param : AudioParam) (o : Release.Options)
    : AudioParam :=
  let param := invoke (cancelScheduledValues (Release.now o)) param in
  let param := invoke (setValueAtTime (Release.from o) (Release.now o)) param in
  invoke (linearRampToValueAtTime (Release.to o)
            (Release.now o + Release.releaseTime o)) param.

End EnvelopeUtils.

(** ** The node pool *)

Module NodePoolingUtils.
Import Floats.
Local Open Scope Z_scope.

Module AUDIO.
Definition DEFAULT_FFT_SIZE : Z := 2048.
End AUDIO.

Inductive NodeType : Type :=
| gain | oscillator | filter | analyser | delay | convolver | waveShaper
| panner | stereoPanner | dynamicsCompressor | channelSplitter | channelMerger.

Scheme Equality for NodeType.

(** An audio node is an object of the host: it has an identity, a class
    ([GainNode], [OscillatorNode], ... for the twelve kinds the pool creates,
    [None] for any other class, such as a worklet node created elsewhere)
    and possibly a message port that can be closed. *)
Record AudioNode : Type := {
  nodeId : nat;
  nodeClass : option NodeType;
  hasClosablePort : bool
}.

Definition AudioNode_eq_dec (a b : AudioNode) : {a = b} + {a <> b}.
Proof.
  decide equality; try apply Bool.bool_dec; try apply Nat.eq_dec.
  decide equality. apply NodeType_eq_dec.
Defined.

Definition instanceof (n : AudioNode) (c : NodeType) : bool :=
  match nodeClass n with
  | Some c' => NodeType_beq c' c
  | None => false
  end.

Record AudioContext : Type := { currentTime : float }.

(** The creation options [getPooledNode] looks at. *)
Record NodeOptions : Type := {
  maxDelayTime : option float;
  numberOfOutputs : option float;
  numberOfInputs : option float
}.

Record NodePoolConfig : Type := {
  maxPoolSize : Z;
  enablePooling : bool;
  cleanupInterval : Z
}.

Record PartialNodePoolConfig : Type := {
  maxPoolSize_opt : option Z;
  enablePooling_opt : option bool;
  cleanupInterval_opt : option Z
}.

Definition DEFAULT_POOL_CONFIG : NodePoolConfig :=
  {| maxPoolSize := 32; enablePooling := true; cleanupInterval := 30000 |}.

(** [{ ...base, ...config }] *)
Definition mergeConfig (base : NodePoolConfig) (c : PartialNodePoolConfig)
    : NodePoolConfig :=
  {| maxPoolSize :=
       match maxPoolSize_opt c with Some v => v | None => maxPoolSize base end;
     enablePooling :=
       match enablePooling_opt c with Some v => v | None => enablePooling base end;
     cleanupInterval :=
       match cleanupInterval_opt c with
       | Some v => v
       | None => cleanupInterval base
       end |}.

Record PooledNode : Type := {
  node : AudioNode;
  type : NodeType;
  createdAt : Z;
  lastUsed : Z;
  isActive : bool
}.

Record PoolStats : Type := {
  created : Z;
  reused : Z;
  disposed : Z;
  poolHits : Z;
  poolMisses : Z
}.

Definition zeroStats : PoolStats :=
  {| created := 0; reused := 0; disposed := 0; poolHits := 0; poolMisses := 0 |}.

(** *** [Map<AudioNode, PooledNode>]: entries in insertion order, keys
    compared by object identity. *)

Definition NodeMap : Type := list (AudioNode * PooledNode).

Fixpoint Map_get (k : AudioNode) (m : NodeMap) : option PooledNode :=
  match m with
  | [] => None
  | (k', v) :: r => if AudioNode_eq_dec k' k then Some v else Map_get k r
  end.

Definition Map_has (k : AudioNode) (m : NodeMap) : bool :=
  match Map_get k m with Some _ => true | None => false end.

(** [m.set(k, v)]: an existing key keeps its place, a new key goes last. *)
Fixpoint Map_set (k : AudioNode) (v : PooledNode) (m : NodeMap) : NodeMap :=
  match m with
  | [] => [(k, v)]
  | (k', v') :: r =>
      if AudioNode_eq_dec k' k then (k', v) :: r else (k', v') :: Map_set k v r
  end.

Fixpoint Map_delete (k : AudioNode) (m : NodeMap) : NodeMap :=
  match m with
  | [] => []
  | (k', v') :: r =>
      if AudioNode_eq_dec k' k then r else (k', v') :: Map_delete k r
  end.

(** An assignment to a field of the metadata object [m.get(k)] returned:
    the object is shared with the map, so the entry changes in place. *)
Fixpoint Map_mutate (k : AudioNode) (f : PooledNode -> PooledNode) (m : NodeMap)
    : NodeMap :=
  match m with
  | [] => []
  | (k', v') :: r =>
      if AudioNode_eq_dec k' k then (k', f v') :: r
      else (k', v') :: Map_mutate k f r
  end.

Definition Map_size (m : NodeMap) : Z := Z.of_nat (List.length m).

Record EnhancedAudioNodePool : Type := {
  nodes : NodeMap;
  config : NodePoolConfig;
  stats : PoolStats
}.

(** *** The host and the module state *)

(** Calls made on the host: node creation, resets, teardown, timers. *)
Inductive HostCall : Type :=
| HostCreate (n : AudioNode) (arg : option float)
| HostSetValueAtTime (n : AudioNode) (param : string) (value time : float)
| HostSetType (n : AudioNode) (value : string)
| HostSetFftSize (n : AudioNode) (value : Z)
| HostSetSmoothingTimeConstant (n : AudioNode) (value : float)
| HostDisconnect (n : AudioNode)
| HostStop (n : AudioNode)
| HostClosePort (n : AudioNode)
| HostSetInterval (ms : Z).

(** [globalPool], the supply of object identities, and the host calls made
    so far (oldest first).  Host calls are logged as issued when none of
    them throws; the source wraps the ones that may throw in [try]/[catch],
    and an exception there changes nothing in the pool's bookkeeping.
    [Date.now()] is an argument [now] of every operation that reads it. *)
Record World : Type := {
  globalPool : option EnhancedAudioNodePool;
  nextNodeId : nat;
  hostCalls : list HostCall
}.

Definition emptyWorld : World :=
  {| globalPool := None; nextNodeId := 0; hostCalls := [] |}.

Definition setPool (p : EnhancedAudioNodePool) (w : World) : World :=
  {| globalPool := Some p; nextNodeId := nextNodeId w; hostCalls := hostCalls w |}.

Definition host (cs : list HostCall) (w : World) : World :=
  {| globalPool := globalPool w; nextNodeId := nextNodeId w;
     hostCalls := hostCalls w ++ cs |}.

Definition withNodes (m : NodeMap) (p : EnhancedAudioNodePool)
    : EnhancedAudioNodePool :=
  {| nodes := m; config := config p; stats := stats p |}.

Definition withStats (s : PoolStats) (p : EnhancedAudioNodePool)
    : EnhancedAudioNodePool :=
  {| nodes := nodes p; config := config p; stats := s |}.

Definition withConfig (c : NodePoolConfig) (p : EnhancedAudioNodePool)
    : EnhancedAudioNodePool :=
  {| nodes := nodes p; config := c; stats := stats p |}.

(** [x || d] on an optional number: [undefined], [0] and NaN are falsy. *)
Definition orNumber (x : option float) (d : float) : float :=
  match x with
  | Some v => if (PrimFloat.eqb v 0 || PrimFloat.is_nan v)%bool then d else v
  | None => d
  end.

Definition initializeNodePool (c : PartialNodePoolConfig) (w : World)
    : EnhancedAudioNodePool * World :=
  match globalPool w with
  | Some p => (p, w)
  | None =>
      let finalConfig := mergeConfig DEFAULT_POOL_CONFIG c in
      let p := {| nodes := []; config := finalConfig; stats := zeroStats |} in
      let w := setPool p w in
      let w :=
        if enablePooling finalConfig
        then host [HostSetInterval (cleanupInterval finalConfig)] w
        else w in
      (p, w)
  end.

Definition createNewNode (ty : NodeType) (audioContext : AudioContext)
    (options : option NodeOptions) (w : World) : AudioNode * World :=
  let arg :=
    match ty with
    | delay =>
        Some (orNumber (match options with
                        | Some o => maxDelayTime o | None => None end) 1)
    | channelSplitter =>
        Some (orNumber (match options with
                        | Some o => numberOfOutputs o | None => None end) 6)
    | channelMerger =>
        Some (orNumber (match options with
                        | Some o => numberOfInputs o | None => None end) 6)
    | _ => None
    end in
  let n := {| nodeId := nextNodeId w; nodeClass := Some ty;
              hasClosablePort := false |} in
  (n, {| globalPool := globalPool w; nextNodeId := S (nextNodeId w);
         hostCalls := hostCalls w ++ [HostCreate n arg] |}).

Definition resetNodeState (n : AudioNode) (ty : NodeType)
    (audioContext : AudioContext) (w : World) : World :=
  let now := currentTime audioContext in
  match ty with
  | gain =>
      if instanceof n gain
      then host [HostSetValueAtTime n "gain" 1 now] w else w
  | oscillator =>
      if instanceof n oscillator
      then host [HostSetValueAtTime n "frequency" 440 now;
                 HostSetType n "sine"] w
      else w
  | filter =>
      if instanceof n filter
      then host [HostSetValueAtTime n "frequency" 1000 now;
                 HostSetValueAtTime n "Q" 1 now;
                 HostSetType n "lowpass"] w
      else w
  | analyser =>
      if instanceof n analyser
      then host [HostSetFftSize n AUDIO.DEFAULT_FFT_SIZE;
                 HostSetSmoothingTimeConstant n 0.8] w
      else w
  | delay =>
      if instanceof n delay
      then host [HostSetValueAtTime n "delayTime" 0 now] w else w
  | stereoPanner =>
      if instanceof n stereoPanner
      then host [HostSetValueAtTime n "pan" 0 now] w else w
  | dynamicsCompressor =>
      if instanceof n dynamicsCompressor
      then host [HostSetValueAtTime n "threshold" (-24) now;
                 HostSetValueAtTime n "knee" 30 now;
                 HostSetValueAtTime n "ratio" 12 now;
                 HostSetValueAtTime n "attack" 0.003 now;
                 HostSetValueAtTime n "release" 0.25 now] w
      else w
  | _ => w
  end.

(** [metadata.type === type && !metadata.isActive] *)
Definition available (ty : NodeType) (m : PooledNode) : bool :=
  NodeType_beq (type m) ty && negb (isActive m).

Definition markActive (now : Z) (m : PooledNode) : PooledNode :=
  {| node := node m; type := type m; createdAt := createdAt m;
     lastUsed := now; isActive := true |}.

Definition markIdle (now : Z) (m : PooledNode) : PooledNode :=
  {| node := node m; type := type m; createdAt := createdAt m;
     lastUsed := now; isActive := false |}.

(** The [for] loop of [getPooledNode]: the first entry, in insertion order,
    that is idle and of the requested type is marked active and returned. *)
Fixpoint reuseFirst (ty : NodeType) (now : Z) (m : NodeMap)
    : option (AudioNode * NodeMap) :=
  match m with
  | [] => None
  | (n, metadata) :: r =>
      if available ty metadata then Some (n, (n, markActive now metadata) :: r)
      else
        match reuseFirst ty now r with
        | Some (found, r') => Some (found, (n, metadata) :: r')
        | None => None
        end
  end.

Definition hit (s : PoolStats) : PoolStats :=
  {| created := created s; reused := reused s + 1; disposed := disposed s;
     poolHits := poolHits s + 1; poolMisses := poolMisses s |}.

Definition miss (s : PoolStats) : PoolStats :=
  {| created := created s; reused := reused s; disposed := disposed s;
     poolHits := poolHits s; poolMisses := poolMisses s + 1 |}.

Definition countCreated (s : PoolStats) : PoolStats :=
  {| created := created s + 1; reused := reused s; disposed := disposed s;
     poolHits := poolHits s; poolMisses := poolMisses s |}.

Definition countDisposed (s : PoolStats) : PoolStats :=
  {| created := created s; reused := reused s; disposed := disposed s + 1;
     poolHits := poolHits s; poolMisses := poolMisses s |}.

Definition getPooledNode (ty : NodeType) (audioContext : AudioContext)
    (options : option NodeOptions) (now : Z) (w : World) : AudioNode * World :=
  match globalPool w with
  | None => createNewNode ty audioContext options w
  | Some pool =>
      if negb (enablePooling (config pool))
      then createNewNode ty audioContext options w
      else
        match reuseFirst ty now (nodes pool) with
        | Some (n, nodes') =>
            let pool := withStats (hit (stats pool)) (withNodes nodes' pool) in
            (n, resetNodeState n ty audioContext (setPool pool w))
        | None =>
            let pool := withStats (miss (stats pool)) pool in
            let '(newNode, w) :=
              createNewNode ty audioContext options (setPool pool w) in
            if Map_size (nodes pool) <? maxPoolSize (config pool)
            then
              let metadata :=
                {| node := newNode; type := ty; createdAt := now;
                   lastUsed := now; isActive := true |} in
              let pool := withNodes (Map_set newNode metadata (nodes pool)) pool in
              let pool := withStats (countCreated (stats pool)) pool in
              (newNode, setPool pool w)
            else (newNode, w)
        end
  end.

Definition disposeNode (n : AudioNode) (w : World) : World :=
  match globalPool w with
  | None => w
  | Some pool =>
      let w :=
        match Map_get n (nodes pool) with
        | Some _ =>
            let pool := withNodes (Map_delete n (nodes pool)) pool in
            setPool (withStats (countDisposed (stats pool)) pool) w
        | None => w
        end in
      host ([HostDisconnect n]
            ++ (if instanceof n oscillator then [HostStop n] else [])
            ++ (if hasClosablePort n then [HostClosePort n] else [])) w
  end.

Definition releaseNode (n : AudioNode) (now : Z) (w : World) : World :=
  match globalPool w with
  | None => disposeNode n w
  | Some pool =>
      if negb (enablePooling (config pool)) then disposeNode n w
      else
        match Map_get n (nodes pool) with
        | Some _ =>
            let pool := withNodes (Map_mutate n (markIdle now) (nodes pool)) pool in
            host [HostDisconnect n] (setPool pool w)
        | None => disposeNode n w
        end
  end.

Definition cleanupPool (now : Z) (w : World) : World :=
  match globalPool w with
  | None => w
  | Some pool =>
      let maxAge := 60000 in
      fold_left
        (fun w (e : AudioNode * PooledNode) =>
           let '(n, metadata) := e in
           if negb (isActive metadata) && (maxAge <? now - lastUsed metadata)
           then disposeNode n w else w)
        (nodes pool) w
  end.

Definition getPoolStats (w : World) : option PoolStats :=
  match globalPool w with
  | Some pool => Some (stats pool)
  | None => None
  end.

Definition resetPoolStats (w : World) : World :=
  match globalPool w with
  | Some pool => setPool (withStats zeroStats pool) w
  | None => w
  end.

Fixpoint createNodeBatch (ty : NodeType) (audioContext : AudioContext)
    (count : nat) (options : option NodeOptions) (now : Z) (w : World)
    : list AudioNode * World :=
  match count with
  | O => ([], w)
  | S count' =>
      let '(n, w) := getPooledNode ty audioContext options now w in
      let '(ns, w) := createNodeBatch ty audioContext count' options now w in
      (n :: ns, w)
  end.

Definition releaseNodeBatch (ns : list AudioNode) (now : Z) (w : World) : World :=
  fold_left (fun w n => releaseNode n now w) ns w.

Definition isNodeInPool (n : AudioNode) (w : World) : bool :=
  match globalPool w with
  | Some pool => Map_has n (nodes pool)
  | None => false
  end.

Definition getNodeType (n : AudioNode) (w : World) : option NodeType :=
  match globalPool w with
  | Some pool =>
      match Map_get n (nodes pool) with
      | Some metadata => Some (type metadata)
      | None => None
      end
  | None => None
  end.

Definition clearPool (w : World) : World :=
  match globalPool w with
  | None => w
  | Some pool =>
      fold_left (fun w (e : AudioNode * PooledNode) => disposeNode (fst e) w)
        (nodes pool) w
  end.

Definition updatePoolConfig (c : PartialNodePoolConfig) (w : World) : World :=
  match globalPool w with
  | Some pool => setPool (withConfig (mergeConfig (config pool) c) pool) w
  | None => w
  end.

Definition getPooledNodeLegacy (ty : NodeType) (audioContext : AudioContext)
    (now : Z) (w : World) : AudioNode * World :=
  getPooledNode ty audioContext None now w.

(** The application creating a node of its own, outside the pool. *)
Definition hostCreatesNode (c : option NodeType) (port : bool) (w : World)
    : AudioNode * World :=
  let n := {| nodeId := nextNodeId w; nodeClass := c; hasClosablePort := port |} in
  (n, {| globalPool := globalPool w; nextNodeId := S (nextNodeId w);
         hostCalls := hostCalls w |}).

(** The states the module can be in: it starts with [globalPool = null], and
    then any of its exported operations may run, in any order, with any
    arguments. *)
Inductive reachable : World -> Prop :=
| reach_start : reachable emptyWorld
| reach_initialize c w :
    reachable w -> reachable (snd (initializeNodePool c w))
| reach_get ty ctx options now w :
    reachable w -> reachable (snd (getPooledNode ty ctx options now w))
| reach_release n now w :
    reachable w -> reachable (releaseNode n now w)
| reach_dispose n w :
    reachable w -> reachable (disposeNode n w)
| reach_cleanup now w :
    reachable w -> reachable (cleanupPool now w)
| reach_clear w :
    reachable w -> reachable (clearPool w)
| reach_resetStats w :
    reachable w -> reachable (resetPoolStats w)
| reach_updateConfig c w :
    reachable w -> reachable (updatePoolConfig c w)
| reach_hostCreates c port w :
    reachable w -> reachable (snd (hostCreatesNode c port w)).

(** The bookkeeping invariant of a [Map] keyed by objects the host has
    handed out: no key twice, and every key older than the next identity. *)
Definition wellFormed (w : World) : Prop :=
  match globalPool w with
  | None => True
  | Some pool =>
      NoDup (map fst (nodes pool)) /\
      Forall (fun k => (nodeId k < nextNodeId w)%nat) (map fst (nodes pool))
  end.

(** A pool that is initialized and has pooling enabled. *)
Definition poolingEnabled (w : World) : Prop :=
  exists pool, globalPool w = Some pool /\ enablePooling (config pool) = true.

(** No tracked node of the type is idle: the next request for it misses. *)
Definition noIdleNode (ty : NodeType) (pool : EnhancedAudioNodePool) : Prop :=
  forall n metadata, In (n, metadata) (nodes pool) -> available ty metadata = false.

Definition statsOf (w : World) : PoolStats :=
  match globalPool w with
  | Some pool => stats pool
  | None => zeroStats
  end.

Definition trackedCount (w : World) : Z :=
  match globalPool w with
  | Some pool => Map_size (nodes pool)
  | None => 0
  end.

End NodePoolingUtils.

(** ** Example pool states *)

Module PoolExamples.
Import Floats NodePoolingUtils.
Local Open Scope Z_scope.

Definition ctx0 : AudioContext := {| currentTime := 0%float |}.

Definition noConfig : PartialNodePoolConfig :=
  {| maxPoolSize_opt := None; enablePooling_opt := None;
     cleanupInterval_opt := None |}.

(** [initializeNodePool()] on a fresh module. *)
Definition freshPool : World := snd (initializeNodePool noConfig emptyWorld).

(** The default pool after [createNodeBatch("gain", ctx, 32)]: thirty-two
    gain nodes, all active, which is the default capacity. *)
Definition fullPool : World :=
  snd (createNodeBatch gain ctx0 32 None 1000 freshPool).

(** A pool in use: an oscillator and a gain node, both active. *)
Definition busyPool : World :=
  snd (getPooledNode gain ctx0 None 20
         (snd (getPooledNode oscillator ctx0 None 10 freshPool))).

End PoolExamples.

(** ** [URLSearchParams]: the host's query-string object

    Strings are byte strings (the text handled here is ASCII, which UTF-8
    leaves as it is).  Parsing and serializing follow the
    [application/x-www-form-urlencoded] rules of the URL standard. *)

Module URLSearchParams.
Local Open Scope string_scope.

Definition t : Type := list (string * string).

(** [params.get(name)]: the first value, or [null]. *)
Fixpoint get (name : string) (params : t) : option string :=
  match params with
  | [] => None
  | (n, v) :: r => if String.eqb n name then Some v else get name r
  end.

Definition has (name : string) (params : t) : bool :=
  match get name params with Some _ => true | None => false end.

Definition remove (name : string) (params : t) : t :=
  filter (fun p => negb (String.eqb (fst p) name)) params.

(** [params.set(name, value)]: the first pair of that name takes the value
    and the others go; without such a pair, a new one is appended. *)
Fixpoint set (name value : string) (params : t) : t :=
  match params with
  | [] => [(name, value)]
  | (n, v) :: r =>
      if String.eqb n name then (n, value) :: remove name r
      else (n, v) :: set name value r
  end.

(** *** Serializing *)

Definition isUnreserved (c : ascii) : bool :=
  let n := nat_of_ascii c in
  ((48 <=? n) && (n <=? 57) || (65 <=? n) && (n <=? 90)
   || (97 <=? n) && (n <=? 122)
   || (n =? 42) || (n =? 45) || (n =? 46) || (n =? 95))%nat.

Definition hexDigit (n : nat) : ascii :=
  if (n <? 10)%nat then ascii_of_nat (48 + n) else ascii_of_nat (55 + n).

Definition encodeByte (c : ascii) : string :=
  if isUnreserved c then String c ""
  else if Ascii.eqb c " " then "+"
  else
    let n := nat_of_ascii c in
    String "%" (String (hexDigit (n / 16)) (String (hexDigit (n mod 16)) "")).

Fixpoint encodeString (s : string) : string :=
  match s with
  | EmptyString => ""
  | String c r => encodeByte c ++ encodeString r
  end.

Definition serializePair (p : string * string) : string :=
  encodeString (fst p) ++ String "=" (encodeString (snd p)).

(** [params.toString()] *)
Fixpoint toString (params : t) : string :=
  match params with
  | [] => ""
  | p :: r =>
      match r with
      | [] => serializePair p
      | _ :: _ => serializePair p ++ String "&" (toString r)
      end
  end.

(** *** Parsing *)

Fixpoint splitOn (sep : ascii) (s : string) : list string :=
  match s with
  | EmptyString => [EmptyString]
  | String c r =>
      if Ascii.eqb c sep then EmptyString :: splitOn sep r
      else
        match splitOn sep r with
        | x :: xs => String c x :: xs
        | [] => [String c EmptyString]
        end
  end.

(** The text before the first [sep], and the text after it if there is
    one. *)
Fixpoint cutAt (sep : ascii) (s : string) : string * option string :=
  match s with
  | EmptyString => (EmptyString, None)
  | String c r =>
      if Ascii.eqb c sep then (EmptyString, Some r)
      else let '(a, b) := cutAt sep r in (String c a, b)
  end.

Fixpoint plusToSpace (s : string) : string :=
  match s with
  | EmptyString => EmptyString
  | String c r => String (if Ascii.eqb c "+" then " "%char else c) (plusToSpace r)
  end.

Definition hexValue (c : ascii) : option nat :=
  let n := nat_of_ascii c in
  if ((48 <=? n) && (n <=? 57))%nat then Some (n - 48)
  else if ((65 <=? n) && (n <=? 70))%nat then Some (n - 55)
  else if ((97 <=? n) && (n <=? 102))%nat then Some (n - 87)
  else None.

Fixpoint percentDecode (s : string) : string :=
  match s with
  | EmptyString => EmptyString
  | String c s' =>
      if Ascii.eqb c "%" then
        match s' with
        | String a (String b r) =>
            match hexValue a, hexValue b with
            | Some x, Some y => String (ascii_of_nat (16 * x + y)) (percentDecode r)
            | _, _ => String c (percentDecode s')
            end
        | _ => String c (percentDecode s')
        end
      else String c (percentDecode s')
  end.

Definition decodeComponent (s : string) : string :=
  percentDecode (plusToSpace s).

Definition parsePair (seq : string) : string * string :=
  let '(name, value) := cutAt "=" seq in
  (decodeComponent name,
   decodeComponent (match value with Some v => v | None => "" end)).

Definition parse (input : string) : t :=
  map parsePair
    (filter (fun seq => negb (String.eqb seq "")) (splitOn "&" input)).

(** [new URLSearchParams(init)] on a string: one leading [?] is dropped. *)
Definition fromString (init : string) : t :=
  parse (match init with
         | String c r => if Ascii.eqb c "?" then r else init
         | EmptyString => init
         end).

(** Does the byte occur in the string? *)
Fixpoint contains (c : ascii) (s : string) : bool :=
  match s with
  | EmptyString => false
  | String c' r => Ascii.eqb c' c || contains c r
  end.

End URLSearchParams.

(** ** JavaScript numbers as binary64, for the codec *)

Module JSNumber.
Import Floats.
Local Open Scope float_scope.

Definition isNaN (x : float) : bool := PrimFloat.is_nan x.

Definition isNegativeZero (x : float) : bool :=
  PrimFloat.is_zero x && PrimFloat.get_sign x.

(** [Math.max(a, b)] and [Math.min(a, b)] on two numbers: NaN if either is
    NaN, and [-0] counts as less than [+0]. *)
Definition Math_max (a b : float) : float :=
  if isNaN a || isNaN b then nan
  else if a <? b then b
  else if b <? a then a
  else if isNegativeZero a then b else a.

Definition Math_min (a b : float) : float :=
  if isNaN a || isNaN b then nan
  else if a <? b then a
  else if b <? a then b
  else if isNegativeZero a then a else b.

(** The two conversions between numbers and text that the host supplies:
    [Number.prototype.toString] and the global [parseFloat]. *)
Class NumberCodec : Type := {
  Number_toString : float -> string;
  parseFloat : string -> float
}.

Definition Boolean_toString (b : bool) : string :=
  if b then "true"%string else "false"%string.

(** [x ?? d] and [x || d] on a string that may be [null]. *)
Definition nullish (x : option string) (d : string) : string :=
  match x with Some s => s | None => d end.

Definition orString (x : option string) (d : string) : string :=
  match x with
  | Some EmptyString | None => d
  | Some s => s
  end.

(** [x === "true"] *)
Definition isTrue (x : option string) : bool :=
  match x with Some s => String.eqb s "true" | None => false end.

End JSNumber.

(** ** [clampParameter] of [utils/audioUtils.ts], and the parse helpers *)

Module AudioUtils.
Import Floats JSNumber.

Definition clampParameter (value min max : float) : float :=
  Math_max min (Math_min max value).

End AudioUtils.

Module ParseUtils.
Import Floats JSNumber AudioUtils.

Definition parseAndClamp `{NumberCodec} (value : option string)
    (min max defaultValue : float) : float :=
  let parsed := parseFloat (nullish value "") in
  if isNaN parsed then defaultValue else clampParameter parsed min max.

Definition parseOrDefault `{NumberCodec} (value : option string)
    (defaultValue : float) : float :=
  let parsed := parseFloat (nullish value "") in
  if isNaN parsed then defaultValue else parsed.

End ParseUtils.

(** ** [store/types/synth.ts] *)

Module SynthTypes.
Import Floats.

Inductive OscillatorWaveform : Type :=
| triangle | tri_saw | sawtooth | rev_saw | pulse1 | pulse2 | pulse3.

Inductive OscillatorRange : Type :=
| range_32 | range_16 | range_8 | range_4 | range_2 | range_lo.

Inductive NoiseType : Type := white | pink.

Inductive LfoWaveform : Type := lfo_triangle | lfo_square.

(** The string each tag is at run time. *)
Definition waveformTag (w : OscillatorWaveform) : string :=
  match w with
  | triangle => "triangle" | tri_saw => "tri_saw" | sawtooth => "sawtooth"
  | rev_saw => "rev_saw" | pulse1 => "pulse1" | pulse2 => "pulse2"
  | pulse3 => "pulse3"
  end.

Definition rangeTag (r : OscillatorRange) : string :=
  match r with
  | range_32 => "32" | range_16 => "16" | range_8 => "8" | range_4 => "4"
  | range_2 => "2" | range_lo => "lo"
  end.

Definition noiseTag (n : NoiseType) : string :=
  match n with white => "white" | pink => "pink" end.

Definition lfoTag (l : LfoWaveform) : string :=
  match l with lfo_triangle => "triangle" | lfo_square => "square" end.

Module OscillatorState.
Record t : Type := {
  waveform : OscillatorWaveform;
  frequency : float;
  range : OscillatorRange;
  enabled : bool
}.
End OscillatorState.

Module MixerSourceState.
Record t : Type := { enabled : bool; volume : float }.
End MixerSourceState.

Module MixerNoiseState.
Record t : Type := { enabled : bool; volume : float; noiseType : NoiseType }.
End MixerNoiseState.

Module MixerState.
Record t : Type := {
  osc1 : MixerSourceState.t;
  osc2 : MixerSourceState.t;
  osc3 : MixerSourceState.t;
  noise : MixerNoiseState.t;
  external : MixerSourceState.t
}.
End MixerState.

Module AuxOutput.
Record t : Type := { enabled : bool; volume : float }.
End AuxOutput.

Record SynthState : Type := {
  isDisabled : bool;
  activeKeys : option string;
  pitchWheel : float;
  modWheel : float;
  masterTune : float;
  oscillator1 : OscillatorState.t;
  oscillator2 : OscillatorState.t;
  oscillator3 : OscillatorState.t;
  mixer : MixerState.t;
  mainVolume : float;
  isMainActive : bool;
  glideOn : bool;
  glideTime : float;
  filterAttack : float;
  filterDecay : float;
  filterSustain : float;
  filterCutoff : float;
  filterEmphasis : float;
  filterContourAmount : float;
  filterModulationOn : bool;
  keyboardControl1 : bool;
  keyboardControl2 : bool;
  oscillatorModulationOn : bool;
  lfoWaveform : LfoWaveform;
  lfoRate : float;
  osc3Control : bool;
  modMix : float;
  osc3FilterEgSwitch : bool;
  noiseLfoSwitch : bool;
  loudnessAttack : float;
  loudnessDecay : float;
  loudnessSustain : float;
  decaySwitchOn : bool;
  tunerOn : bool;
  auxOutput : AuxOutput.t
}.

(** *** What [loadStateFromURL] builds: [Partial<SynthState>] as it is at
    run time.  Every top-level field may be absent, and the tags are the
    strings read from the query, which the [as] casts do not check
    ([None] in a tag is [null]). *)

Module LoadedOscillator.
Record t : Type := {
  waveform : option string;
  frequency : float;
  range : option string;
  enabled : bool
}.
End LoadedOscillator.

Module LoadedNoise.
Record t : Type := { enabled : bool; volume : float; noiseType : string }.
End LoadedNoise.

Module LoadedMixer.
Record t : Type := {
  osc1 : MixerSourceState.t;
  osc2 : MixerSourceState.t;
  osc3 : MixerSourceState.t;
  noise : LoadedNoise.t;
  external : MixerSourceState.t
}.
End LoadedMixer.

Module Partial.
Record t : Type := {
  oscillator1 : option LoadedOscillator.t;
  oscillator2 : option LoadedOscillator.t;
  oscillator3 : option LoadedOscillator.t;
  mixer : option LoadedMixer.t;
  filterCutoff : option float;
  filterEmphasis : option float;
  filterContourAmount : option float;
  filterAttack : option float;
  filterDecay : option float;
  filterSustain : option float;
  filterModulationOn : option bool;
  loudnessAttack : option float;
  loudnessDecay : option float;
  loudnessSustain : option float;
  lfoWaveform : option string;
  lfoRate : option float;
  modMix : option float;
  oscillatorModulationOn : option bool;
  glideOn : option bool;
  glideTime : option float;
  mainVolume : option float;
  isMainActive : option bool;
  keyboardControl1 : option bool;
  keyboardControl2 : option bool;
  osc3Control : option bool;
  osc3FilterEgSwitch : option bool;
  noiseLfoSwitch : option bool;
  decaySwitchOn : option bool;
  masterTune : option float;
  pitchWheel : option float;
  modWheel : option float;
  tunerOn : option bool;
  auxOutput : option AuxOutput.t
}.

(** [{}] *)
Definition empty : t :=
  {| oscillator1 := None; oscillator2 := None; oscillator3 := None;
     mixer := None; filterCutoff := None; filterEmphasis := None;
     filterContourAmount := None; filterAttack := None; filterDecay := None;
     filterSustain := None; filterModulationOn := None;
     loudnessAttack := None; loudnessDecay := None; loudnessSustain := None;
     lfoWaveform := None; lfoRate := None; modMix := None;
     oscillatorModulationOn := None; glideOn := None; glideTime := None;
     mainVolume := None; isMainActive := None; keyboardControl1 := None;
     keyboardControl2 := None; osc3Control := None;
     osc3FilterEgSwitch := None; noiseLfoSwitch := None;
     decaySwitchOn := None; masterTune := None; pitchWheel := None;
     modWheel := None; tunerOn := None; auxOutput := None |}.
End Partial.

End SynthTypes.

(** ** [utils/urlUtils.ts] *)

Module UrlUtils.
Import Floats JSNumber ParseUtils SynthTypes.
Local Open Scope string_scope.

(** The [params.set] calls of [saveStateToURL], in order. *)
Definition assignments `{NumberCodec} (state : SynthState)
    : list (string * string) :=
  let osc1 := oscillator1 state in
  let osc2 := oscillator2 state in
  let osc3 := oscillator3 state in
  let mix := mixer state in
  [ ("osc1_waveform", waveformTag (OscillatorState.waveform osc1));
    ("osc1_freq", Number_toString (OscillatorState.frequency osc1));
    ("osc1_range", rangeTag (OscillatorState.range osc1));
    ("osc1_enabled", Boolean_toString (OscillatorState.enabled osc1));

    ("osc2_waveform", waveformTag (OscillatorState.waveform osc2));
    ("osc2_freq", Number_toString (OscillatorState.frequency osc2));
    ("osc2_range", rangeTag (OscillatorState.range osc2));
    ("osc2_enabled", Boolean_toString (OscillatorState.enabled osc2));

    ("osc3_waveform", waveformTag (OscillatorState.waveform osc3));
    ("osc3_freq", Number_toString (OscillatorState.frequency osc3));
    ("osc3_range", rangeTag (OscillatorState.range osc3));
    ("osc3_enabled", Boolean_toString (OscillatorState.enabled osc3));

    ("mix_osc1_enabled",
      Boolean_toString (MixerSourceState.enabled (MixerState.osc1 mix)));
    ("mix_osc1_vol",
      Number_toString (MixerSourceState.volume (MixerState.osc1 mix)));
    ("mix_osc2_enabled",
      Boolean_toString (MixerSourceState.enabled (MixerState.osc2 mix)));
    ("mix_osc2_vol",
      Number_toString (MixerSourceState.volume (MixerState.osc2 mix)));
    ("mix_osc3_enabled",
      Boolean_toString (MixerSourceState.enabled (MixerState.osc3 mix)));
    ("mix_osc3_vol",
      Number_toString (MixerSourceState.volume (MixerState.osc3 mix)));
    ("mix_noise_enabled",
      Boolean_toString (MixerNoiseState.enabled (MixerState.noise mix)));
    ("mix_noise_vol",
      Number_toString (MixerNoiseState.volume (MixerState.noise mix)));
    ("mix_noise_type", noiseTag (MixerNoiseState.noiseType (MixerState.noise mix)));
    ("mix_ext_enabled",
      Boolean_toString (MixerSourceState.enabled (MixerState.external mix)));
    ("mix_ext_vol",
      Number_toString (MixerSourceState.volume (MixerState.external mix)));

    ("filter_cutoff", Number_toString (filterCutoff state));
    ("filter_emphasis", Number_toString (filterEmphasis state));
    ("filter_contour", Number_toString (filterContourAmount state));
    ("filter_attack", Number_toString (filterAttack state));
    ("filter_decay", Number_toString (filterDecay state));
    ("filter_sustain", Number_toString (filterSustain state));
    ("filter_mod_on", Boolean_toString (filterModulationOn state));

    ("loudness_attack", Number_toString (loudnessAttack state));
    ("loudness_decay", Number_toString (loudnessDecay state));
    ("loudness_sustain", Number_toString (loudnessSustain state));

    ("lfo_waveform", lfoTag (lfoWaveform state));
    ("lfo_rate", Number_toString (lfoRate state));
    ("mod_mix", Number_toString (modMix state));
    ("osc_mod_on", Boolean_toString (oscillatorModulationOn state));

    ("glide_on", Boolean_toString (glideOn state));
    ("glide_time", Number_toString (glideTime state));
    ("main_volume", Number_toString (mainVolume state));
    ("main_active", Boolean_toString (isMainActive state));
    ("keyboard_control1", Boolean_toString (keyboardControl1 state));
    ("keyboard_control2", Boolean_toString (keyboardControl2 state));
    ("osc3_control", Boolean_toString (osc3Control state));
    ("osc3_filter_eg", Boolean_toString (osc3FilterEgSwitch state));
    ("noise_lfo_switch", Boolean_toString (noiseLfoSwitch state));
    ("decay_switch", Boolean_toString (decaySwitchOn state));
    ("master_tune", Number_toString (masterTune state));
    ("pitch_wheel", Number_toString (pitchWheel state));
    ("mod_wheel", Number_toString (modWheel state));
    ("tuner_on", Boolean_toString (tunerOn state));

    ("aux_enabled", Boolean_toString (AuxOutput.enabled (auxOutput state)));
    ("aux_volume", Number_toString (AuxOutput.volume (auxOutput state))) ].

Definition setAll (sets : list (string * string)) (params : URLSearchParams.t)
    : URLSearchParams.t :=
  fold_left (fun p kv => URLSearchParams.set (fst kv) (snd kv) p) sets params.

Definition saveStateToURL `{NumberCodec} (state : SynthState) : string :=
  let params := setAll (assignments state) [] in
  URLSearchParams.toString params.

Definition loadOscillator `{NumberCodec} (params : URLSearchParams.t)
    (waveformKey freqKey rangeKey enabledKey defaultFreq : string)
    : option LoadedOscillator.t :=
  if URLSearchParams.has waveformKey params then
    Some {| LoadedOscillator.waveform := URLSearchParams.get waveformKey params;
            LoadedOscillator.frequency :=
              parseFloat (orString (URLSearchParams.get freqKey params) defaultFreq);
            LoadedOscillator.range := URLSearchParams.get rangeKey params;
            LoadedOscillator.enabled :=
              isTrue (URLSearchParams.get enabledKey params) |}
  else None.

Definition loadMixerSource `{NumberCodec} (params : URLSearchParams.t)
    (enabledKey volKey : string) : MixerSourceState.t :=
  {| MixerSourceState.enabled := isTrue (URLSearchParams.get enabledKey params);
     MixerSourceState.volume :=
       parseFloat (orString (URLSearchParams.get volKey params) "0") |}.

(** A top-level field assigned inside [if (params.has(anchor)) { ... }]. *)
Definition guarded {A : Type} (params : URLSearchParams.t) (anchor : string)
    (value : A) : option A :=
  if URLSearchParams.has anchor params then Some value else None.

(** The body of [loadStateFromURL] once [params] is built.  [None] is
    [null].  Each [if (params.has(k)) { state.f = v; ... }] of the source
    sets the fields it names and leaves the others absent. *)
Definition loadStateFromParams `{NumberCodec} (params : URLSearchParams.t)
    : option Partial.t :=
  let get k := URLSearchParams.get k params in
  if String.eqb (URLSearchParams.toString params) "" then None
  else
    Some
      {| Partial.oscillator1 :=
           loadOscillator params
             "osc1_waveform" "osc1_freq" "osc1_range" "osc1_enabled" "440";
         Partial.oscillator2 :=
           loadOscillator params
             "osc2_waveform" "osc2_freq" "osc2_range" "osc2_enabled" "0";
         Partial.oscillator3 :=
           loadOscillator params
             "osc3_waveform" "osc3_freq" "osc3_range" "osc3_enabled" "0";
         Partial.mixer :=
           guarded params "mix_osc1_enabled"
             {| LoadedMixer.osc1 :=
                  loadMixerSource params "mix_osc1_enabled" "mix_osc1_vol";
                LoadedMixer.osc2 :=
                  loadMixerSource params "mix_osc2_enabled" "mix_osc2_vol";
                LoadedMixer.osc3 :=
                  loadMixerSource params "mix_osc3_enabled" "mix_osc3_vol";
                LoadedMixer.noise :=
                  {| LoadedNoise.enabled := isTrue (get "mix_noise_enabled");
                     LoadedNoise.volume :=
                       parseFloat (orString (get "mix_noise_vol") "0");
                     LoadedNoise.noiseType :=
                       orString (get "mix_noise_type") "white" |};
                LoadedMixer.external :=
                  loadMixerSource params "mix_ext_enabled" "mix_ext_vol" |};
         Partial.filterCutoff :=
           guarded params "filter_cutoff"
             (parseAndClamp (get "filter_cutoff") (-4) 4 0);
         Partial.filterEmphasis :=
           guarded params "filter_cutoff" (parseOrDefault (get "filter_emphasis") 5);
         Partial.filterContourAmount :=
           guarded params "filter_cutoff" (parseOrDefault (get "filter_contour") 5);
         Partial.filterAttack :=
           guarded params "filter_cutoff" (parseOrDefault (get "filter_attack") 0.5);
         Partial.filterDecay :=
           guarded params "filter_cutoff" (parseOrDefault (get "filter_decay") 0);
         Partial.filterSustain :=
           guarded params "filter_cutoff" (parseOrDefault (get "filter_sustain") 0);
         Partial.filterModulationOn :=
           guarded params "filter_cutoff" (isTrue (get "filter_mod_on"));
         Partial.loudnessAttack :=
           guarded params "loudness_attack"
             (parseOrDefault (get "loudness_attack") 0.5);
         Partial.loudnessDecay :=
           guarded params "loudness_attack" (parseOrDefault (get "loudness_decay") 0);
         Partial.loudnessSustain :=
           guarded params "loudness_attack"
             (parseOrDefault (get "loudness_sustain") 5);
         Partial.lfoWaveform :=
           if URLSearchParams.has "lfo_waveform" params
           then get "lfo_waveform" else None;
         Partial.lfoRate :=
           guarded params "lfo_waveform" (parseOrDefault (get "lfo_rate") 5);
         Partial.modMix :=
           guarded params "lfo_waveform" (parseOrDefault (get "mod_mix") 0);
         Partial.oscillatorModulationOn :=
           guarded params "lfo_waveform" (isTrue (get "osc_mod_on"));
         Partial.glideOn := guarded params "glide_on" (isTrue (get "glide_on"));
         Partial.glideTime :=
           guarded params "glide_on" (parseOrDefault (get "glide_time") 0.1);
         Partial.mainVolume :=
           guarded params "main_volume" (parseOrDefault (get "main_volume") 2.5);
         Partial.isMainActive :=
           guarded params "main_volume" (isTrue (get "main_active"));
         Partial.keyboardControl1 :=
           guarded params "keyboard_control1" (isTrue (get "keyboard_control1"));
         Partial.keyboardControl2 :=
           guarded params "keyboard_control1" (isTrue (get "keyboard_control2"));
         Partial.osc3Control :=
           guarded params "osc3_control" (isTrue (get "osc3_control"));
         Partial.osc3FilterEgSwitch :=
           guarded params "osc3_control" (isTrue (get "osc3_filter_eg"));
         Partial.noiseLfoSwitch :=
           guarded params "noise_lfo_switch" (isTrue (get "noise_lfo_switch"));
         Partial.decaySwitchOn :=
           guarded params "noise_lfo_switch" (isTrue (get "decay_switch"));
         Partial.masterTune :=
           guarded params "master_tune" (parseOrDefault (get "master_tune") 0);
         Partial.pitchWheel :=
           guarded params "master_tune" (parseOrDefault (get "pitch_wheel") 50);
         Partial.modWheel :=
           guarded params "master_tune" (parseOrDefault (get "mod_wheel") 50);
         Partial.tunerOn := guarded params "tuner_on" (isTrue (get "tuner_on"));
         Partial.auxOutput :=
           guarded params "aux_enabled"
             {| AuxOutput.enabled := isTrue (get "aux_enabled");
                AuxOutput.volume := parseOrDefault (get "aux_volume") 0 |} |}.

(** [loadStateFromURL], with [window.location.search] as its argument. *)
Definition loadStateFromURL `{NumberCodec} (search : string) : option Partial.t :=
  let params := URLSearchParams.fromString search in
  loadStateFromParams params.

End UrlUtils.

(** ** Definitions used to state the properties of the codec *)

Module CodecSpec.
Import Floats JSNumber SynthTypes UrlUtils.
Local Open Scope string_scope.

(** The host's conversions read a number back: its text is not empty and
    [parseFloat] reads the text as the same number (NaN is read back when
    ["NaN"] parses to NaN). *)
Definition readsBack `{NumberCodec} (v : float) : Prop :=
  Number_toString v <> "" /\
  parseFloat (Number_toString v) = v.







(** The groups of [loadStateFromURL], one per [if (params.has(...))]. *)
Inductive Group : Type :=
| GOscillator1 | GOscillator2 | GOscillator3 | GMixer | GFilter | GLoudness
| GModulation | GGlide | GMainVolume | GKeyboardControl | GOsc3Control
| GNoiseLfo | GTune | GTuner | GAuxOutput.

Definition allGroups : list Group :=
  [GOscillator1; GOscillator2; GOscillator3; GMixer; GFilter; GLoudness;
   GModulation; GGlide; GMainVolume; GKeyboardControl; GOsc3Control;
   GNoiseLfo; GTune; GTuner; GAuxOutput].

(** The key whose presence decides the group. *)
Definition anchor (g : Group) : string :=
  match g with
  | GOscillator1 => "osc1_waveform"
  | GOscillator2 => "osc2_waveform"
  | GOscillator3 => "osc3_waveform"
  | GMixer => "mix_osc1_enabled"
  | GFilter => "filter_cutoff"
  | GLoudness => "loudness_attack"
  | GModulation => "lfo_waveform"
  | GGlide => "glide_on"
  | GMainVolume => "main_volume"
  | GKeyboardControl => "keyboard_control1"
  | GOsc3Control => "osc3_control"
  | GNoiseLfo => "noise_lfo_switch"
  | GTune => "master_tune"
  | GTuner => "tuner_on"
  | GAuxOutput => "aux_enabled"
  end.

Definition isSome {A : Type} (x : option A) : bool :=
  match x with Some _ => true | None => false end.

(** For each field of the group, whether the overlay has it. *)
Definition fieldsPresent (g : Group) (st : Partial.t) : list bool :=
  match g with
  | GOscillator1 => [isSome (Partial.oscillator1 st)]
  | GOscillator2 => [isSome (Partial.oscillator2 st)]
  | GOscillator3 => [isSome (Partial.oscillator3 st)]
  | GMixer => [isSome (Partial.mixer st)]
  | GFilter =>
      [isSome (Partial.filterCutoff st); isSome (Partial.filterEmphasis st);
       isSome (Partial.filterContourAmount st); isSome (Partial.filterAttack st);
       isSome (Partial.filterDecay st); isSome (Partial.filterSustain st);
       isSome (Partial.filterModulationOn st)]
  | GLoudness =>
      [isSome (Partial.loudnessAttack st); isSome (Partial.loudnessDecay st);
       isSome (Partial.loudnessSustain st)]
  | GModulation =>
      [isSome (Partial.lfoWaveform st); isSome (Partial.lfoRate st);
       isSome (Partial.modMix st); isSome (Partial.oscillatorModulationOn st)]
  | GGlide => [isSome (Partial.glideOn st); isSome (Partial.glideTime st)]
  | GMainVolume =>
      [isSome (Partial.mainVolume st); isSome (Partial.isMainActive st)]
  | GKeyboardControl =>
      [isSome (Partial.keyboardControl1 st); isSome (Partial.keyboardControl2 st)]
  | GOsc3Control =>
      [isSome (Partial.osc3Control st); isSome (Partial.osc3FilterEgSwitch st)]
  | GNoiseLfo =>
      [isSome (Partial.noiseLfoSwitch st); isSome (Partial.decaySwitchOn st)]
  | GTune =>
      [isSome (Partial.masterTune st); isSome (Partial.pitchWheel st);
       isSome (Partial.modWheel st)]
  | GTuner => [isSome (Partial.tunerOn st)]
  | GAuxOutput => [isSome (Partial.auxOutput st)]
  end.

(** The group is populated: all its fields are there. *)
Definition populated (g : Group) (st : Partial.t) : bool :=
  forallb (fun b => b) (fieldsPresent g st).

(** The group is absent: none of its fields is there. *)
Definition absent (g : Group) (st : Partial.t) : bool :=
  forallb negb (fieldsPresent g st).

(** The query of the specification's partial-decode scenario. *)
Definition oscillator1Query : string :=
  "osc1_waveform=sawtooth&osc1_freq=440&osc1_range=8&osc1_enabled=true".

(** What the scenario's query decodes to: the [oscillator1] group and
    nothing else. *)
Definition oscillator1Only `{NumberCodec} : Partial.t :=
  {| Partial.oscillator1 :=
       Some {| LoadedOscillator.waveform := Some "sawtooth";
               LoadedOscillator.frequency := parseFloat "440";
               LoadedOscillator.range := Some "8";
               LoadedOscillator.enabled := true |};
     Partial.oscillator2 := None; Partial.oscillator3 := None;
     Partial.mixer := None; Partial.filterCutoff := None;
     Partial.filterEmphasis := None; Partial.filterContourAmount := None;
     Partial.filterAttack := None; Partial.filterDecay := None;
     Partial.filterSustain := None; Partial.filterModulationOn := None;
     Partial.loudnessAttack := None; Partial.loudnessDecay := None;
     Partial.loudnessSustain := None; Partial.lfoWaveform := None;
     Partial.lfoRate := None; Partial.modMix := None;
     Partial.oscillatorModulationOn := None; Partial.glideOn := None;
     Partial.glideTime := None; Partial.mainVolume := None;
     Partial.isMainActive := None; Partial.keyboardControl1 := None;
     Partial.keyboardControl2 := None; Partial.osc3Control := None;
     Partial.osc3FilterEgSwitch := None; Partial.noiseLfoSwitch := None;
     Partial.decaySwitchOn := None; Partial.masterTune := None;
     Partial.pitchWheel := None; Partial.modWheel := None;
     Partial.tunerOn := None; Partial.auxOutput := None |}.

(** *** A fragment of the host's number conversions

    [Number.prototype.toString] and [parseFloat] on the numbers of the
    example state below; any other number prints as ["NaN"]. *)
Definition sampleNumbers : list (float * string) :=
  [ (440%float, "440"); (220%float, "220"); (0%float, "0");
    (0.5%float, "0.5"); (2.5%float, "2.5"); (5%float, "5"); (8%float, "8");
    (10%float, "10"); (50%float, "50"); (0.1%float, "0.1");
    ((-2)%float, "-2"); ((-4)%float, "-4"); (4%float, "4"); (1.5%float, "1.5") ].

Fixpoint printNumber (table : list (float * string)) (x : float) : string :=
  match table with
  | [] => "NaN"
  | (y, s) :: r => if PrimFloat.Leibniz.eqb x y then s else printNumber r x
  end.

Fixpoint readNumber (table : list (float * string)) (s : string) : float :=
  match table with
  | [] => PrimFloat.nan
  | (y, s') :: r => if String.eqb s s' then y else readNumber r s
  end.

Definition sampleCodec : NumberCodec :=
  {| Number_toString := printNumber sampleNumbers;
     parseFloat := readNumber sampleNumbers |}.

Definition sampleState : SynthState :=
  {| isDisabled := false;
     activeKeys := None;
     pitchWheel := 50;
     modWheel := 50;
     masterTune := -2;
     oscillator1 :=
       {| OscillatorState.waveform := sawtooth;
          OscillatorState.frequency := 440;
          OscillatorState.range := range_8;
          OscillatorState.enabled := true |};
     oscillator2 :=
       {| OscillatorState.waveform := pulse1;
          OscillatorState.frequency := 0;
          OscillatorState.range := range_16;
          OscillatorState.enabled := false |};
     oscillator3 :=
       {| OscillatorState.waveform := triangle;
          OscillatorState.frequency := 220;
          OscillatorState.range := range_lo;
          OscillatorState.enabled := true |};
     mixer :=
       {| MixerState.osc1 :=
            {| MixerSourceState.enabled := true; MixerSourceState.volume := 8 |};
          MixerState.osc2 :=
            {| MixerSourceState.enabled := false; MixerSourceState.volume := 0 |};
          MixerState.osc3 :=
            {| MixerSourceState.enabled := true; MixerSourceState.volume := 2.5 |};
          MixerState.noise :=
            {| MixerNoiseState.enabled := true; MixerNoiseState.volume := 1.5;
               MixerNoiseState.noiseType := pink |};
          MixerState.external :=
            {| MixerSourceState.enabled := false; MixerSourceState.volume := 0 |} |};
     mainVolume := 2.5;
     isMainActive := true;
     glideOn := true;
     glideTime := 0.1;
     filterAttack := 0.5;
     filterDecay := 2.5;
     filterSustain := 5;
     filterCutoff := -4;
     filterEmphasis := 5;
     filterContourAmount := 10;
     filterModulationOn := true;
     keyboardControl1 := true;
     keyboardControl2 := false;
     oscillatorModulationOn := true;
     lfoWaveform := lfo_square;
     lfoRate := 5;
     osc3Control := true;
     modMix := 0;
     osc3FilterEgSwitch := false;
     noiseLfoSwitch := true;
     loudnessAttack := 0.5;
     loudnessDecay := 2.5;
     loudnessSustain := 8;
     decaySwitchOn := false;
     tunerOn := true;
     auxOutput := {| AuxOutput.enabled := true; AuxOutput.volume := 1.5 |} |}.

End CodecSpec.

(** ** Definitions used to state further properties of the node pool *)

Module PoolSpec.
Import NodePoolingUtils.
Local Open Scope Z_scope.

(** The test of [cleanupPool]: idle, and last used more than a minute
    before [now]. *)
Definition expired (now : Z) (m : PooledNode) : bool :=
  negb (isActive m) && (60000 <? now - lastUsed m).

(** [maxPoolSize] of the current configuration ([0] without a pool). *)
Definition capacityOf (w : World) : Z :=
  match globalPool w with
  | Some pool => maxPoolSize (config pool)
  | None => 0
  end.

Definition nodesOf (w : World) : NodeMap :=
  match globalPool w with
  | Some pool => nodes pool
  | None => []
  end.

(** Nodes counted as created and not yet as disposed, less the nodes
    tracked. *)
Definition balance (w : World) : Z :=
  created (statsOf w) - disposed (statsOf w) - trackedCount w.

(** A node the pool must not hand out again: it exists, and if the pool
    tracks it, it is active. *)
Definition inUse (w : World) (n : AudioNode) : Prop :=
  (nodeId n < nextNodeId w)%nat /\
  forall m, Map_get n (nodesOf w) = Some m -> isActive m = true.

(** The node [createNewNode] makes in state [w]. *)
Definition freshNode (w : World) (ty : NodeType) : AudioNode :=
  {| nodeId := nextNodeId w; nodeClass := Some ty; hasClosablePort := false |}.

(** Every tracked node is of the class its metadata records. *)
Definition classesMatch (w : World) : Prop :=
  forall n m, In (n, m) (nodesOf w) -> nodeClass n = Some (type m).

(** What holds of the pool bookkeeping in every reachable state: the two
    reuse counters agree, and each tracked node is of the class its metadata
    names. *)
Definition poolInvariant (w : World) : Prop :=
  poolHits (statsOf w) = reused (statsOf w) /\ classesMatch w.

(** One call of the module's interface, and a run of calls from a freshly
    loaded module. *)
Inductive PoolCall : Type :=
| CallInitialize (c : PartialNodePoolConfig)
| CallGet (ty : NodeType) (ctx : AudioContext) (options : option NodeOptions) (now : Z)
| CallRelease (n : AudioNode) (now : Z)
| CallDispose (n : AudioNode)
| CallCleanup (now : Z)
| CallClear
| CallResetStats
| CallUpdateConfig (c : PartialNodePoolConfig)
| CallHostCreates (c : option NodeType) (port : bool).

Definition perform (w : World) (c : PoolCall) : World :=
  match c with
  | CallInitialize c => snd (initializeNodePool c w)
  | CallGet ty ctx options now => snd (getPooledNode ty ctx options now w)
  | CallRelease n now => releaseNode n now w
  | CallDispose n => disposeNode n w
  | CallCleanup now => cleanupPool now w
  | CallClear => clearPool w
  | CallResetStats => resetPoolStats w
  | CallUpdateConfig c => updatePoolConfig c w
  | CallHostCreates c port => snd (hostCreatesNode c port w)
  end.

Definition performAll (cs : list PoolCall) (w : World) : World :=
  fold_left perform cs w.

Definition isResetStats (c : PoolCall) : bool :=
  match c with CallResetStats => true | _ => false end.

End PoolSpec.

(** ** More example pool states *)

Module PoolScenarios.
Import Floats NodePoolingUtils PoolSpec PoolExamples.
Local Open Scope Z_scope.

(** The two nodes of [busyPool]. *)
Definition oscillatorNode : AudioNode :=
  {| nodeId := 0; nodeClass := Some oscillator; hasClosablePort := false |}.

Definition gainNode : AudioNode :=
  {| nodeId := 1; nodeClass := Some gain; hasClosablePort := false |}.

(** [busyPool] after the gain node was released at time 100. *)
Definition idleGainPool : World := releaseNode gainNode 100 busyPool.

(** The gain node's metadata in [busyPool] and in [idleGainPool]. *)
Definition gainActive : PooledNode :=
  {| node := gainNode; type := gain; createdAt := 20; lastUsed := 20;
     isActive := true |}.

Definition gainIdle : PooledNode :=
  {| node := gainNode; type := gain; createdAt := 20; lastUsed := 100;
     isActive := false |}.

(** [initializeNodePool({ enablePooling: false })] on a fresh module. *)
Definition pooledOff : World :=
  snd (initializeNodePool
         {| maxPoolSize_opt := None; enablePooling_opt := Some false;
            cleanupInterval_opt := None |} emptyWorld).

(** A session: a pool of capacity two, three requests, a release, a
    clean-up long after, a disposal and a request that reuses nothing. *)
Definition session : list PoolCall :=
  [ CallInitialize {| maxPoolSize_opt := Some 2; enablePooling_opt := None;
                      cleanupInterval_opt := None |};
    CallGet oscillator ctx0 None 10;
    CallGet gain ctx0 None 20;
    CallGet gain ctx0 None 30;
    CallRelease gainNode 100;
    CallCleanup 70000;
    CallDispose oscillatorNode;
    CallGet filter ctx0 None 70010 ].

End PoolScenarios.

(** ** [utils/midiUtils.ts]: MIDI messages

    Bytes and channel numbers are integers.  A [Uint8Array] is a list of
    integers; building one from an array of integers reduces each element
    modulo 256, and the arrays the functions receive hold elements in
    [0, 256). *)

Module MidiMessages.
Local Open Scope Z_scope.

Inductive MIDIMessageType : Type :=
| NOTE_OFF | NOTE_ON | POLYPHONIC_KEY_PRESSURE | CONTROL_CHANGE
| PROGRAM_CHANGE | CHANNEL_PRESSURE | PITCH_BEND | SYSTEM_EXCLUSIVE
| TIME_CODE | SONG_POSITION | SONG_SELECT | TUNE_REQUEST | TIMING_CLOCK
| START | CONTINUE | STOP | ACTIVE_SENSING | RESET.

Definition MIDI_STATUS_BYTES (t : MIDIMessageType) : Z :=
  match t with
  | NOTE_OFF => 0x80
  | NOTE_ON => 0x90
  | POLYPHONIC_KEY_PRESSURE => 0xa0
  | CONTROL_CHANGE => 0xb0
  | PROGRAM_CHANGE => 0xc0
  | CHANNEL_PRESSURE => 0xd0
  | PITCH_BEND => 0xe0
  | SYSTEM_EXCLUSIVE => 0xf0
  | TIME_CODE => 0xf1
  | SONG_POSITION => 0xf2
  | SONG_SELECT => 0xf3
  | TUNE_REQUEST => 0xf6
  | TIMING_CLOCK => 0xf8
  | START => 0xfa
  | CONTINUE => 0xfb
  | STOP => 0xfc
  | ACTIVE_SENSING => 0xfe
  | RESET => 0xff
  end.

(** The three shapes of object [parseMIDIMessage] returns. *)
Inductive MIDIMessage : Type :=
| MIDINoteMessage (type : MIDIMessageType) (channel note velocity : Z)
| MIDIControlChangeMessage (channel controller value : Z)
| MIDIPitchBendMessage (channel value : Z).

Definition channelOf (m : MIDIMessage) : Z :=
  match m with
  | MIDINoteMessage _ channel _ _ => channel
  | MIDIControlChangeMessage channel _ _ => channel
  | MIDIPitchBendMessage channel _ => channel
  end.

Definition Uint8Array : Type := list Z.

(** [new Uint8Array([...])] *)
Definition Uint8Array_from (xs : list Z) : Uint8Array :=
  map (fun x => x mod 256) xs.

(** The 32-bit signed result of the bit operators, and [a << n]. *)
Definition toInt32 (z : Z) : Z := (z + 2 ^ 31) mod 2 ^ 32 - 2 ^ 31.

Definition shiftLeft (a n : Z) : Z := toInt32 (Z.shiftl a (Z.land n 31)).

Definition parseMIDIMessage (data : Uint8Array) : option MIDIMessage :=
  match data with
  | status :: data1 :: rest =>
      let messageType := Z.land status 0xf0 in
      let channel := Z.land status 0x0f + 1 in
      if (messageType =? MIDI_STATUS_BYTES NOTE_ON)
         || (messageType =? MIDI_STATUS_BYTES NOTE_OFF) then
        match rest with
        | data2 :: _ =>
            Some (MIDINoteMessage
                    (if messageType =? MIDI_STATUS_BYTES NOTE_ON
                     then NOTE_ON else NOTE_OFF)
                    channel data1 data2)
        | [] => None
        end
      else if messageType =? MIDI_STATUS_BYTES CONTROL_CHANGE then
        match rest with
        | data2 :: _ => Some (MIDIControlChangeMessage channel data1 data2)
        | [] => None
        end
      else if messageType =? MIDI_STATUS_BYTES PITCH_BEND then
        match rest with
        | data2 :: _ =>
            let bendValue := data1 + shiftLeft data2 7 in
            Some (MIDIPitchBendMessage channel bendValue)
        | [] => None
        end
      else None
  | _ => None
  end.

Definition createMIDIMessage (type : MIDIMessageType) (channel : Z)
    (data : list Z) : Uint8Array :=
  let status := Z.lor (MIDI_STATUS_BYTES type) (Z.land (channel - 1) 0x0f) in
  Uint8Array_from (status :: data).

Definition validateMIDIMessage (data : Uint8Array) : bool :=
  match data with
  | [] => false
  | status :: _ =>
      let messageType := Z.land status 0xf0 in
      if (messageType =? MIDI_STATUS_BYTES NOTE_ON)
         || (messageType =? MIDI_STATUS_BYTES NOTE_OFF)
         || (messageType =? MIDI_STATUS_BYTES CONTROL_CHANGE) then
        3 <=? Z.of_nat (List.length data)
      else if messageType =? MIDI_STATUS_BYTES PITCH_BEND then
        3 <=? Z.of_nat (List.length data)
      else if (messageType =? MIDI_STATUS_BYTES PROGRAM_CHANGE)
              || (messageType =? MIDI_STATUS_BYTES CHANNEL_PRESSURE) then
        2 <=? Z.of_nat (List.length data)
      else true
  end.

(** The range checks, on integers. *)
Definition isValidMIDINote (note : Z) : bool := (0 <=? note) && (note <=? 127).
Definition isValidMIDIVelocity (velocity : Z) : bool :=
  (0 <=? velocity) && (velocity <=? 127).
Definition isValidMIDIControlValue (value : Z) : bool :=
  (0 <=? value) && (value <=? 127).
Definition isValidMIDIPitchBend (value : Z) : bool :=
  (0 <=? value) && (value <=? 16383).

(** The status nibbles [parseMIDIMessage] has a case for. *)
Definition parsedStatus (messageType : Z) : bool :=
  (messageType =? 0x80) || (messageType =? 0x90) || (messageType =? 0xb0)
  || (messageType =? 0xe0).

Definition isByte (b : Z) : Prop := 0 <= b < 256.

End MidiMessages.

(** ** [utils/midiUtils.ts]: note names, modulation scaling, ticks and
    envelope times *)

Module MidiScaling.
Import JSMath JSString MidiUtils.
Local Open Scope R_scope.

(** [arr[i]] for an integer [i]: [None] is [undefined]. *)
Definition element (arr : list string) (i : Z) : option string :=
  if (i <? 0)%Z then None else nth_error arr (Z.to_nat i).

(** [midiNoteToNoteName] on an integer; [%] truncates, so a negative note
    gives a negative index. *)
Definition midiNoteToNoteName (midiNote : Z) : option string :=
  element noteNames (Z.rem midiNote 12).

Definition expScale (value : R) : R :=
  let normalized := value / 127 in
  let scaled :=
    if Rlt_dec normalized (3 / 10)
    then normalized * (1 / (3 / 10)) * (3 / 10)
    else 3 / 10 + Math_pow ((normalized - 3 / 10) / (7 / 10)) (15 / 10) * (7 / 10) in
  Math_round (scaled * 100).

Definition ticksToSeconds (ticks tempo resolution : R) : R :=
  let secondsPerBeat := 60 / tempo in
  (ticks / resolution) * secondsPerBeat.

Definition secondsToTicks (seconds tempo resolution : R) : R :=
  let secondsPerBeat := 60 / tempo in
  Math_round ((seconds / secondsPerBeat) * resolution).

(** [clampMIDIValue(value, min, max)]; the defaults are [0] and [127]. *)
Definition clampMIDIValue (value min max : R) : R :=
  Math_max min (Math_min max (Math_round value)).

Definition mapEnvelopeTime (value : R) : R :=
  let minTime := 2 / 100 in
  let maxTime := 15 in
  minTime * Math_pow (maxTime / minTime) (value / 10).

Definition mapContourAmount (val : R) : R := val * (4 / 10).

End MidiScaling.

(** ** [utils/audioUtils.ts]: glide time and volume *)

Module AudioScaling.
Import JSMath.
Local Open Scope R_scope.

Definition calculateGlideTime (glideTime : R) : R :=
  Math_pow 10 (glideTime / 5) * (2 / 100).

Definition calculateVolume (volume volumeBoost : R) : R :=
  Math_min 1 ((volume / 10) * volumeBoost).

End AudioScaling.

(** ** The signal utilities: scaling, gain, cents, rounding *)

Module SignalScaling.
Import JSMath JSString MidiUtils MidiScaling.
Local Open Scope R_scope.

Definition clamp (value min max : R) : R := Math_max min (Math_min max value).

Definition logarithmicScale (value : R) (fromRange toRange : R * R) : R :=
  let '(fromMin, fromMax) := fromRange in
  let '(toMin, toMax) := toRange in
  if Req_dec_T fromMax fromMin then toMin
  else
    let normalized := (value - fromMin) / (fromMax - fromMin) in
    let logarithmic := Math_log (1 + normalized * 9) / Math_log 10 in
    toMin + logarithmic * (toMax - toMin).

Definition musicalScale (value : R) (fromRange toRange : R * R) : R :=
  let '(fromMin, fromMax) := fromRange in
  let '(toMin, toMax) := toRange in
  if Req_dec_T fromMax fromMin then toMin
  else
    let normalized := (value - fromMin) / (fromMax - fromMin) in
    let musical := Math_pow 2 (normalized * 12) / Math_pow 2 12 in
    toMin + musical * (toMax - toMin).

(** [maxVolume] defaults to [10]. *)
Definition linearToLogGain (linearVolume maxVolume : R) : R :=
  let normalized := linearVolume / maxVolume in
  Math_pow normalized (15 / 10).

Definition logGainToLinear (gain maxVolume : R) : R :=
  Math_pow gain (1 / (15 / 10)) * maxVolume.

(** A [Float32Array] is the list of its samples. *)
Definition calculatePeak (buffer : list R) : R :=
  fold_left (fun peak sample => Math_max peak (Rabs sample)) buffer 0.

Definition sumOfSquares (buffer : list R) : R :=
  fold_left (fun sum sample => sum + sample * sample) buffer 0.

Definition sumOfAbs (buffer : list R) : R :=
  fold_left (fun sum sample => sum + Rabs sample) buffer 0.

(** [None] is NaN, the result on an empty buffer ([0 / 0]). *)
Definition calculateRMS (buffer : list R) : option R :=
  match buffer with
  | [] => None
  | _ => Some (Math_sqrt (sumOfSquares buffer / INR (List.length buffer)))
  end.

Definition calculateAverage (buffer : list R) : option R :=
  match buffer with
  | [] => None
  | _ => Some (sumOfAbs buffer / INR (List.length buffer))
  end.

Definition smoothValue (currentValue targetValue smoothingCoefficient : R) : R :=
  currentValue + (targetValue - currentValue) * smoothingCoefficient.

Definition calculateCents (frequency referenceFrequency : R) : R :=
  1200 * Math_log2 (frequency / referenceFrequency).

Definition applyCents (frequency cents : R) : R :=
  frequency * Math_pow 2 (cents / 1200).

Definition toMusicalScale (value : R) (fromRange toRange : R * R) : R :=
  let '(fromMin, fromMax) := fromRange in
  let '(toMin, toMax) := toRange in
  let normalized := (value - fromMin) / (fromMax - fromMin) in
  let musical := Math_pow normalized (12 / 10) in
  toMin + musical * (toMax - toMin).

Definition fromMusicalScale (value : R) (fromRange toRange : R * R) : R :=
  let '(fromMin, fromMax) := fromRange in
  let '(toMin, toMax) := toRange in
  let normalized := (value - fromMin) / (fromMax - fromMin) in
  let inverseMusical := Math_pow normalized (1 / (12 / 10)) in
  toMin + inverseMusical * (toMax - toMin).

Definition roundToStep (value step : R) : R := Math_round (value / step) * step.

(** [threshold] defaults to [0.001]. *)
Definition snapToZero (value threshold : R) : R :=
  if Rlt_dec (Rabs value) threshold then 0 else value.

(** [`${a}${b}`] with a possibly undefined name, and the decimal text of an
    integer. *)
Definition display (name : option string) : string :=
  match name with Some s => s | None => "undefined"%string end.

Definition Number_toString (z : Z) : string :=
  DecimalString.NilZero.string_of_int (Z.to_int z).

(** [frequencyToNoteName]; [MIDI.NOTE_NAMES] is the list [noteNames]. *)
Definition frequencyToNoteName (frequency : R) : string :=
  let midiNote := Int_part (frequencyToMidiNote frequency) in
  let octave := (midiNote / 12 - 1)%Z in
  let noteIndex := Z.rem midiNote 12 in
  (display (element noteNames noteIndex) ++ Number_toString octave)%string.

End SignalScaling.

(** ** The knob mapping utilities *)

Module KnobMapping.
Import JSMath.
Local Open Scope R_scope.

Definition geb (x y : R) : bool := if Rge_dec x y then true else false.
Definition leb (x y : R) : bool := if Rle_dec x y then true else false.

(** The loop the four functions share: over the adjacent pairs of stops
    [a], [b], the first with [a.x <= x <= b.x] gives the value interpolated
    between [a.y] and [b.y]; [None] when the loop runs out. *)
Fixpoint interpolate (stops : list (R * R)) (x : R) : option R :=
  match stops with
  | a :: (b :: _) as rest =>
      if geb x (fst a) && leb x (fst b) then
        let t := (x - fst a) / (fst b - fst a) in
        Some (snd a + t * (snd b - snd a))
      else interpolate rest x
  | _ => None
  end.

(** [ENVELOPE_MAPPING.ATTACK_DECAY_STOPS], as pairs [(pos, value)]. *)
Definition attackDecayStops : list (R * R) :=
  [(0, 0); (1000, 10); (2000, 200); (4000, 600); (6000, 1000); (8000, 5000);
   (10000, 10000)].

Definition flip (p : R * R) : R * R := (snd p, fst p).

(** The stops of [msToEnvelopeRange], as pairs [(ms, range)]; those of
    [envelopeRangeToMs] are the same pairs the other way round. *)
Definition msStops : list (R * R) :=
  [(0, 0); (10, 1); (200, 3); (600, 5); (1000, 6); (5000, 8); (10000, 10)].

Definition rangeStops : list (R * R) :=
  [(0, 0); (1, 10); (3, 200); (5, 600); (6, 1000); (8, 5000); (10, 10000)].

Definition msToEnvelopeRange (ms : R) : R :=
  if leb ms 0 then 0
  else if geb ms 10000 then 10
  else match interpolate msStops ms with
       | Some range => range
       | None => 10
       end.

Definition envelopeRangeToMs (range : R) : R :=
  if leb range 0 then 0
  else if geb range 10 then 10000
  else match interpolate rangeStops range with
       | Some ms => ms
       | None => 10000
       end.

(** [knobPosToValue] and [valueToKnobPos]; [None] is the [TypeError] that
    reading a field of [stops[0]] or [stops[stops.length - 1]] throws for
    an empty array of stops. *)
Definition knobPosToValue (pos : R) (stops : list (R * R)) : option R :=
  match stops with
  | [] => None
  | first :: _ =>
      let final := List.last stops first in
      if leb pos (fst first) then Some (msToEnvelopeRange (snd first))
      else if geb pos (fst final) then Some (msToEnvelopeRange (snd final))
      else match interpolate stops pos with
           | Some msValue => Some (msToEnvelopeRange msValue)
           | None => Some (msToEnvelopeRange (snd final))
           end
  end.

Definition valueToKnobPos (value : R) (stops : list (R * R)) : option R :=
  let msValue := envelopeRangeToMs value in
  match interpolate (map flip stops) msValue with
  | Some pos => Some pos
  | None =>
      match stops with
      | [] => None
      | first :: _ => Some (fst (List.last stops first))
      end
  end.

End KnobMapping.

(** ** A query whose numbers need clamping and defaulting *)

Module CodecScenarios.
Import Floats JSNumber SynthTypes UrlUtils CodecSpec.
Local Open Scope string_scope.

Definition clampedQuery : string := "filter_cutoff=10&filter_emphasis=NaN".

Definition clampedOverlay : Partial.t :=
  match @loadStateFromURL sampleCodec clampedQuery with
  | Some st => st
  | None => Partial.empty
  end.

End CodecScenarios.

(** ** Binary64: the functions of [utils/midiUtils.ts] and
    [utils/frequencyUtils.ts] whose results depend on rounding, overflow
    and NaN, on the numbers the engine computes with

    Arithmetic and comparisons are those of binary64.  [Math.round],
    [Math.sqrt], [Math.max], [Math.min] and the conversion of an integer to
    a number are defined exactly; [Math.pow] and [Math.log], whose last
    digit the language leaves to the engine, are parameters. *)

Module Binary64.
Import Floats JSNumber JSString.
Local Open Scope float_scope.

Class HostMath : Type := {
  Math_pow : float -> float -> float;
  Math_log : float -> float
}.

(** The number nearest to an integer (ties to even). *)
Definition ofInteger (z : Z) : float :=
  SF2Prim (binary_normalize prec emax z 0 false).

(** [Math.round(x)]: the integer nearest to [x], a tie going up; an
    argument in [[-0.5, 0)] gives [-0]. *)
Definition Math_round (x : float) : float :=
  match Prim2SF x with
  | S754_finite s m e =>
      if (0 <=? e)%Z then x
      else
        let d := (2 ^ (- e))%Z in
        let q := (Z.pos m / d)%Z in
        let r := (Z.pos m mod d)%Z in
        let up := if s then (d <? 2 * r)%Z else (d <=? 2 * r)%Z in
        let n := ofInteger (if up then q + 1 else q) in
        if s then - n else n
  | _ => x
  end.

Definition Math_sqrt (x : float) : float := PrimFloat.sqrt x.

(** [parseInt] on a string of decimal digits; the empty string gives NaN. *)
Definition parseInt (digits : string) : float :=
  match parseIntDigits digits with
  | Some z => ofInteger z
  | None => nan
  end.

(** *** [utils/midiUtils.ts] *)

Definition noteNameToMidiNote (noteName : string) : float :=
  ofInteger (MidiUtils.noteNameToMidiNote noteName).

(** [MIDI.A4_FREQUENCY] is 440 and [MIDI.A4_MIDI_NOTE] is 69. *)
Definition midiNoteToFrequency `{HostMath} (midiNote : float) : float :=
  440 * Math_pow 2 ((midiNote - 69) / 12).

Definition noteToMidiNote (note : string) : float :=
  let noteName := removeDigits note in
  let octave := parseInt (keepDigits note) in
  let noteNumber := noteNameToMidiNote noteName in
  noteNumber + (octave + 1) * 12.

Definition noteToFrequency `{HostMath} (note : string) : float :=
  midiNoteToFrequency (noteToMidiNote note).

Definition controlToValue `{HostMath} (control : float) (range : float * float)
    (curve : MidiUtils.Curve) : float :=
  let normalized := control / 127 in
  let '(min, max) := range in
  match curve with
  | MidiUtils.Exponential => min + (max - min) * Math_pow normalized 2
  | MidiUtils.Logarithmic =>
      min + ((max - min) * Math_log (1 + normalized * 9)) / Math_log 10
  | MidiUtils.Linear => min + (max - min) * normalized
  end.

Definition valueToControl `{HostMath} (value : float) (range : float * float)
    (curve : MidiUtils.Curve) : float :=
  let '(min, max) := range in
  let normalized := (value - min) / (max - min) in
  let result :=
    match curve with
    | MidiUtils.Exponential => Math_sqrt normalized
    | MidiUtils.Logarithmic => (Math_pow 10 normalized - 1) / 9
    | MidiUtils.Linear => normalized
    end in
  Math_round (result * 127).

(** *** [utils/frequencyUtils.ts] *)

Definition clamp (v min max : float) : float := Math_max min (Math_min max v).


End Binary64.

(** ** Definitions used to state the properties of [calculateFrequency] *)

Module FrequencySpec.
Import Floats JSNumber Binary64.
Local Open Scope float_scope.


(** *** A fragment of the host's [Math.pow]

    Powers of two: the exponents of the examples, where the result is exact,
    and every exponent at or below -1075, where [2^y] is less than half the
    smallest positive number and rounds to [0].  Any other argument gives
    NaN here. *)
Definition samplePowers : list (float * float) :=
  [ (0, 1); (1, 2); (-1, 0.5); (2, 4); (1015, Z.ldexp 1 1015) ].

Fixpoint lookupPower (table : list (float * float)) (y : float) : float :=
  match table with
  | [] => nan
  | (k, v) :: r => if k =? y then v else lookupPower r y
  end.

Definition samplePow (x y : float) : float :=
  if x =? 2 then (if y <=? -1075 then 0 else lookupPower samplePowers y)
  else nan.

Definition sampleHost : HostMath :=
  {| Math_pow := samplePow; Math_log := fun _ => nan |}.

End FrequencySpec.

(** ** A state with a field that is not a number *)

Module NaNScenario.
Import Floats JSNumber SynthTypes UrlUtils CodecSpec.



End NaNScenario.

(* ------------------------------------------------------------------ *)
(** ** The switches and enumerated fields of a state

    The fields of a state that are not numbers, listed in the order
    [saveStateToURL] writes them, and the same fields of a decoded overlay. *)

Module SwitchSpec.
Import SynthTypes.

(** The twenty boolean fields of a state. *)
Definition switchesOf (state : SynthState) : list bool :=
  [ OscillatorState.enabled (oscillator1 state);
    OscillatorState.enabled (oscillator2 state);
    OscillatorState.enabled (oscillator3 state);
    MixerSourceState.enabled (MixerState.osc1 (mixer state));
    MixerSourceState.enabled (MixerState.osc2 (mixer state));
    MixerSourceState.enabled (MixerState.osc3 (mixer state));
    MixerNoiseState.enabled (MixerState.noise (mixer state));
    MixerSourceState.enabled (MixerState.external (mixer state));
    filterModulationOn state;
    oscillatorModulationOn state;
    glideOn state;
    isMainActive state;
    keyboardControl1 state;
    keyboardControl2 state;
    osc3Control state;
    osc3FilterEgSwitch state;
    noiseLfoSwitch state;
    decaySwitchOn state;
    tunerOn state;
    AuxOutput.enabled (auxOutput state) ].

(** The same fields of an overlay; [None] is a field that is not there. *)
Definition loadedSwitches (st : Partial.t) : list (option bool) :=
  let ofMixer (f : LoadedMixer.t -> bool) := option_map f (Partial.mixer st) in
  [ option_map LoadedOscillator.enabled (Partial.oscillator1 st);
    option_map LoadedOscillator.enabled (Partial.oscillator2 st);
    option_map LoadedOscillator.enabled (Partial.oscillator3 st);
    ofMixer (fun m => MixerSourceState.enabled (LoadedMixer.osc1 m));
    ofMixer (fun m => MixerSourceState.enabled (LoadedMixer.osc2 m));
    ofMixer (fun m => MixerSourceState.enabled (LoadedMixer.osc3 m));
    ofMixer (fun m => LoadedNoise.enabled (LoadedMixer.noise m));
    ofMixer (fun m => MixerSourceState.enabled (LoadedMixer.external m));
    Partial.filterModulationOn st;
    Partial.oscillatorModulationOn st;
    Partial.glideOn st;
    Partial.isMainActive st;
    Partial.keyboardControl1 st;
    Partial.keyboardControl2 st;
    Partial.osc3Control st;
    Partial.osc3FilterEgSwitch st;
    Partial.noiseLfoSwitch st;
    Partial.decaySwitchOn st;
    Partial.tunerOn st;
    option_map AuxOutput.enabled (Partial.auxOutput st) ].

(** The eight enumerated fields of a state, as the strings they are at run
    time. *)
Definition tagsOf (state : SynthState) : list string :=
  [ waveformTag (OscillatorState.waveform (oscillator1 state));
    rangeTag (OscillatorState.range (oscillator1 state));
    waveformTag (OscillatorState.waveform (oscillator2 state));
    rangeTag (OscillatorState.range (oscillator2 state));
    waveformTag (OscillatorState.waveform (oscillator3 state));
    rangeTag (OscillatorState.range (oscillator3 state));
    noiseTag (MixerNoiseState.noiseType (MixerState.noise (mixer state)));
    lfoTag (lfoWaveform state) ].

(** The same fields of an overlay; [None] is a field that is not there or
    is [null]. *)
Definition loadedTags (st : Partial.t) : list (option string) :=
  let ofOscillator (f : LoadedOscillator.t -> option string)
        (o : option LoadedOscillator.t) :=
    match o with Some osc => f osc | None => None end in
  [ ofOscillator LoadedOscillator.waveform (Partial.oscillator1 st);
    ofOscillator LoadedOscillator.range (Partial.oscillator1 st);
    ofOscillator LoadedOscillator.waveform (Partial.oscillator2 st);
    ofOscillator LoadedOscillator.range (Partial.oscillator2 st);
    ofOscillator LoadedOscillator.waveform (Partial.oscillator3 st);
    ofOscillator LoadedOscillator.range (Partial.oscillator3 st);
    option_map (fun m => LoadedNoise.noiseType (LoadedMixer.noise m))
      (Partial.mixer st);
    Partial.lfoWaveform st ].

End SwitchSpec.

(* ================================================================== *)
(** * Part II: properties                                              *)
(* ================================================================== *)

(** ** Facts about the [Math] model *)

Section MathFacts.
Import JSMath.
Local Open Scope R_scope.

Lemma Int_part_IZR (z : Z) : Int_part (IZR z) = z.
Proof. symmetry. apply Int_part_spec. lra. Qed.

Lemma Math_round_IZR (z : Z) : Math_round (IZR z) = IZR z.
Proof.
  unfold Math_round. f_equal. symmetry. apply Int_part_spec. lra.
Qed.

Lemma Math_round_near (x : R) (z : Z) :
  IZR z - / 2 <= x < IZR z + / 2 -> Math_round x = IZR z.
Proof.
  intros H. unfold Math_round. f_equal. symmetry. apply Int_part_spec. lra.
Qed.

Lemma Math_pow_pos (x y : R) : 0 < x -> Math_pow x y = Rpower x y.
Proof.
  intros Hx. unfold Math_pow.
  destruct (Req_dec_T y (IZR (Int_part y))) as [e | _].
  - rewrite e at 2. apply powerRZ_Rpower. exact Hx.
  - destruct (Rlt_dec 0 x); [reflexivity | contradiction].
Qed.

Lemma Math_pow_0_r (x : R) : Math_pow x 0 = 1.
Proof.
  unfold Math_pow. change 0 with (IZR 0) at 1 2 3. rewrite Int_part_IZR.
  destruct (Req_dec_T (IZR 0) (IZR 0)); [reflexivity | contradiction].
Qed.

Lemma Math_pow_2 (x : R) : Math_pow x 2 = x * x.
Proof.
  unfold Math_pow. change 2 with (IZR 2) at 1 2 3. rewrite Int_part_IZR.
  destruct (Req_dec_T (IZR 2) (IZR 2)); [simpl; lra | contradiction].
Qed.

End MathFacts.

(** ** Unit conversion and curve mapping *)

Section MidiFacts.
Import JSMath MidiUtils MappingSpec.
Local Open Scope R_scope.

Lemma ln2_pos : 0 < ln 2.
Proof. rewrite <- ln_1. apply ln_increasing; lra. Qed.

Lemma ln10_pos : 0 < ln 10.
Proof. rewrite <- ln_1. apply ln_increasing; lra. Qed.

Lemma midiNoteToFrequency_Rpower (n : R) :
  midiNoteToFrequency n = 440 * Rpower 2 ((n - 69) / 12).
Proof.
  unfold midiNoteToFrequency, MIDI.A4_FREQUENCY, MIDI.A4_MIDI_NOTE.
  rewrite Math_pow_pos by lra. reflexivity.
Qed.

Lemma midiNoteToFrequency_pos (n : R) : 0 < midiNoteToFrequency n.
Proof.
  rewrite midiNoteToFrequency_Rpower.
  apply Rmult_lt_0_compat; [lra | apply exp_pos].
Qed.

Lemma midiNoteToFrequency_A4 : midiNoteToFrequency 69 = 440.
Proof.
  rewrite midiNoteToFrequency_Rpower.
  replace ((69 - 69) / 12) with 0 by field.
  rewrite Rpower_O by lra. lra.
Qed.

Lemma log2_frequency_ratio (n : R) :
  Math_log2 (midiNoteToFrequency n / MIDI.A4_FREQUENCY) = (n - 69) / 12.
Proof.
  unfold Math_log2. rewrite midiNoteToFrequency_Rpower.
  unfold MIDI.A4_FREQUENCY.
  replace (440 * Rpower 2 ((n - 69) / 12) / 440)
    with (Rpower 2 ((n - 69) / 12)) by field.
  unfold Rpower. rewrite ln_exp. field.
  pose proof ln2_pos. lra.
Qed.

(** C2. For every integer MIDI note [n] in [0,127], converting the note to
    its frequency [440 * 2^((n-69)/12)] and back with
    [frequencyToMidiNote] gives [n] again. *)
Theorem C2_note_frequency_round_trip (n : Z) :
  (0 <= n <= 127)%Z ->
  midiNoteToFrequency (IZR n) = 440 * Rpower 2 ((IZR n - 69) / 12) /\
  frequencyToMidiNote (midiNoteToFrequency (IZR n)) = IZR n.
Proof.
  intros _. split; [apply midiNoteToFrequency_Rpower |].
  unfold frequencyToMidiNote. rewrite log2_frequency_ratio.
  unfold MIDI.A4_MIDI_NOTE.
  replace (12 * ((IZR n - 69) / 12) + 69) with (IZR n) by field.
  apply Math_round_IZR.
Qed.

Lemma C2_note_frequency_round_trip_witness :
  midiNoteToFrequency (IZR 69) = 440 * Rpower 2 ((IZR 69 - 69) / 12) /\
  frequencyToMidiNote (midiNoteToFrequency (IZR 69)) = IZR 69.
Proof. apply (C2_note_frequency_round_trip 69). lia. Defined.

(** *** Pitch bend *)

Lemma pitchBendToValue_formula (b : R) :
  pitchBendToValue b = 2 * (b - 8192) / 8192.
Proof. unfold pitchBendToValue. field. Qed.

Lemma valueToPitchBend_pitchBendToValue (z : Z) :
  valueToPitchBend (pitchBendToValue (IZR z)) = IZR z.
Proof.
  unfold valueToPitchBend, pitchBendToValue.
  replace (((IZR z - 8192) / 8192 * 2 / 2 + 1) * 8192) with (IZR z) by field.
  apply Math_round_IZR.
Qed.

(** C6, as stated, fails: the centre of [pitchBendToValue] is 8192, not
    8191.5.  Bend 16383 does not reach +2 and bend 8191.5 does not give 0. *)
Lemma C6_pitch_bend_counterexample :
  0 <= 16383 <= 16383 /\
  pitchBendToValue 16383 <> 2 * (16383 - 81915 / 10) / (81915 / 10) /\
  pitchBendToValue 16383 <> 2 /\
  pitchBendToValue (81915 / 10) <> 0.
Proof.
  rewrite !pitchBendToValue_formula.
  repeat split; try lra; intros H; lra.
Qed.

(** C6, amended. [pitchBendToValue] maps the 14-bit range through centre
    8192: for every bend [b] in [0,16383] the result is
    [2*(b-8192)/8192], in [-2, 2); bend 0 gives -2, bend 8192 gives 0 and
    bend 16383 gives [2*8191/8192]; [valueToPitchBend] inverts it at every
    integer bend. *)
Theorem C6_pitch_bend_centre_8192 (b : R) (z : Z) :
  0 <= b <= 16383 -> (0 <= z <= 16383)%Z ->
  pitchBendToValue b = 2 * (b - 8192) / 8192 /\
  -2 <= pitchBendToValue b < 2 /\
  pitchBendToValue 0 = -2 /\
  pitchBendToValue 8192 = 0 /\
  pitchBendToValue 16383 = 2 * 8191 / 8192 /\
  valueToPitchBend (pitchBendToValue (IZR z)) = IZR z.
Proof.
  intros Hb _. rewrite !pitchBendToValue_formula.
  repeat split; try lra.
  rewrite <- pitchBendToValue_formula.
  apply valueToPitchBend_pitchBendToValue.
Qed.

Lemma C6_pitch_bend_centre_8192_witness :
  pitchBendToValue 4096 = 2 * (4096 - 8192) / 8192 /\
  -2 <= pitchBendToValue 4096 < 2 /\
  pitchBendToValue 0 = -2 /\
  pitchBendToValue 8192 = 0 /\
  pitchBendToValue 16383 = 2 * 8191 / 8192 /\
  valueToPitchBend (pitchBendToValue (IZR 4096)) = IZR 4096.
Proof.
  apply (C6_pitch_bend_centre_8192 4096 4096); [lra | lia].
Defined.

(** The sibling pair of the signal-processing utilities is the one centred
    on 8191.5. *)
Lemma pitchBendToSemitones_formula (b : R) :
  SignalUtils.pitchBendToSemitones b = 2 * (b - 81915 / 10) / (81915 / 10) /\
  SignalUtils.pitchBendToSemitones 0 = -2 /\
  SignalUtils.pitchBendToSemitones 16383 = 2.
Proof.
  unfold SignalUtils.pitchBendToSemitones, SignalUtils.CENTER_PITCH_BEND.
  repeat split; field.
Qed.

(** *** Control curves *)

Lemma valueToControl_controlToValue (c : Z) (lo hi : R) (curve : Curve) :
  (0 <= c)%Z -> lo <> hi ->
  valueToControl (controlToValue (IZR c) (lo, hi) curve) (lo, hi) curve = IZR c.
Proof.
  intros Hc Hr. apply IZR_le in Hc.
  assert (Hd : hi - lo <> 0) by lra.
  unfold valueToControl, controlToValue.
  destruct curve.
  - replace ((lo + (hi - lo) * (IZR c / 127) - lo) / (hi - lo) * 127)
      with (IZR c) by (field; exact Hd).
    apply Math_round_IZR.
  - rewrite Math_pow_2.
    replace ((lo + (hi - lo) * (IZR c / 127 * (IZR c / 127)) - lo) / (hi - lo))
      with (IZR c / 127 * (IZR c / 127)) by (field; exact Hd).
    unfold Math_sqrt. rewrite sqrt_square by lra.
    replace (IZR c / 127 * 127) with (IZR c) by field.
    apply Math_round_IZR.
  - unfold Math_log. pose proof ln10_pos as H10.
    replace ((lo + (hi - lo) * ln (1 + IZR c / 127 * 9) / ln 10 - lo) / (hi - lo))
      with (ln (1 + IZR c / 127 * 9) / ln 10) by (field; lra).
    rewrite Math_pow_pos by lra. unfold Rpower.
    replace (ln (1 + IZR c / 127 * 9) / ln 10 * ln 10)
      with (ln (1 + IZR c / 127 * 9)) by (field; lra).
    rewrite exp_ln by lra.
    replace ((1 + IZR c / 127 * 9 - 1) / 9 * 127) with (IZR c) by field.
    apply Math_round_IZR.
Qed.

(** C7, as stated, fails: [valueToControl] rounds to an integer, so a
    control value that is not an integer does not come back.  Control value
    1/4 on the linear curve over the range [0,1] comes back as 0. *)
Lemma C7_curve_round_trip_counterexample :
  0 <= 1 / 4 <= 127 /\ (0 : R) <> 1 /\
  valueToControl (controlToValue (1 / 4) (0, 1) Linear) (0, 1) Linear = 0 /\
  Rabs (valueToControl (controlToValue (1 / 4) (0, 1) Linear) (0, 1) Linear
        - 1 / 4) > / 1000000000.
Proof.
  assert (E : valueToControl (controlToValue (1 / 4) (0, 1) Linear) (0, 1) Linear = 0).
  { unfold valueToControl, controlToValue.
    replace ((0 + (1 - 0) * (1 / 4 / 127) - 0) / (1 - 0) * 127) with (1 / 4)
      by field.
    apply (Math_round_near (1 / 4) 0). lra. }
  rewrite E. repeat split; try lra.
  replace (0 - 1 / 4) with (- (1 / 4)) by lra.
  rewrite Rabs_Ropp, Rabs_pos_eq; lra.
Qed.

(** C7, amended. For every integer control value in [0,127] and every
    target range whose span [|max - min|] lies between 1e-100 and 1e100 and
    whose lower end is at most a million spans from zero, [controlToValue]
    followed by [valueToControl] returns the control value: exactly, hence
    within 1e-9 on the linear curve and within 1e-6 on the exponential and
    logarithmic curves. *)
Theorem C7_curve_round_trip_integers (c : Z) (lo hi : R) (curve : Curve) :
  (0 <= c <= 127)%Z ->
  1e-100 <= Rabs (hi - lo) <= 1e100 ->
  Rabs lo <= 1000000 * Rabs (hi - lo) ->
  valueToControl (controlToValue (IZR c) (lo, hi) curve) (lo, hi) curve = IZR c /\
  Rabs (valueToControl (controlToValue (IZR c) (lo, hi) curve) (lo, hi) curve
        - IZR c) <= curveTolerance curve.
Proof.
  intros [Hc _] [Hspan _] _.
  assert (Hr : lo <> hi).
  { intros E. rewrite E, Rminus_diag, Rabs_R0 in Hspan. lra. }
  rewrite (valueToControl_controlToValue c lo hi curve Hc Hr).
  split; [reflexivity |].
  rewrite Rminus_diag, Rabs_R0. destruct curve; simpl; lra.
Qed.

Lemma C7_curve_round_trip_integers_witness :
  valueToControl (controlToValue (IZR 64) (20, 20000) Logarithmic)
    (20, 20000) Logarithmic = IZR 64 /\
  Rabs (valueToControl (controlToValue (IZR 64) (20, 20000) Logarithmic)
          (20, 20000) Logarithmic - IZR 64) <= curveTolerance Logarithmic.
Proof.
  apply (C7_curve_round_trip_integers 64 20 20000 Logarithmic);
    [lia | rewrite Rabs_pos_eq; lra | rewrite !Rabs_pos_eq; lra].
Defined.

End MidiFacts.

(** ** Filter cutoff mapping *)

Section CutoffFacts.
Import JSMath MidiUtils MappingSpec.
Local Open Scope R_scope.

Lemma Math_pow_0_l (y : R) : 0 < y -> Math_pow 0 y = 0.
Proof.
  intros Hy. unfold Math_pow.
  destruct (Req_dec_T y (IZR (Int_part y))) as [e | _].
  - destruct (Int_part y) as [| p | p]; simpl in *.
    + lra.
    + apply pow_i, Pos2Nat.is_pos.
    + pose proof (IZR_lt (Z.neg p) 0 (Pos2Z.neg_is_neg p)). lra.
  - destruct (Rlt_dec 0 0); [lra | reflexivity].
Qed.

Lemma clampCutoff_range (v : R) : -4 <= clampCutoff v <= 4.
Proof.
  unfold clampCutoff, Math_max, Math_min, Rmax, Rmin.
  destruct (Rle_dec 4 v), (Rle_dec (-4) _); lra.
Qed.

Lemma clampCutoff_id (v : R) : -4 <= v <= 4 -> clampCutoff v = v.
Proof.
  intros H. unfold clampCutoff, Math_max, Math_min, Rmax, Rmin.
  destruct (Rle_dec 4 v), (Rle_dec (-4) _); lra.
Qed.

Lemma mapCutoff_unfold (v : R) :
  mapCutoff v =
  Rmax 20 (Rmin 3000
    (20 * Math_pow 150 (Math_pow ((clampCutoff v + 4) / 8) (12 / 10)))).
Proof.
  unfold mapCutoff, FILTER_MAPPING.CUTOFF.MIN_FREQ,
    FILTER_MAPPING.CUTOFF.MUSICAL_CURVE_POWER,
    SYNTH_PARAMS.FILTER.CUTOFF.MIN, SYNTH_PARAMS.FILTER.CUTOFF.MAX,
    Math_max, Math_min, clampCutoff, Math_max, Math_min.
  replace (3000 / 20) with 150 by field. reflexivity.
Qed.

Lemma mapCutoff_clamped (v : R) : mapCutoff v = mapCutoff (clampCutoff v).
Proof.
  rewrite !mapCutoff_unfold.
  rewrite (clampCutoff_id (clampCutoff v)) by apply clampCutoff_range.
  reflexivity.
Qed.

Lemma mapCutoff_range (v : R) : 20 <= mapCutoff v <= 3000.
Proof.
  rewrite mapCutoff_unfold. unfold Rmax, Rmin.
  destruct (Rle_dec 3000 _), (Rle_dec 20 _); lra.
Qed.

Lemma mapCutoff_low : mapCutoff (-4) = 20.
Proof.
  rewrite mapCutoff_unfold, clampCutoff_id by lra.
  replace ((-4 + 4) / 8) with 0 by field.
  rewrite Math_pow_0_l by lra. rewrite Math_pow_0_r.
  unfold Rmax, Rmin. destruct (Rle_dec 3000 _), (Rle_dec 20 _); lra.
Qed.

Lemma mapCutoff_high : mapCutoff 4 = 3000.
Proof.
  rewrite mapCutoff_unfold, clampCutoff_id by lra.
  replace ((4 + 4) / 8) with 1 by field.
  rewrite (Math_pow_pos 1) by lra.
  unfold Rpower at 1. rewrite ln_1, Rmult_0_r, exp_0.
  rewrite Math_pow_pos, Rpower_1 by lra.
  unfold Rmax, Rmin. destruct (Rle_dec 3000 _), (Rle_dec 20 _); lra.
Qed.

Lemma mapCutoff_centre : 20 < mapCutoff 0 < 3000.
Proof.
  rewrite mapCutoff_unfold, clampCutoff_id by lra.
  replace ((0 + 4) / 8) with (/ 2) by field.
  rewrite (Math_pow_pos (/ 2)) by lra.
  set (p := Rpower (/ 2) (12 / 10)).
  assert (Hp : 0 < p < 1).
  { unfold p, Rpower. split; [apply exp_pos |].
    assert (Hl : ln (/ 2) < 0).
    { rewrite ln_Rinv by lra. pose proof ln2_pos. lra. }
    assert (He : 12 / 10 * ln (/ 2) < 0) by nra.
    apply exp_increasing in He. rewrite exp_0 in He. exact He. }
  rewrite Math_pow_pos by lra.
  assert (H150 : 0 < ln 150).
  { rewrite <- ln_1. apply ln_increasing; lra. }
  assert (Hq : 1 < Rpower 150 p < 150).
  { unfold Rpower. split.
    - assert (He : 0 < p * ln 150) by nra.
      apply exp_increasing in He. rewrite exp_0 in He. exact He.
    - assert (He : p * ln 150 < ln 150) by nra.
      apply exp_increasing in He. rewrite (exp_ln 150) in He by lra. exact He. }
  unfold Rmax, Rmin. destruct (Rle_dec 3000 _), (Rle_dec 20 _); lra.
Qed.

(** C1, as stated, fails at the centre of the knob: value 0 is the middle of
    the [-4,4] travel and maps strictly above 20 Hz. *)
Lemma C1_cutoff_centre_counterexample : mapCutoff 0 <> 20.
Proof. pose proof mapCutoff_centre. lra. Qed.

(** C1, amended. [mapCutoff] maps knob value -4 to 20 Hz and knob value 4 to
    the 3000 Hz cap; knob value 0 maps strictly between the two; the input
    is clamped to [-4,4] before the curve, so everything at or below -4 maps
    to 20 Hz and everything at or above 4 to 3000 Hz; and the result is
    re-clamped to [20 Hz, 3000 Hz] after the power computation. *)
Theorem C1_cutoff_mapping (v : R) :
  mapCutoff (-4) = 20 /\
  mapCutoff 4 = 3000 /\
  20 < mapCutoff 0 < 3000 /\
  mapCutoff v = mapCutoff (Rmax (-4) (Rmin 4 v)) /\
  mapCutoff (Rmin v (-4)) = 20 /\
  mapCutoff (Rmax v 4) = 3000 /\
  20 <= mapCutoff v <= 3000 /\
  mapCutoff v =
    Rmax 20 (Rmin 3000
      (20 * Math_pow 150 (Math_pow ((Rmax (-4) (Rmin 4 v) + 4) / 8) (12 / 10)))).
Proof.
  split; [apply mapCutoff_low |].
  split; [apply mapCutoff_high |].
  split; [apply mapCutoff_centre |].
  split; [apply mapCutoff_clamped |].
  split.
  { rewrite mapCutoff_clamped.
    replace (clampCutoff (Rmin v (-4))) with (-4); [apply mapCutoff_low |].
    unfold clampCutoff, Math_max, Math_min, Rmax, Rmin.
    destruct (Rle_dec v (-4)), (Rle_dec 4 _), (Rle_dec (-4) _); lra. }
  split.
  { rewrite mapCutoff_clamped.
    replace (clampCutoff (Rmax v 4)) with 4; [apply mapCutoff_high |].
    unfold clampCutoff, Math_max, Math_min, Rmax, Rmin.
    destruct (Rle_dec v 4), (Rle_dec 4 _), (Rle_dec (-4) _); lra. }
  split; [apply mapCutoff_range | apply mapCutoff_unfold].
Qed.

End CutoffFacts.

(** ** Note parsing *)

Section NoteParsingFacts.
Import JSMath MidiUtils.

Example noteToMidiNote_A4 : noteToMidiNote "A4" = Some 69%Z.
Proof. reflexivity. Qed.

Example noteToMidiNote_Csharp3 : noteToMidiNote "c#3" = Some 49%Z.
Proof. reflexivity. Qed.

Example noteToMidiNote_no_octave : noteToMidiNote "A" = None.
Proof. reflexivity. Qed.

End NoteParsingFacts.

(** ** Envelope scheduling *)

Section EnvelopeFacts.
Import Floats EnvelopeUtils.
Local Open Scope float_scope.

(** Binary64 addition is not associative; the decay ramp ends at
    [(now + attackTime) + decayTime], as the source writes it. *)
Example scheduleEnvelopeAttack_times :
  scheduleEnvelopeAttack []
    {| Attack.start := 0; Attack.peak := 1; Attack.sustain := 0.5;
       Attack.attackTime := 0.2; Attack.decayTime := 0.3; Attack.now := 0.1 |}
  = [cancelScheduledValues 0.1; setValueAtTime 0 0.1;
     linearRampToValueAtTime 1 0.30000000000000004;
     linearRampToValueAtTime 0.5 0.6000000000000001]
  /\ 0.1 + (0.2 + 0.3) = 0.6.
Proof. split; vm_compute; reflexivity. Qed.

(** C4. [scheduleEnvelopeAttack] issues against its parameter exactly
    [cancelScheduledValues(now)], [setValueAtTime(start, now)],
    [linearRampToValueAtTime(peak, now+attackTime)],
    [linearRampToValueAtTime(sustain, now+attackTime+decayTime)], in this
    order, after whatever the parameter had received before; and
    [scheduleEnvelopeRelease] issues exactly [cancelScheduledValues(now)],
    [setValueAtTime(from, now)],
    [linearRampToValueAtTime(to, now+releaseTime)], in this order. *)
Theorem C4_envelope_call_order
    (param : AudioParam)
    (start peak sustain attackTime decayTime from to releaseTime now : float) :
  scheduleEnvelopeAttack param
    {| Attack.start := start; Attack.peak := peak; Attack.sustain := sustain;
       Attack.attackTime := attackTime; Attack.decayTime := decayTime;
       Attack.now := now |}
  = param ++
    [cancelScheduledValues now;
     setValueAtTime start now;
     linearRampToValueAtTime peak (now + attackTime);
     linearRampToValueAtTime sustain (now + attackTime + decayTime)]
  /\
  scheduleEnvelopeRelease param
    {| Release.from := from; Release.to := to;
       Release.releaseTime := releaseTime; Release.now := now |}
  = param ++
    [cancelScheduledValues now;
     setValueAtTime from now;
     linearRampToValueAtTime to (now + releaseTime)].
Proof.
  unfold scheduleEnvelopeAttack, scheduleEnvelopeRelease, invoke; simpl.
  rewrite <- !app_assoc. simpl. split; reflexivity.
Qed.

End EnvelopeFacts.

(** ** Node pool *)

Section PoolFacts.
Import NodePoolingUtils.
Local Open Scope Z_scope.

(** *** The map *)

Lemma Map_get_None (k : AudioNode) (m : NodeMap) :
  Map_get k m = None <-> ~ In k (map fst m).
Proof.
  induction m as [| [k' v] r IH]; simpl.
  - tauto.
  - destruct (AudioNode_eq_dec k' k) as [e | ne].
    + split; [discriminate | intros H; exfalso; apply H; now left].
    + rewrite IH. tauto.
Qed.

Lemma Map_get_app (k : AudioNode) (pre : NodeMap) (v : PooledNode) (post : NodeMap) :
  ~ In k (map fst pre) -> Map_get k (pre ++ (k, v) :: post) = Some v.
Proof.
  induction pre as [| [k' v'] r IH]; simpl; intros H.
  - destruct (AudioNode_eq_dec k k); [reflexivity | contradiction].
  - destruct (AudioNode_eq_dec k' k) as [e | ne]; [tauto | apply IH; tauto].
Qed.

Lemma Map_mutate_app (k : AudioNode) (f : PooledNode -> PooledNode)
    (pre : NodeMap) (v : PooledNode) (post : NodeMap) :
  ~ In k (map fst pre) ->
  Map_mutate k f (pre ++ (k, v) :: post) = pre ++ (k, f v) :: post.
Proof.
  induction pre as [| [k' v'] r IH]; simpl; intros H.
  - destruct (AudioNode_eq_dec k k); [reflexivity | contradiction].
  - destruct (AudioNode_eq_dec k' k) as [e | ne]; [tauto |].
    f_equal. apply IH. tauto.
Qed.

Lemma Map_mutate_keys (k : AudioNode) (f : PooledNode -> PooledNode) (m : NodeMap) :
  map fst (Map_mutate k f m) = map fst m.
Proof.
  induction m as [| [k' v'] r IH]; simpl; [reflexivity |].
  destruct (AudioNode_eq_dec k' k); simpl; [reflexivity | now rewrite IH].
Qed.

Lemma Map_set_fresh (k : AudioNode) (v : PooledNode) (m : NodeMap) :
  ~ In k (map fst m) -> Map_set k v m = m ++ [(k, v)].
Proof.
  induction m as [| [k' v'] r IH]; simpl; intros H; [reflexivity |].
  destruct (AudioNode_eq_dec k' k) as [e | ne]; [tauto |].
  f_equal. apply IH. tauto.
Qed.

Lemma Map_set_keys (k : AudioNode) (v : PooledNode) (m : NodeMap) :
  In k (map fst m) -> map fst (Map_set k v m) = map fst m.
Proof.
  induction m as [| [k' v'] r IH]; simpl; intros H; [contradiction |].
  destruct (AudioNode_eq_dec k' k) as [e | ne]; simpl; [reflexivity |].
  f_equal. apply IH. destruct H; [contradiction | assumption].
Qed.

Lemma Map_delete_incl (k x : AudioNode) (m : NodeMap) :
  In x (map fst (Map_delete k m)) -> In x (map fst m).
Proof.
  induction m as [| [k' v'] r IH]; simpl; [tauto |].
  destruct (AudioNode_eq_dec k' k); simpl; tauto.
Qed.

Lemma Map_delete_NoDup (k : AudioNode) (m : NodeMap) :
  NoDup (map fst m) -> NoDup (map fst (Map_delete k m)).
Proof.
  induction m as [| [k' v'] r IH]; simpl; intros H; [constructor |].
  inversion H as [| ? ? Hn Hd]; subst.
  destruct (AudioNode_eq_dec k' k); simpl; [assumption |].
  constructor; [| apply IH; assumption].
  intros Hin. apply Hn. eapply Map_delete_incl; eassumption.
Qed.

(** *** The reuse scan *)

Lemma reuseFirst_keys (ty : NodeType) (now : Z) (m : NodeMap) n m' :
  reuseFirst ty now m = Some (n, m') -> map fst m' = map fst m.
Proof.
  revert n m'. induction m as [| [k v] r IH]; simpl; intros n m' H.
  - discriminate.
  - destruct (available ty v).
    + injection H as <- <-. reflexivity.
    + destruct (reuseFirst ty now r) as [[found r'] |]; [| discriminate].
      injection H as <- <-. simpl. f_equal. eapply IH. reflexivity.
Qed.

Lemma reuseFirst_None (ty : NodeType) (now : Z) (m : NodeMap) :
  reuseFirst ty now m = None <->
  (forall k v, In (k, v) m -> available ty v = false).
Proof.
  induction m as [| [k v] r IH]; simpl.
  - split; [intros _ ? ? [] | reflexivity].
  - destruct (available ty v) eqn:Ea.
    + split; [discriminate |].
      intros H. rewrite (H k v) in Ea by now left. discriminate.
    + destruct (reuseFirst ty now r) as [[found r'] |].
      * split; [discriminate |]. intros H. exfalso.
        assert (E : Some (found, r') = None)
          by (apply IH; intros k' v' Hin; apply (H k' v'); now right).
        discriminate E.
      * split; [| reflexivity]. intros _ k' v' [e | Hin].
        -- injection e as <- <-. exact Ea.
        -- destruct IH as [IH _]. eapply IH; [reflexivity | eassumption].
Qed.

Lemma reuseFirst_split (ty : NodeType) (now : Z) (m : NodeMap) n m' :
  reuseFirst ty now m = Some (n, m') ->
  exists pre v post,
    m = pre ++ (n, v) :: post /\
    m' = pre ++ (n, markActive now v) :: post /\
    available ty v = true /\
    (forall k x, In (k, x) pre -> available ty x = false).
Proof.
  revert n m'. induction m as [| [k v] r IH]; simpl; intros n m' H.
  - discriminate.
  - destruct (available ty v) eqn:Ea.
    + injection H as <- <-. exists [], v, r. simpl.
      repeat split; try assumption. intros ? ? [].
    + destruct (reuseFirst ty now r) as [[found r'] |] eqn:Er; [| discriminate].
      injection H as <- <-.
      destruct (IH _ _ eq_refl) as (pre & v0 & post & -> & -> & Hv & Hpre).
      exists ((k, v) :: pre), v0, post. simpl. repeat split; try assumption.
      intros k' x [e | Hin]; [injection e as <- <-; exact Ea | eauto].
Qed.

Lemma reuseFirst_app (ty : NodeType) (now : Z) (pre : NodeMap) n v (post : NodeMap) :
  (forall k x, In (k, x) pre -> available ty x = false) ->
  available ty v = true ->
  reuseFirst ty now (pre ++ (n, v) :: post)
  = Some (n, pre ++ (n, markActive now v) :: post).
Proof.
  intros Hpre Hv. induction pre as [| [k x] r IH]; simpl.
  - rewrite Hv. reflexivity.
  - rewrite (Hpre k x) by now left.
    rewrite IH; [reflexivity |]. intros k' x' Hin. apply (Hpre k' x'). now right.
Qed.

(** *** The bookkeeping invariant *)

Lemma resetNodeState_pool n ty ctx w :
  globalPool (resetNodeState n ty ctx w) = globalPool w /\
  nextNodeId (resetNodeState n ty ctx w) = nextNodeId w.
Proof.
  unfold resetNodeState.
  destruct ty; try (split; reflexivity);
    match goal with |- context [instanceof ?a ?b] => destruct (instanceof a b) end;
    split; reflexivity.
Qed.

Lemma wellFormed_setPool (p : EnhancedAudioNodePool) (w : World) :
  NoDup (map fst (nodes p)) ->
  Forall (fun k => (nodeId k < nextNodeId w)%nat) (map fst (nodes p)) ->
  wellFormed (setPool p w).
Proof. intros H1 H2. unfold wellFormed, setPool; simpl. split; assumption. Qed.

Lemma wellFormed_host (cs : list HostCall) (w : World) :
  wellFormed w -> wellFormed (host cs w).
Proof. unfold wellFormed, host; simpl. tauto. Qed.

Lemma wellFormed_ext (w w' : World) :
  globalPool w' = globalPool w -> (nextNodeId w <= nextNodeId w')%nat ->
  wellFormed w -> wellFormed w'.
Proof.
  unfold wellFormed. intros -> Hle. destruct (globalPool w); [| tauto].
  intros [H1 H2]. split; [assumption |].
  eapply Forall_impl; [| eassumption]. simpl. intros; lia.
Qed.

Lemma fresh_not_tracked (w : World) (pool : EnhancedAudioNodePool) c port :
  wellFormed w -> globalPool w = Some pool ->
  ~ In {| nodeId := nextNodeId w; nodeClass := c; hasClosablePort := port |}
       (map fst (nodes pool)).
Proof.
  unfold wellFormed. intros Hw Hp. rewrite Hp in Hw. destruct Hw as [_ Hf].
  intros Hin. rewrite Forall_forall in Hf. apply Hf in Hin. simpl in Hin. lia.
Qed.

Lemma disposeNode_wellFormed (n : AudioNode) (w : World) :
  wellFormed w -> wellFormed (disposeNode n w).
Proof.
  intros Hw. unfold disposeNode.
  destruct (globalPool w) as [pool |] eqn:Hp; [| assumption].
  apply wellFormed_host.
  destruct (Map_get n (nodes pool)); [| assumption].
  unfold wellFormed in Hw. rewrite Hp in Hw. destruct Hw as [Hd Hf].
  apply wellFormed_setPool; simpl.
  - apply Map_delete_NoDup. assumption.
  - rewrite Forall_forall in *. intros x Hx. apply Hf.
    eapply Map_delete_incl. eassumption.
Qed.

Lemma fold_left_wellFormed {A : Type} (f : World -> A -> World) (l : list A) :
  (forall w e, wellFormed w -> wellFormed (f w e)) ->
  forall w, wellFormed w -> wellFormed (fold_left f l w).
Proof.
  intros Hf. induction l as [| e r IH]; simpl; intros w Hw; [assumption |].
  apply IH, Hf, Hw.
Qed.

Lemma cleanupPool_wellFormed (now : Z) (w : World) :
  wellFormed w -> wellFormed (cleanupPool now w).
Proof.
  intros Hw. unfold cleanupPool. destruct (globalPool w) as [pool |]; [| assumption].
  apply fold_left_wellFormed; [| assumption].
  intros w' [n metadata] Hw'.
  destruct (negb (isActive metadata) && (60000 <? now - lastUsed metadata));
    [apply disposeNode_wellFormed |]; assumption.
Qed.

Lemma clearPool_wellFormed (w : World) : wellFormed w -> wellFormed (clearPool w).
Proof.
  intros Hw. unfold clearPool. destruct (globalPool w) as [pool |]; [| assumption].
  apply fold_left_wellFormed; [| assumption].
  intros w' e Hw'. apply disposeNode_wellFormed; assumption.
Qed.

Lemma createNewNode_spec ty ctx options w :
  exists cs,
    createNewNode ty ctx options w =
    ({| nodeId := nextNodeId w; nodeClass := Some ty; hasClosablePort := false |},
     {| globalPool := globalPool w; nextNodeId := S (nextNodeId w);
        hostCalls := hostCalls w ++ cs |}).
Proof. unfold createNewNode. eexists. reflexivity. Qed.

Lemma createNewNode_wellFormed ty ctx options w :
  wellFormed w -> wellFormed (snd (createNewNode ty ctx options w)).
Proof.
  intros Hw. destruct (createNewNode_spec ty ctx options w) as [cs ->]. simpl.
  eapply wellFormed_ext; [| | exact Hw]; simpl; [reflexivity | lia].
Qed.

Lemma getPooledNode_wellFormed ty ctx options now w :
  wellFormed w -> wellFormed (snd (getPooledNode ty ctx options now w)).
Proof.
  intros Hw. unfold getPooledNode.
  destruct (globalPool w) as [pool |] eqn:Hp;
    [| apply createNewNode_wellFormed; assumption].
  destruct (enablePooling (config pool)); cbn [negb];
    [| apply createNewNode_wellFormed; assumption].
  pose proof Hw as Hw'. unfold wellFormed in Hw'. rewrite Hp in Hw'.
  destruct Hw' as [Hd Hf].
  destruct (reuseFirst ty now (nodes pool)) as [[n nodes'] |] eqn:Er.
  - simpl. destruct (resetNodeState_pool n ty ctx
      (setPool (withStats (hit (stats pool)) (withNodes nodes' pool)) w)) as [E1 E2].
    eapply wellFormed_ext; [exact E1 | rewrite E2; apply Nat.le_refl |].
    apply wellFormed_setPool; simpl; rewrite (reuseFirst_keys _ _ _ _ _ Er);
      assumption.
  - destruct (createNewNode_spec ty ctx options
               (setPool (withStats (miss (stats pool)) pool) w)) as [cs ->].
    simpl.
    destruct (Map_size (nodes pool) <? maxPoolSize (config pool)); simpl.
    + rewrite Map_set_fresh by (eapply fresh_not_tracked; eassumption).
      unfold wellFormed; simpl. rewrite map_app; simpl. split.
      * apply NoDup_app.
        -- assumption.
        -- constructor; [intros [] | constructor].
        -- intros x Hx [e | []]; subst x.
           eapply fresh_not_tracked; eassumption.
      * apply Forall_app. split.
        -- eapply Forall_impl; [| exact Hf]. simpl. intros; lia.
        -- constructor; [simpl; lia | constructor].
    + unfold wellFormed; simpl. split; [assumption |].
      eapply Forall_impl; [| exact Hf]. simpl. intros; lia.
Qed.

Lemma releaseNode_wellFormed n now w :
  wellFormed w -> wellFormed (releaseNode n now w).
Proof.
  intros Hw. unfold releaseNode.
  destruct (globalPool w) as [pool |] eqn:Hp;
    [| apply disposeNode_wellFormed; assumption].
  destruct (enablePooling (config pool)); cbn [negb];
    [| apply disposeNode_wellFormed; assumption].
  destruct (Map_get n (nodes pool));
    [| apply disposeNode_wellFormed; assumption].
  apply wellFormed_host.
  unfold wellFormed in Hw. rewrite Hp in Hw.
  apply wellFormed_setPool; simpl; rewrite Map_mutate_keys; tauto.
Qed.

(** Every state the module can reach keeps the map's invariant. *)
Lemma reachable_wellFormed (w : World) : reachable w -> wellFormed w.
Proof.
  induction 1 as [| c w _ IH | ty ctx options now w _ IH | n now w _ IH
                  | n w _ IH | now w _ IH | w _ IH | w _ IH | c w _ IH
                  | c port w _ IH].
  - exact I.
  - unfold initializeNodePool.
    destruct (globalPool w) eqn:Hp; [exact IH |]. cbv zeta.
    destruct (enablePooling (mergeConfig DEFAULT_POOL_CONFIG c)); cbn [snd];
      [apply wellFormed_host |];
      apply wellFormed_setPool; simpl; constructor.
  - apply getPooledNode_wellFormed; assumption.
  - apply releaseNode_wellFormed; assumption.
  - apply disposeNode_wellFormed; assumption.
  - apply cleanupPool_wellFormed; assumption.
  - apply clearPool_wellFormed; assumption.
  - unfold resetPoolStats. destruct (globalPool w) as [pool |] eqn:Hp; [| exact IH].
    unfold wellFormed in IH. rewrite Hp in IH.
    apply wellFormed_setPool; simpl; tauto.
  - unfold updatePoolConfig. destruct (globalPool w) as [pool |] eqn:Hp; [| exact IH].
    unfold wellFormed in IH. rewrite Hp in IH.
    apply wellFormed_setPool; simpl; tauto.
  - simpl. eapply wellFormed_ext; [| | exact IH]; simpl; [reflexivity | lia].
Qed.

(** *** Reuse after release *)

(** A tracked node of type [ty] that no idle node of that type precedes is
    the one the next request returns, once it has been released. *)
Lemma release_then_get
    (ty : NodeType) (ctx : AudioContext) (options : option NodeOptions)
    (t1 t2 : Z) (w1 : World) (p1 : EnhancedAudioNodePool)
    (h : AudioNode) (v : PooledNode) (pre post : NodeMap) :
  globalPool w1 = Some p1 ->
  enablePooling (config p1) = true ->
  nodes p1 = pre ++ (h, v) :: post ->
  ~ In h (map fst pre) ->
  (forall k x, In (k, x) pre -> available ty x = false) ->
  type v = ty ->
  exists w3,
    getPooledNode ty ctx options t2 (releaseNode h t1 w1) = (h, w3) /\
    statsOf (releaseNode h t1 w1) = statsOf w1 /\
    statsOf w3 = hit (statsOf w1).
Proof.
  intros Hp Hen Hn Hh Hpre Hty.
  assert (Hrel : releaseNode h t1 w1 =
                 host [HostDisconnect h]
                   (setPool (withNodes (pre ++ (h, markIdle t1 v) :: post) p1) w1)).
  { unfold releaseNode. rewrite Hp, Hen. cbn [negb]. rewrite Hn.
    rewrite Map_get_app by assumption. rewrite Map_mutate_app by assumption.
    reflexivity. }
  rewrite Hrel. unfold getPooledNode. cbn [globalPool host setPool].
  cbn [config withNodes]. rewrite Hen. cbn [negb nodes withNodes].
  rewrite reuseFirst_app.
  - eexists. split; [reflexivity |]. split.
    + unfold statsOf. cbn. rewrite Hp. reflexivity.
    + unfold statsOf.
      match goal with
      | |- context [resetNodeState ?a ?b ?c ?d] =>
          destruct (resetNodeState_pool a b c d) as [-> _]
      end.
      cbn. rewrite Hp. reflexivity.
  - assumption.
  - unfold available; cbn. rewrite Hty.
    rewrite (internal_NodeType_dec_lb ty ty eq_refl). reflexivity.
Qed.

(** C3. Starting from an initialized pool with pooling enabled: when
    [getPooledNode("gain", ctx)] returns a handle that is registered in the
    pool and the handle is then released, the next
    [getPooledNode("gain", ctx)] returns the same handle, adds one to
    [reused] and to [poolHits], and leaves [created] as it was. *)
Theorem C3_release_then_acquire_reuses
    (w w1 : World) (ctx ctx' : AudioContext)
    (options options' : option NodeOptions) (t0 t1 t2 : Z) (h : AudioNode) :
  reachable w ->
  poolingEnabled w ->
  getPooledNode gain ctx options t0 w = (h, w1) ->
  isNodeInPool h w1 = true ->
  exists w3,
    getPooledNode gain ctx' options' t2 (releaseNode h t1 w1) = (h, w3) /\
    reused (statsOf w3) = reused (statsOf w1) + 1 /\
    poolHits (statsOf w3) = poolHits (statsOf w1) + 1 /\
    created (statsOf w3) = created (statsOf w1) /\
    statsOf (releaseNode h t1 w1) = statsOf w1.
Proof.
  intros Hr (pool & Hp & Hen) Hget Hin.
  pose proof (reachable_wellFormed w Hr) as Hw.
  pose proof Hw as Hw'. unfold wellFormed in Hw'. rewrite Hp in Hw'.
  destruct Hw' as [Hd Hf].
  unfold getPooledNode in Hget. rewrite Hp, Hen in Hget.
  change (negb true) with false in Hget. cbv iota in Hget.
  assert (Hgoal : exists w3,
    getPooledNode gain ctx' options' t2 (releaseNode h t1 w1) = (h, w3) /\
    statsOf (releaseNode h t1 w1) = statsOf w1 /\
    statsOf w3 = hit (statsOf w1)).
  { destruct (reuseFirst gain t0 (nodes pool)) as [[n nodes'] |] eqn:Er.
    - apply pair_equal_spec in Hget. destruct Hget as [<- <-].
      destruct (reuseFirst_split _ _ _ _ _ Er)
        as (pre & v & post & Hn & Hn' & Hv & Hpre).
      rewrite Hn in Hd. rewrite map_app in Hd. simpl in Hd.
      apply NoDup_remove_2 in Hd.
      assert (Hh : ~ In n (map fst pre)).
      { intros Hc. apply Hd. apply in_or_app. now left. }
      match goal with
      | |- context [resetNodeState ?a ?b ?c ?d] =>
          destruct (resetNodeState_pool a b c d) as [E1 _]
      end.
      eapply (release_then_get gain ctx' options' t1 t2 _ _ n
                (markActive t0 v) pre post).
      + rewrite E1. reflexivity.
      + exact Hen.
      + exact Hn'.
      + exact Hh.
      + exact Hpre.
      + unfold available in Hv. apply andb_true_iff in Hv.
        destruct Hv as [Hv _]. apply internal_NodeType_dec_bl in Hv. exact Hv.
    - destruct (createNewNode_spec gain ctx options
                 (setPool (withStats (miss (stats pool)) pool) w)) as [cs E].
      rewrite E in Hget. cbn [nodes config withStats] in Hget. clear E.
      pose proof (fresh_not_tracked w pool (Some gain) false Hw Hp) as Hfresh.
      destruct (Map_size (nodes pool) <? maxPoolSize (config pool)).
      + injection Hget as <- <-.
        eapply (release_then_get gain ctx' options' t1 t2 _ _ _ _ (nodes pool) []).
        * reflexivity.
        * exact Hen.
        * cbn. apply Map_set_fresh. exact Hfresh.
        * exact Hfresh.
        * apply (reuseFirst_None gain t0). exact Er.
        * reflexivity.
      + injection Hget as <- <-. exfalso.
        unfold isNodeInPool, Map_has in Hin. cbn in Hin.
        apply Map_get_None in Hfresh. cbn in Hfresh. rewrite Hfresh in Hin.
        discriminate. }
  destruct Hgoal as (w3 & H1 & H2 & H3).
  exists w3. rewrite H3. cbn. repeat split; try assumption; reflexivity.
Qed.

Lemma C3_release_then_acquire_reuses_witness :
  exists w3,
    getPooledNode gain PoolExamples.ctx0 None 50
      (releaseNode (fst (getPooledNode gain PoolExamples.ctx0 None 30
                           PoolExamples.busyPool)) 40
         (snd (getPooledNode gain PoolExamples.ctx0 None 30 PoolExamples.busyPool)))
    = (fst (getPooledNode gain PoolExamples.ctx0 None 30 PoolExamples.busyPool), w3) /\
    reused (statsOf w3) =
      reused (statsOf (snd (getPooledNode gain PoolExamples.ctx0 None 30
                              PoolExamples.busyPool))) + 1 /\
    poolHits (statsOf w3) =
      poolHits (statsOf (snd (getPooledNode gain PoolExamples.ctx0 None 30
                                PoolExamples.busyPool))) + 1 /\
    created (statsOf w3) =
      created (statsOf (snd (getPooledNode gain PoolExamples.ctx0 None 30
                               PoolExamples.busyPool))) /\
    statsOf (releaseNode (fst (getPooledNode gain PoolExamples.ctx0 None 30
                                 PoolExamples.busyPool)) 40
               (snd (getPooledNode gain PoolExamples.ctx0 None 30
                       PoolExamples.busyPool)))
    = statsOf (snd (getPooledNode gain PoolExamples.ctx0 None 30
                      PoolExamples.busyPool)).
Proof.
  apply (C3_release_then_acquire_reuses PoolExamples.busyPool _
           PoolExamples.ctx0 PoolExamples.ctx0 None None 30 40 50).
  - apply reach_get, reach_get, reach_initialize, reach_start.
  - eexists. split; reflexivity.
  - reflexivity.
  - reflexivity.
Defined.

(** *** Pool misses *)

(** C8, as stated, fails at capacity: a miss on a full pool counts a
    [poolMiss] but leaves [created] as it was.  With the default
    configuration and thirty-two active gain nodes, one more request for a
    gain node misses, [poolMisses] goes from 32 to 33, [created] stays 32 and
    the new node is not registered. *)
Lemma C8_created_not_counted_at_capacity :
  reuseFirst gain 2000
    (match globalPool PoolExamples.fullPool with
     | Some pool => nodes pool | None => [] end) = None /\
  poolMisses (statsOf (snd (getPooledNode gain PoolExamples.ctx0 None 2000
                              PoolExamples.fullPool)))
  = poolMisses (statsOf PoolExamples.fullPool) + 1 /\
  created (statsOf (snd (getPooledNode gain PoolExamples.ctx0 None 2000
                           PoolExamples.fullPool)))
  <> created (statsOf PoolExamples.fullPool) + 1 /\
  created (statsOf (snd (getPooledNode gain PoolExamples.ctx0 None 2000
                           PoolExamples.fullPool))) = 32 /\
  isNodeInPool (fst (getPooledNode gain PoolExamples.ctx0 None 2000
                       PoolExamples.fullPool))
    (snd (getPooledNode gain PoolExamples.ctx0 None 2000 PoolExamples.fullPool))
  = false.
Proof.
  repeat split; try (vm_compute; reflexivity).
  vm_compute. discriminate.
Qed.

(** C8, amended. On a pool miss (pooling enabled, no idle node of the
    requested type) a new node is created and returned and [poolMisses] goes
    up by one; the node is registered in the pool, and [created] goes up by
    one, if and only if the number of tracked nodes is below [maxPoolSize]
    (32 by default); otherwise the node is returned unregistered and
    [created] and the tracked nodes stay as they were. *)
Theorem C8_pool_miss
    (w : World) (pool : EnhancedAudioNodePool) (ty : NodeType)
    (ctx : AudioContext) (options : option NodeOptions) (now : Z) :
  reachable w ->
  globalPool w = Some pool ->
  enablePooling (config pool) = true ->
  noIdleNode ty pool ->
  let newNode :=
    {| nodeId := nextNodeId w; nodeClass := Some ty; hasClosablePort := false |} in
  let below := Map_size (nodes pool) <? maxPoolSize (config pool) in
  exists w',
    getPooledNode ty ctx options now w = (newNode, w') /\
    isNodeInPool newNode w = false /\
    poolMisses (statsOf w') = poolMisses (statsOf w) + 1 /\
    poolHits (statsOf w') = poolHits (statsOf w) /\
    reused (statsOf w') = reused (statsOf w) /\
    isNodeInPool newNode w' = below /\
    created (statsOf w') = created (statsOf w) + (if below then 1 else 0) /\
    trackedCount w' = trackedCount w + (if below then 1 else 0) /\
    (below = false -> option_map nodes (globalPool w') = Some (nodes pool)) /\
    getNodeType newNode w' = (if below then Some ty else None) /\
    maxPoolSize DEFAULT_POOL_CONFIG = 32.
Proof.
  intros Hr Hp Hen Hidle newNode below.
  pose proof (reachable_wellFormed w Hr) as Hw.
  pose proof (fresh_not_tracked w pool (Some ty) false Hw Hp) as Hfresh.
  fold newNode in Hfresh.
  assert (Hnone : Map_get newNode (nodes pool) = None)
    by (apply Map_get_None; exact Hfresh).
  assert (Er : reuseFirst ty now (nodes pool) = None)
    by (apply reuseFirst_None; exact Hidle).
  unfold getPooledNode. rewrite Hp, Hen. cbn [negb]. rewrite Er.
  destruct (createNewNode_spec ty ctx options
              (setPool (withStats (miss (stats pool)) pool) w)) as [cs ->].
  cbn [nodes config withStats setPool nextNodeId globalPool hostCalls].
  fold newNode. fold below.
  unfold statsOf, trackedCount, isNodeInPool, getNodeType, Map_has.
  rewrite Hp, Hnone.
  destruct below; eexists; (split; [reflexivity |]); cbn.
  - rewrite Map_set_fresh by exact Hfresh.
    rewrite Map_get_app by exact Hfresh.
    unfold Map_size. rewrite length_app. cbn.
    repeat split; try reflexivity; try lia; try (intros; discriminate).
  - rewrite Hnone. repeat split; try reflexivity; lia.
Qed.

Lemma C8_pool_miss_witness :
  exists w',
    getPooledNode gain PoolExamples.ctx0 None 30 PoolExamples.busyPool
    = ({| nodeId := 2; nodeClass := Some gain; hasClosablePort := false |}, w') /\
    isNodeInPool
      {| nodeId := 2; nodeClass := Some gain; hasClosablePort := false |}
      PoolExamples.busyPool = false /\
    poolMisses (statsOf w') = poolMisses (statsOf PoolExamples.busyPool) + 1 /\
    poolHits (statsOf w') = poolHits (statsOf PoolExamples.busyPool) /\
    reused (statsOf w') = reused (statsOf PoolExamples.busyPool) /\
    isNodeInPool
      {| nodeId := 2; nodeClass := Some gain; hasClosablePort := false |} w'
    = true /\
    created (statsOf w') = created (statsOf PoolExamples.busyPool) + 1 /\
    trackedCount w' = trackedCount PoolExamples.busyPool + 1 /\
    (true = false ->
     option_map nodes (globalPool w') =
     Some (match globalPool PoolExamples.busyPool with
           | Some pool => nodes pool | None => [] end)) /\
    getNodeType
      {| nodeId := 2; nodeClass := Some gain; hasClosablePort := false |} w'
    = Some gain /\
    maxPoolSize DEFAULT_POOL_CONFIG = 32.
Proof.
  refine (C8_pool_miss PoolExamples.busyPool
            (match globalPool PoolExamples.busyPool with
             | Some pool => pool
             | None => {| nodes := []; config := DEFAULT_POOL_CONFIG;
                          stats := zeroStats |}
             end)
            gain PoolExamples.ctx0 None 30 _ _ _ _).
  - apply reach_get, reach_get, reach_initialize, reach_start.
  - reflexivity.
  - reflexivity.
  - intros n metadata Hin. vm_compute in Hin.
    destruct Hin as [e | [e | []]]; injection e as <- <-; reflexivity.
Defined.

End PoolFacts.

(** ** Query strings *)

Section QueryStringFacts.
Import URLSearchParams.
Local Open Scope string_scope.

Example parse_example :
  fromString "?a=1&b=x+y%21&&c" = [("a", "1"); ("b", "x y!"); ("c", "")].
Proof. reflexivity. Qed.

Example toString_example :
  toString [("a b", "1+1=2"); ("k", "")] = "a+b=1%2B1%3D2&k=".
Proof. reflexivity. Qed.

Lemma append_assoc (a b c : string) : (a ++ b) ++ c = a ++ (b ++ c).
Proof. induction a as [| x a IH]; simpl; [reflexivity | now rewrite IH]. Qed.

Lemma plusToSpace_app (a b : string) :
  plusToSpace (a ++ b) = plusToSpace a ++ plusToSpace b.
Proof. induction a as [| x a IH]; simpl; [reflexivity | now rewrite IH]. Qed.

Lemma contains_app (c : ascii) (a b : string) :
  contains c (a ++ b) = contains c a || contains c b.
Proof.
  induction a as [| x a IH]; simpl; [reflexivity |].
  rewrite IH. apply orb_assoc.
Qed.

Ltac each_byte c :=
  destruct c as [b0 b1 b2 b3 b4 b5 b6 b7];
  destruct b0, b1, b2, b3, b4, b5, b6, b7.

Lemma encodeByte_separators (c : ascii) :
  contains "&" (encodeByte c) = false /\
  contains "=" (encodeByte c) = false /\
  contains "?" (encodeByte c) = false.
Proof. each_byte c; repeat split; reflexivity. Qed.

Lemma decode_encodeByte (c : ascii) (rest : string) :
  percentDecode (plusToSpace (encodeByte c) ++ rest)
  = String c (percentDecode rest).
Proof. each_byte c; reflexivity. Qed.

Lemma decodeComponent_encodeString (s : string) :
  decodeComponent (encodeString s) = s.
Proof.
  unfold decodeComponent. induction s as [| c r IH]; simpl; [reflexivity |].
  rewrite plusToSpace_app, decode_encodeByte, IH. reflexivity.
Qed.

Lemma encodeString_separators (s : string) :
  contains "&" (encodeString s) = false /\
  contains "=" (encodeString s) = false /\
  contains "?" (encodeString s) = false.
Proof.
  induction s as [| c r (IH1 & IH2 & IH3)]; simpl; [repeat split |].
  destruct (encodeByte_separators c) as (H1 & H2 & H3).
  rewrite !contains_app, H1, H2, H3, IH1, IH2, IH3. repeat split.
Qed.

Lemma splitOn_clean (sep : ascii) (a : string) :
  contains sep a = false -> splitOn sep a = [a].
Proof.
  induction a as [| x a IH]; simpl; intros H; [reflexivity |].
  apply orb_false_iff in H. destruct H as [Hx Ha].
  rewrite Hx, (IH Ha). reflexivity.
Qed.

Lemma splitOn_app (sep : ascii) (a b : string) :
  contains sep a = false ->
  splitOn sep (a ++ String sep b) = a :: splitOn sep b.
Proof.
  induction a as [| x a IH]; simpl; intros H.
  - rewrite Ascii.eqb_refl. reflexivity.
  - apply orb_false_iff in H. destruct H as [Hx Ha].
    rewrite Hx, (IH Ha). reflexivity.
Qed.

Lemma cutAt_app (sep : ascii) (a b : string) :
  contains sep a = false -> cutAt sep (a ++ String sep b) = (a, Some b).
Proof.
  induction a as [| x a IH]; simpl; intros H.
  - rewrite Ascii.eqb_refl. reflexivity.
  - apply orb_false_iff in H. destruct H as [Hx Ha].
    rewrite Hx, (IH Ha). reflexivity.
Qed.

Lemma parsePair_serializePair (p : string * string) :
  parsePair (serializePair p) = p.
Proof.
  destruct p as [n v]. unfold parsePair, serializePair; simpl.
  rewrite cutAt_app by apply encodeString_separators.
  rewrite !decodeComponent_encodeString. reflexivity.
Qed.

Lemma serializePair_separators (p : string * string) :
  contains "&" (serializePair p) = false /\
  contains "?" (serializePair p) = false /\
  String.eqb (serializePair p) "" = false.
Proof.
  unfold serializePair.
  destruct (encodeString_separators (fst p)) as (H1 & _ & H3).
  destruct (encodeString_separators (snd p)) as (G1 & _ & G3).
  rewrite !contains_app; simpl. rewrite H1, H3, G1, G3.
  repeat split. destruct (encodeString (fst p)); reflexivity.
Qed.

Lemma toString_no_question (params : t) : contains "?" (toString params) = false.
Proof.
  induction params as [| p r IH]; simpl; [reflexivity |].
  destruct (serializePair_separators p) as (_ & Hq & _).
  destruct r as [| p' r']; [exact Hq |].
  rewrite contains_app, Hq. simpl. simpl in IH. exact IH.
Qed.

Lemma parse_toString (params : t) : parse (toString params) = params.
Proof.
  induction params as [| p r IH]; [reflexivity |].
  destruct (serializePair_separators p) as (Ha & _ & Hne).
  destruct r as [| p' r'].
  - unfold parse. cbn [toString]. rewrite splitOn_clean by exact Ha.
    cbn [filter]. rewrite Hne. cbn [negb map].
    rewrite parsePair_serializePair. reflexivity.
  - unfold parse in *. change (toString (p :: p' :: r'))
      with (serializePair p ++ String "&" (toString (p' :: r'))).
    rewrite splitOn_app by exact Ha.
    cbn [filter]. rewrite Hne. cbn [negb map].
    rewrite parsePair_serializePair, IH. reflexivity.
Qed.

(** Parsing what [toString] wrote gives the pairs back, with or without the
    [?] that [window.location.search] puts in front. *)
Lemma fromString_toString (params : t) :
  fromString (toString params) = params /\
  fromString (String "?" (toString params)) = params.
Proof.
  split; [| apply parse_toString].
  unfold fromString. pose proof (toString_no_question params) as H.
  destruct (toString params) as [| c r] eqn:E; [rewrite <- E; apply parse_toString |].
  simpl in H. apply orb_false_iff in H. destruct H as [-> _].
  rewrite <- E. apply parse_toString.
Qed.

Lemma toString_empty (params : t) : toString params = "" <-> params = [].
Proof.
  split; [| intros ->; reflexivity].
  destruct params as [| p r]; [reflexivity |]. intros H. exfalso.
  destruct (serializePair_separators p) as (_ & _ & Hne).
  destruct r; simpl in H.
  - rewrite H in Hne. discriminate.
  - destruct (serializePair p); [discriminate | discriminate].
Qed.

End QueryStringFacts.

(** ** Comparisons of binary64 numbers *)

Section FloatFacts.
Import Floats.
Local Open Scope float_scope.

Lemma SFcompare_antisym (x y : spec_float) :
  SFcompare y x = option_map CompOpp (SFcompare x y).
Proof.
  destruct x as [s | s | | s m e], y as [s' | s' | | s' m' e']; simpl;
    try reflexivity; try (destruct s; reflexivity);
    try (destruct s'; reflexivity); try (destruct s, s'; reflexivity).
  f_equal. destruct s, s'; try reflexivity;
    rewrite (Z.compare_antisym e e'); destruct (e ?= e')%Z; simpl;
    try reflexivity;
    rewrite (Pos.compare_cont_antisym m m' Eq); simpl;
    try rewrite CompOpp_involutive; reflexivity.
Qed.

Lemma SFcompare_refl (x : spec_float) :
  x <> S754_nan -> SFcompare x x = Some Eq.
Proof.
  destruct x as [s | s | | s m e]; simpl; intros H;
    try reflexivity; try (destruct s; reflexivity); try contradiction.
  f_equal. destruct s; rewrite Z.compare_refl;
    change (Pos.compare_cont Eq m m) with (Pos.compare m m);
    rewrite Pos.compare_refl; reflexivity.
Qed.


Lemma leb_not_nan (x y : float) :
  (x <=? y) = true -> PrimFloat.is_nan x = false /\ PrimFloat.is_nan y = false.
Proof.
  rewrite leb_spec. unfold SFleb, PrimFloat.is_nan. rewrite !eqb_spec.
  unfold SFeqb. intros H.
  assert (Hx : Prim2SF x <> S754_nan).
  { intros E. rewrite E in H. discriminate. }
  assert (Hy : Prim2SF y <> S754_nan).
  { intros E. rewrite E in H. destruct (Prim2SF x); discriminate. }
  rewrite !SFcompare_refl by assumption. split; reflexivity.
Qed.




End FloatFacts.

(** ** State codec *)

Section CodecFacts.
Import Floats JSNumber ParseUtils SynthTypes UrlUtils CodecSpec.
Local Open Scope string_scope.
Context `{NC : NumberCodec}.

Lemma isTrue_Boolean_toString (b : bool) : isTrue (Some (Boolean_toString b)) = b.
Proof. destruct b; reflexivity. Qed.





Lemma orString_noiseTag (n : NoiseType) (d : string) :
  orString (Some (noiseTag n)) d = noiseTag n.
Proof. destruct n; reflexivity. Qed.

(** The keys of [saveStateToURL] are all different, so the parameters are
    the assignments, in order. *)
Lemma setAll_assignments (state : SynthState) :
  setAll (assignments state) [] = assignments state.
Proof. reflexivity. Qed.

Lemma assignments_toString_nonempty (state : SynthState) :
  String.eqb (URLSearchParams.toString (assignments state)) "" = false.
Proof.
  apply String.eqb_neq. intros E. apply toString_empty in E. discriminate E.
Qed.



(** *** Partial decoding *)

Lemma loadStateFromURL_null (search : string) :
  loadStateFromURL search = None <-> URLSearchParams.fromString search = [].
Proof.
  unfold loadStateFromURL, loadStateFromParams.
  destruct (String.eqb_spec
              (URLSearchParams.toString (URLSearchParams.fromString search)) "")
    as [E | E].
  - apply toString_empty in E. tauto.
  - split; [discriminate |]. intros E'. rewrite E' in E. contradiction.
Qed.

Lemma loadStateFromParams_groups (params : URLSearchParams.t) (st : Partial.t)
    (g : Group) :
  loadStateFromParams params = Some st ->
  populated g st = URLSearchParams.has (anchor g) params /\
  absent g st = negb (URLSearchParams.has (anchor g) params).
Proof.
  unfold loadStateFromParams.
  destruct (String.eqb (URLSearchParams.toString params) ""); [discriminate |].
  intros E. injection E as <-.
  unfold populated, absent.
  destruct g; cbn [fieldsPresent anchor Partial.oscillator1 Partial.oscillator2
    Partial.oscillator3 Partial.mixer Partial.filterCutoff Partial.filterEmphasis
    Partial.filterContourAmount Partial.filterAttack Partial.filterDecay
    Partial.filterSustain Partial.filterModulationOn Partial.loudnessAttack
    Partial.loudnessDecay Partial.loudnessSustain Partial.lfoWaveform
    Partial.lfoRate Partial.modMix Partial.oscillatorModulationOn
    Partial.glideOn Partial.glideTime Partial.mainVolume Partial.isMainActive
    Partial.keyboardControl1 Partial.keyboardControl2 Partial.osc3Control
    Partial.osc3FilterEgSwitch Partial.noiseLfoSwitch Partial.decaySwitchOn
    Partial.masterTune Partial.pitchWheel Partial.modWheel Partial.tunerOn
    Partial.auxOutput];
    unfold loadOscillator, guarded, URLSearchParams.has;
    match goal with
    | |- context [URLSearchParams.get ?k params] =>
        destruct (URLSearchParams.get k params)
    end; split; reflexivity.
Qed.

End CodecFacts.

Section CodecProperties.
Import Floats JSNumber ParseUtils SynthTypes UrlUtils CodecSpec.
Local Open Scope string_scope.

Example saveStateToURL_sampleState :
  @saveStateToURL sampleCodec sampleState =
  ("osc1_waveform=sawtooth&osc1_freq=440&osc1_range=8&osc1_enabled=true"
   ++ "&osc2_waveform=pulse1&osc2_freq=0&osc2_range=16&osc2_enabled=false"
   ++ "&osc3_waveform=triangle&osc3_freq=220&osc3_range=lo&osc3_enabled=true"
   ++ "&mix_osc1_enabled=true&mix_osc1_vol=8&mix_osc2_enabled=false"
   ++ "&mix_osc2_vol=0&mix_osc3_enabled=true&mix_osc3_vol=2.5"
   ++ "&mix_noise_enabled=true&mix_noise_vol=1.5&mix_noise_type=pink"
   ++ "&mix_ext_enabled=false&mix_ext_vol=0"
   ++ "&filter_cutoff=-4&filter_emphasis=5&filter_contour=10"
   ++ "&filter_attack=0.5&filter_decay=2.5&filter_sustain=5&filter_mod_on=true"
   ++ "&loudness_attack=0.5&loudness_decay=2.5&loudness_sustain=8"
   ++ "&lfo_waveform=square&lfo_rate=5&mod_mix=0&osc_mod_on=true"
   ++ "&glide_on=true&glide_time=0.1&main_volume=2.5&main_active=true"
   ++ "&keyboard_control1=true&keyboard_control2=false"
   ++ "&osc3_control=true&osc3_filter_eg=false"
   ++ "&noise_lfo_switch=true&decay_switch=false"
   ++ "&master_tune=-2&pitch_wheel=50&mod_wheel=50&tuner_on=true"
   ++ "&aux_enabled=true&aux_volume=1.5").
Proof. vm_compute. reflexivity. Qed.


Example loadStateFromURL_clamps_and_defaults :
  option_map Partial.filterCutoff
    (@loadStateFromURL sampleCodec "filter_cutoff=10&filter_emphasis=NaN")
  = Some (Some 4%float) /\
  option_map Partial.filterEmphasis
    (@loadStateFromURL sampleCodec "filter_cutoff=10&filter_emphasis=NaN")
  = Some (Some 5%float).
Proof. split; vm_compute; reflexivity. Qed.

(** C9, as stated, fails on the empty string: [loadStateFromURL] returns
    [null] there, not an empty overlay. *)
Lemma C9_empty_string_is_null :
  @loadStateFromURL sampleCodec "" = None /\
  @loadStateFromURL sampleCodec "" <> Some Partial.empty.
Proof. split; [reflexivity | discriminate]. Qed.

(** C9, amended. Decoding the empty string returns [null].  Decoding
    ["osc1_waveform=sawtooth&osc1_freq=440&osc1_range=8&osc1_enabled=true"]
    gives an overlay with the [oscillator1] group and no other field.
    Whenever [loadStateFromURL] returns an overlay, the input holds at least
    one parameter, and each group is populated if its anchor key is among
    the parameters and absent if it is not. *)
Theorem C9_partial_decode `{NC : NumberCodec}
    (search : string) (g : Group) (st : Partial.t) :
  loadStateFromURL search = Some st ->
  loadStateFromURL "" = None /\
  loadStateFromURL oscillator1Query = Some oscillator1Only /\
  URLSearchParams.fromString search <> [] /\
  populated g st = URLSearchParams.has (anchor g) (URLSearchParams.fromString search) /\
  absent g st
  = negb (URLSearchParams.has (anchor g) (URLSearchParams.fromString search)).
Proof.
  intros Hst.
  split; [reflexivity |].
  split; [reflexivity |].
  split.
  - intros E. apply loadStateFromURL_null in E. congruence.
  - apply loadStateFromParams_groups. exact Hst.
Qed.

Lemma C9_partial_decode_witness :
  @loadStateFromURL sampleCodec "" = None /\
  @loadStateFromURL sampleCodec oscillator1Query
    = Some (@oscillator1Only sampleCodec) /\
  URLSearchParams.fromString oscillator1Query <> [] /\
  populated GMixer (@oscillator1Only sampleCodec)
  = URLSearchParams.has (anchor GMixer) (URLSearchParams.fromString oscillator1Query) /\
  absent GMixer (@oscillator1Only sampleCodec)
  = negb (URLSearchParams.has (anchor GMixer)
            (URLSearchParams.fromString oscillator1Query)).
Proof.
  apply (@C9_partial_decode sampleCodec oscillator1Query GMixer
           (@oscillator1Only sampleCodec)).
  reflexivity.
Defined.

End CodecProperties.

(** ** Node pool: eviction, capacity and accounting *)

Section PoolMoreFacts.
Import NodePoolingUtils PoolSpec.
Local Open Scope Z_scope.

Lemma Map_delete_app (k : AudioNode) (pre : NodeMap) (v : PooledNode) (post : NodeMap) :
  ~ In k (map fst pre) -> Map_delete k (pre ++ (k, v) :: post) = pre ++ post.
Proof.
  induction pre as [| [k' v'] r IH]; simpl; intros H.
  - destruct (AudioNode_eq_dec k k); [reflexivity | contradiction].
  - destruct (AudioNode_eq_dec k' k) as [e | ne]; [tauto |].
    f_equal. apply IH. tauto.
Qed.

Lemma Map_get_In (k : AudioNode) (v : PooledNode) (m : NodeMap) :
  Map_get k m = Some v -> In (k, v) m.
Proof.
  induction m as [| [k' v'] r IH]; simpl; [discriminate |].
  destruct (AudioNode_eq_dec k' k) as [e | ne].
  - intros E. injection E as <-. subst k'. now left.
  - intros E. right. apply IH, E.
Qed.

Lemma In_Map_get (k : AudioNode) (v : PooledNode) (m : NodeMap) :
  NoDup (map fst m) -> In (k, v) m -> Map_get k m = Some v.
Proof.
  induction m as [| [k' v'] r IH]; simpl; intros Hd Hin; [contradiction |].
  inversion Hd as [| ? ? Hn Hd']; subst.
  destruct Hin as [e | Hin].
  - injection e as -> ->.
    destruct (AudioNode_eq_dec k k); [reflexivity | contradiction].
  - destruct (AudioNode_eq_dec k' k) as [e | ne]; [| apply IH; assumption].
    subst k'. exfalso. apply Hn. change k with (fst (k, v)). apply in_map, Hin.
Qed.

Lemma Map_get_delete_same (k : AudioNode) (m : NodeMap) :
  NoDup (map fst m) -> Map_get k (Map_delete k m) = None.
Proof.
  intros Hd. apply Map_get_None.
  induction m as [| [k' v'] r IH]; simpl; [tauto |].
  inversion Hd as [| ? ? Hn Hd']; subst.
  destruct (AudioNode_eq_dec k' k) as [e | ne]; simpl.
  - subst k'. exact Hn.
  - intros [e | Hin]; [contradiction | apply IH; assumption].
Qed.

Lemma Map_get_delete_other (k x : AudioNode) (m : NodeMap) :
  x <> k -> Map_get x (Map_delete k m) = Map_get x m.
Proof.
  intros Hx. induction m as [| [k' v'] r IH]; simpl; [reflexivity |].
  destruct (AudioNode_eq_dec k' k) as [e | ne]; simpl.
  - subst k'. destruct (AudioNode_eq_dec k x); [congruence | reflexivity].
  - destruct (AudioNode_eq_dec k' x); [reflexivity | exact IH].
Qed.

Lemma Map_delete_length (k : AudioNode) (v : PooledNode) (m : NodeMap) :
  Map_get k m = Some v ->
  Z.of_nat (List.length (Map_delete k m)) = Z.of_nat (List.length m) - 1.
Proof.
  induction m as [| [k' v'] r IH]; simpl List.length; simpl Map_get; simpl Map_delete;
    [discriminate |].
  destruct (AudioNode_eq_dec k' k) as [e | ne]; intros E.
  - lia.
  - simpl List.length. rewrite Nat2Z.inj_succ, (IH E). lia.
Qed.

Lemma Map_get_mutate_same (k : AudioNode) (f : PooledNode -> PooledNode) (m : NodeMap) :
  Map_get k (Map_mutate k f m) = option_map f (Map_get k m).
Proof.
  induction m as [| [k' v'] r IH]; simpl; [reflexivity |].
  destruct (AudioNode_eq_dec k' k) as [e | ne]; simpl.
  - destruct (AudioNode_eq_dec k' k); [reflexivity | contradiction].
  - destruct (AudioNode_eq_dec k' k); [contradiction | exact IH].
Qed.

Lemma Map_get_mutate_other (k x : AudioNode) (f : PooledNode -> PooledNode) (m : NodeMap) :
  x <> k -> Map_get x (Map_mutate k f m) = Map_get x m.
Proof.
  intros Hx. induction m as [| [k' v'] r IH]; simpl; [reflexivity |].
  destruct (AudioNode_eq_dec k' k) as [e | ne]; simpl.
  - subst k'. destruct (AudioNode_eq_dec k x); [congruence | reflexivity].
  - destruct (AudioNode_eq_dec k' x); [reflexivity | exact IH].
Qed.

Lemma Map_get_app_other (x : AudioNode) (m : NodeMap) (k : AudioNode) (v : PooledNode) :
  x <> k -> Map_get x (m ++ [(k, v)]) = Map_get x m.
Proof.
  intros Hx. induction m as [| [k' v'] r IH]; simpl.
  - destruct (AudioNode_eq_dec k x); [congruence | reflexivity].
  - destruct (AudioNode_eq_dec k' x); [reflexivity | exact IH].
Qed.

Lemma Map_set_length (k : AudioNode) (v : PooledNode) (m : NodeMap) :
  (List.length (Map_set k v m) <= S (List.length m))%nat.
Proof.
  induction m as [| [k' v'] r IH]; simpl; [lia |].
  destruct (AudioNode_eq_dec k' k); simpl; lia.
Qed.

(** *** [disposeNode] *)

Lemma disposeNode_pool (n : AudioNode) (w : World) :
  globalPool (disposeNode n w) =
  match globalPool w with
  | None => None
  | Some pool =>
      match Map_get n (nodes pool) with
      | Some _ =>
          Some (withStats (countDisposed (stats pool))
                  (withNodes (Map_delete n (nodes pool)) pool))
      | None => Some pool
      end
  end /\
  nextNodeId (disposeNode n w) = nextNodeId w.
Proof.
  unfold disposeNode. destruct (globalPool w) as [pool |] eqn:Hp.
  - destruct (Map_get n (nodes pool)); simpl; [split; reflexivity |].
    rewrite Hp. split; reflexivity.
  - rewrite Hp. split; reflexivity.
Qed.

(** X1. [disposeNode] takes the node out of the pool and leaves every other
    node's entry as it was; [disposed] goes up by one exactly when the node
    was tracked, and the tracked count goes down by as much. *)
Theorem pool_dispose_removes (w : World) (n x : AudioNode) :
  reachable w ->
  isNodeInPool n (disposeNode n w) = false /\
  (x <> n -> Map_get x (nodesOf (disposeNode n w)) = Map_get x (nodesOf w)) /\
  disposed (statsOf (disposeNode n w))
  = disposed (statsOf w) + (if isNodeInPool n w then 1 else 0) /\
  trackedCount (disposeNode n w)
  = trackedCount w - (if isNodeInPool n w then 1 else 0).
Proof.
  intros Hr. pose proof (reachable_wellFormed w Hr) as Hw.
  destruct (disposeNode_pool n w) as [Hp _].
  unfold isNodeInPool, nodesOf, statsOf, trackedCount, Map_has. rewrite Hp.
  unfold wellFormed in Hw.
  destruct (globalPool w) as [pool |]; [| repeat split; reflexivity].
  destruct Hw as [Hd _].
  destruct (Map_get n (nodes pool)) as [v |] eqn:Hg; cbn.
  - rewrite Map_get_delete_same by exact Hd.
    repeat split; try reflexivity.
    + intros Hx. apply Map_get_delete_other. exact Hx.
    + unfold Map_size. apply (Map_delete_length n v). exact Hg.
  - rewrite Hg. repeat split; try reflexivity; lia.
Qed.

Lemma pool_dispose_removes_witness :
  isNodeInPool
    {| nodeId := 1; nodeClass := Some gain; hasClosablePort := false |}
    (disposeNode
       {| nodeId := 1; nodeClass := Some gain; hasClosablePort := false |}
       PoolExamples.busyPool) = false /\
  ({| nodeId := 0; nodeClass := Some oscillator; hasClosablePort := false |}
   <> {| nodeId := 1; nodeClass := Some gain; hasClosablePort := false |} ->
   Map_get {| nodeId := 0; nodeClass := Some oscillator; hasClosablePort := false |}
     (nodesOf (disposeNode
        {| nodeId := 1; nodeClass := Some gain; hasClosablePort := false |}
        PoolExamples.busyPool))
   = Map_get {| nodeId := 0; nodeClass := Some oscillator; hasClosablePort := false |}
       (nodesOf PoolExamples.busyPool)) /\
  disposed (statsOf (disposeNode
     {| nodeId := 1; nodeClass := Some gain; hasClosablePort := false |}
     PoolExamples.busyPool))
  = disposed (statsOf PoolExamples.busyPool)
    + (if isNodeInPool
            {| nodeId := 1; nodeClass := Some gain; hasClosablePort := false |}
            PoolExamples.busyPool then 1 else 0) /\
  trackedCount (disposeNode
     {| nodeId := 1; nodeClass := Some gain; hasClosablePort := false |}
     PoolExamples.busyPool)
  = trackedCount PoolExamples.busyPool
    - (if isNodeInPool
            {| nodeId := 1; nodeClass := Some gain; hasClosablePort := false |}
            PoolExamples.busyPool then 1 else 0).
Proof.
  apply (pool_dispose_removes PoolExamples.busyPool).
  apply reach_get, reach_get, reach_initialize, reach_start.
Defined.

(** *** [clearPool] *)

Lemma clearPool_fold (l : NodeMap) (w : World) (pool : EnhancedAudioNodePool) :
  globalPool w = Some pool -> nodes pool = l ->
  exists pool',
    globalPool
      (fold_left (fun w (e : AudioNode * PooledNode) => disposeNode (fst e) w) l w)
    = Some pool' /\
    nodes pool' = [] /\ config pool' = config pool /\
    disposed (stats pool') = disposed (stats pool) + Z.of_nat (List.length l) /\
    created (stats pool') = created (stats pool) /\
    reused (stats pool') = reused (stats pool) /\
    poolHits (stats pool') = poolHits (stats pool) /\
    poolMisses (stats pool') = poolMisses (stats pool).
Proof.
  revert w pool. induction l as [| [k v] r IH]; intros w pool Hp Hn.
  - exists pool. simpl. repeat split; try assumption; lia.
  - cbn [fold_left fst].
    destruct (disposeNode_pool k w) as [Hd _]. rewrite Hp, Hn in Hd.
    cbn [Map_get] in Hd.
    destruct (AudioNode_eq_dec k k) as [_ | ne]; [| contradiction].
    cbn [Map_delete] in Hd.
    destruct (AudioNode_eq_dec k k) as [_ | ne]; [| contradiction].
    destruct (IH _ _ Hd eq_refl) as (pool' & H1 & H2 & H3 & H4 & H5 & H6 & H7 & H8).
    exists pool'. cbn in H3, H4, H5, H6, H7, H8.
    repeat split; try assumption.
    rewrite H4. cbn [List.length]. lia.
Qed.

(** X2. [clearPool] leaves no node tracked, whatever the pool held; it counts
    every node it removes as [disposed] and leaves the other counters and
    the configuration as they were. *)
Theorem pool_clear_empties (w : World) :
  trackedCount (clearPool w) = 0 /\
  nodesOf (clearPool w) = [] /\
  disposed (statsOf (clearPool w)) = disposed (statsOf w) + trackedCount w /\
  created (statsOf (clearPool w)) = created (statsOf w) /\
  reused (statsOf (clearPool w)) = reused (statsOf w) /\
  poolHits (statsOf (clearPool w)) = poolHits (statsOf w) /\
  poolMisses (statsOf (clearPool w)) = poolMisses (statsOf w) /\
  capacityOf (clearPool w) = capacityOf w.
Proof.
  unfold clearPool, trackedCount, nodesOf, statsOf, capacityOf.
  destruct (globalPool w) as [pool |] eqn:Hp.
  - destruct (clearPool_fold (nodes pool) w pool Hp eq_refl)
      as (pool' & H1 & H2 & H3 & H4 & H5 & H6 & H7 & H8).
    rewrite H1, H2, H3. unfold Map_size. cbn.
    repeat split; assumption.
  - rewrite Hp. repeat split; reflexivity.
Qed.

(** *** [cleanupPool] *)

Lemma filter_keys_incl (f : AudioNode * PooledNode -> bool) (l : NodeMap) (k : AudioNode) :
  In k (map fst (List.filter f l)) -> In k (map fst l).
Proof.
  rewrite !in_map_iff. intros (e & He & Hin). exists e. split; [exact He |].
  apply filter_In in Hin. tauto.
Qed.

Lemma cleanupPool_fold (now : Z) (l kept : NodeMap) (w : World)
    (pool : EnhancedAudioNodePool) :
  globalPool w = Some pool ->
  nodes pool = kept ++ l ->
  NoDup (map fst (kept ++ l)) ->
  exists pool',
    globalPool
      (fold_left
         (fun w (e : AudioNode * PooledNode) =>
            let '(n, metadata) := e in
            if negb (isActive metadata) && (60000 <? now - lastUsed metadata)
            then disposeNode n w else w) l w)
    = Some pool' /\
    nodes pool' = kept ++ List.filter (fun e => negb (expired now (snd e))) l /\
    config pool' = config pool /\
    disposed (stats pool')
    = disposed (stats pool)
      + Z.of_nat (List.length (List.filter (fun e => expired now (snd e)) l)) /\
    created (stats pool') = created (stats pool) /\
    reused (stats pool') = reused (stats pool) /\
    poolHits (stats pool') = poolHits (stats pool) /\
    poolMisses (stats pool') = poolMisses (stats pool).
Proof.
  revert kept w pool. induction l as [| [k v] r IH]; intros kept w pool Hp Hn Hd.
  - exists pool. simpl. repeat split; try assumption; lia.
  - cbn [fold_left List.filter snd].
    change (negb (isActive v) && (60000 <? now - lastUsed v)) with (expired now v).
    destruct (expired now v) eqn:Hsel; cbn [negb].
    + pose proof Hd as Hd0. rewrite map_app in Hd0. simpl in Hd0.
      pose proof (NoDup_remove_1 _ _ _ Hd0) as Hd1.
      pose proof (NoDup_remove_2 _ _ _ Hd0) as Hnk.
      assert (Hk : ~ In k (map fst kept)).
      { intros Hc. apply Hnk. apply in_or_app. now left. }
      destruct (disposeNode_pool k w) as [Hdp _]. rewrite Hp, Hn in Hdp.
      rewrite Map_get_app, Map_delete_app in Hdp by exact Hk.
      assert (Hd' : NoDup (map fst (kept ++ r)))
        by (rewrite map_app; exact Hd1).
      destruct (IH kept _ _ Hdp eq_refl Hd')
        as (pool' & H1 & H2 & H3 & H4 & H5 & H6 & H7 & H8).
      exists pool'. cbn in H3, H4, H5, H6, H7, H8.
      repeat split; try assumption.
      rewrite H4. cbn [List.length]. lia.
    + assert (Hn' : nodes pool = (kept ++ [(k, v)]) ++ r)
        by (rewrite <- app_assoc; exact Hn).
      assert (Hd' : NoDup (map fst ((kept ++ [(k, v)]) ++ r)))
        by (rewrite <- app_assoc; exact Hd).
      destruct (IH (kept ++ [(k, v)]) w pool Hp Hn' Hd')
        as (pool' & H1 & H2 & H3 & H4 & H5 & H6 & H7 & H8).
      exists pool'. repeat split; try assumption.
      rewrite H2, <- app_assoc. reflexivity.
Qed.

(** X3. [cleanupPool] removes exactly the tracked nodes that are idle and
    were last used more than 60000 ms before [now]: the others stay, in
    order, so an active node is never evicted and neither is a node used
    within the last minute.  Each eviction counts as [disposed]. *)
Theorem pool_cleanup_evicts_stale (w : World) (now : Z) (n : AudioNode) (m : PooledNode) :
  reachable w ->
  nodesOf (cleanupPool now w)
  = List.filter (fun e => negb (expired now (snd e))) (nodesOf w) /\
  disposed (statsOf (cleanupPool now w))
  = disposed (statsOf w)
    + Z.of_nat (List.length (List.filter (fun e => expired now (snd e)) (nodesOf w))) /\
  (In (n, m) (nodesOf w) -> isActive m = true -> In (n, m) (nodesOf (cleanupPool now w))) /\
  (In (n, m) (nodesOf w) -> now - lastUsed m <= 60000 ->
   In (n, m) (nodesOf (cleanupPool now w))) /\
  (In (n, m) (nodesOf w) -> isActive m = false -> 60000 < now - lastUsed m ->
   isNodeInPool n (cleanupPool now w) = false).
Proof.
  intros Hr. pose proof (reachable_wellFormed w Hr) as Hw.
  assert (Hmain :
    nodesOf (cleanupPool now w)
    = List.filter (fun e => negb (expired now (snd e))) (nodesOf w) /\
    disposed (statsOf (cleanupPool now w))
    = disposed (statsOf w)
      + Z.of_nat (List.length (List.filter (fun e => expired now (snd e)) (nodesOf w))) /\
    NoDup (map fst (nodesOf w))).
  { unfold cleanupPool, nodesOf, statsOf. unfold wellFormed in Hw.
    destruct (globalPool w) as [pool |] eqn:Hp.
    - destruct Hw as [Hd _].
      destruct (cleanupPool_fold now (nodes pool) [] w pool Hp eq_refl Hd)
        as (pool' & H1 & H2 & H3 & H4 & _).
      rewrite H1, H2, H4. repeat split; try reflexivity; exact Hd.
    - rewrite Hp. simpl. repeat split; constructor. }
  destruct Hmain as (Hnodes & Hdisp & Hd).
  split; [exact Hnodes |]. split; [exact Hdisp |].
  rewrite Hnodes. repeat split.
  - intros Hin Ha. apply filter_In. split; [exact Hin |].
    unfold expired; simpl. rewrite Ha. reflexivity.
  - intros Hin Hs. apply filter_In. split; [exact Hin |].
    unfold expired; simpl. replace (60000 <? now - lastUsed m) with false.
    + rewrite andb_false_r. reflexivity.
    + symmetry. apply Z.ltb_ge. exact Hs.
  - intros Hin Ha Hs. unfold isNodeInPool, Map_has.
    fold (nodesOf (cleanupPool now w)).
    assert (Hnone : Map_get n (nodesOf (cleanupPool now w)) = None).
    { apply Map_get_None. rewrite Hnodes. intros Hc.
      apply in_map_iff in Hc. destruct Hc as ([n' m'] & En & Hin').
      simpl in En. subst n'. apply filter_In in Hin'. destruct Hin' as [Hin' Hk].
      assert (m' = m).
      { apply (In_Map_get _ _ _ Hd) in Hin. apply (In_Map_get _ _ _ Hd) in Hin'.
        congruence. }
      subst m'. unfold expired in Hk; simpl in Hk. rewrite Ha in Hk.
      apply Z.ltb_lt in Hs. rewrite Hs in Hk. discriminate. }
    unfold nodesOf in Hnone. destruct (globalPool (cleanupPool now w));
      [rewrite Hnone |]; reflexivity.
Qed.

(** *** The four ways [getPooledNode] can go *)

Lemma getPooledNode_cases (ty : NodeType) (ctx : AudioContext)
    (options : option NodeOptions) (now : Z) (w : World) :
  let h := fst (getPooledNode ty ctx options now w) in
  let w' := snd (getPooledNode ty ctx options now w) in
  (* no pool, or pooling disabled *)
  ((globalPool w = None \/
    exists pool, globalPool w = Some pool /\ enablePooling (config pool) = false) /\
   h = freshNode w ty /\ globalPool w' = globalPool w /\
   nextNodeId w' = S (nextNodeId w)) \/
  (* hit *)
  (exists pool pre v post,
     globalPool w = Some pool /\ enablePooling (config pool) = true /\
     nodes pool = pre ++ (h, v) :: post /\ available ty v = true /\
     (forall k x, In (k, x) pre -> available ty x = false) /\
     globalPool w'
     = Some (withStats (hit (stats pool))
               (withNodes (pre ++ (h, markActive now v) :: post) pool)) /\
     nextNodeId w' = nextNodeId w) \/
  (* miss, registered *)
  (exists pool,
     globalPool w = Some pool /\ enablePooling (config pool) = true /\
     reuseFirst ty now (nodes pool) = None /\
     Map_size (nodes pool) < maxPoolSize (config pool) /\
     h = freshNode w ty /\
     globalPool w'
     = Some (withStats (countCreated (miss (stats pool)))
               (withNodes
                  (Map_set h {| node := h; type := ty; createdAt := now;
                                lastUsed := now; isActive := true |}
                     (nodes pool)) pool)) /\
     nextNodeId w' = S (nextNodeId w)) \/
  (* miss, at capacity *)
  (exists pool,
     globalPool w = Some pool /\ enablePooling (config pool) = true /\
     reuseFirst ty now (nodes pool) = None /\
     maxPoolSize (config pool) <= Map_size (nodes pool) /\
     h = freshNode w ty /\
     globalPool w' = Some (withStats (miss (stats pool)) pool) /\
     nextNodeId w' = S (nextNodeId w)).
Proof.
  cbv zeta. unfold getPooledNode.
  destruct (globalPool w) as [pool |] eqn:Hp.
  - destruct (enablePooling (config pool)) eqn:Hen; cbn [negb].
    + destruct (reuseFirst ty now (nodes pool)) as [[n nodes'] |] eqn:Er.
      * right; left. cbn [fst snd].
        destruct (reuseFirst_split _ _ _ _ _ Er)
          as (pre & v & post & Hn & Hn' & Hv & Hpre).
        exists pool, pre, v, post.
        destruct (resetNodeState_pool n ty ctx
                    (setPool (withStats (hit (stats pool)) (withNodes nodes' pool)) w))
          as [E1 E2].
        rewrite E1, E2. subst nodes'. repeat split; assumption.
      * destruct (createNewNode_spec ty ctx options
                    (setPool (withStats (miss (stats pool)) pool) w)) as [cs ->].
        cbn [nodes config withStats].
        destruct (Map_size (nodes pool) <? maxPoolSize (config pool)) eqn:Hlt.
        -- right; right; left. exists pool. cbn.
           apply Z.ltb_lt in Hlt. repeat split; assumption.
        -- right; right; right. exists pool. cbn.
           apply Z.ltb_ge in Hlt. repeat split; assumption.
    + left. destruct (createNewNode_spec ty ctx options w) as [cs ->]. cbn.
      split; [right; exists pool; split; [reflexivity | exact Hen] |].
      repeat split; assumption.
  - left. destruct (createNewNode_spec ty ctx options w) as [cs ->]. cbn.
    split; [left; reflexivity |]. repeat split; assumption.
Qed.

Lemma fold_left_preserves {A : Type} (P : World -> Prop)
    (f : World -> A -> World) (l : list A) :
  (forall w e, P w -> P (f w e)) -> forall w, P w -> P (fold_left f l w).
Proof.
  intros Hf. induction l as [| e r IH]; simpl; intros w Hw; [assumption |].
  apply IH, Hf, Hw.
Qed.

Lemma releaseNode_pool (n : AudioNode) (t : Z) (w : World) :
  globalPool (releaseNode n t w) =
  match globalPool w with
  | None => None
  | Some pool =>
      if enablePooling (config pool) then
        match Map_get n (nodes pool) with
        | Some _ => Some (withNodes (Map_mutate n (markIdle t) (nodes pool)) pool)
        | None => Some pool
        end
      else globalPool (disposeNode n w)
  end /\
  nextNodeId (releaseNode n t w) = nextNodeId w.
Proof.
  unfold releaseNode. destruct (globalPool w) as [pool |] eqn:Hp.
  - destruct (enablePooling (config pool)); cbn [negb].
    + destruct (Map_get n (nodes pool)) eqn:Hg; [split; reflexivity |].
      destruct (disposeNode_pool n w) as [-> ->]. rewrite Hp, Hg. split; reflexivity.
    + destruct (disposeNode_pool n w) as [_ ->]. split; reflexivity.
  - destruct (disposeNode_pool n w) as [-> ->]. rewrite Hp. split; reflexivity.
Qed.

Lemma Map_get_replace_other (x h : AudioNode) (v v' : PooledNode) (pre post : NodeMap) :
  x <> h ->
  Map_get x (pre ++ (h, v') :: post) = Map_get x (pre ++ (h, v) :: post).
Proof.
  intros Hx. induction pre as [| [k u] r IH]; simpl.
  - destruct (AudioNode_eq_dec h x); [congruence | reflexivity].
  - destruct (AudioNode_eq_dec k x); [reflexivity | exact IH].
Qed.

(** *** Nodes in use are never handed out *)

Lemma getPooledNode_inUse (ty : NodeType) (ctx : AudioContext)
    (options : option NodeOptions) (now : Z) (w : World) :
  wellFormed w ->
  inUse (snd (getPooledNode ty ctx options now w))
        (fst (getPooledNode ty ctx options now w)) /\
  forall x, inUse w x ->
    x <> fst (getPooledNode ty ctx options now w) /\
    inUse (snd (getPooledNode ty ctx options now w)) x.
Proof.
  intros Hw.
  pose proof (getPooledNode_cases ty ctx options now w) as Hc. cbv zeta in Hc.
  set (h := fst (getPooledNode ty ctx options now w)) in *.
  set (w' := snd (getPooledNode ty ctx options now w)) in *.
  assert (Hfresh : Map_get (freshNode w ty) (nodesOf w) = None).
  { unfold nodesOf. destruct (globalPool w) as [pool |] eqn:Hp; [| reflexivity].
    apply Map_get_None. apply (fresh_not_tracked w pool (Some ty) false Hw Hp). }
  unfold inUse.
  destruct Hc as [(_ & Hh & Hp' & Hn') | [Hc | [Hc | Hc]]].
  - (* no pooling *)
    assert (Hnodes : nodesOf w' = nodesOf w) by (unfold nodesOf; rewrite Hp'; reflexivity).
    rewrite Hnodes, Hn', Hh. split.
    + split; [simpl; lia |]. intros m Hm. rewrite Hfresh in Hm. discriminate.
    + intros x [Hx1 Hx2]. split; [| split; [lia | exact Hx2]].
      intros ->. simpl in Hx1. lia.
  - (* hit *)
    destruct Hc as (pool & pre & v & post & Hp & _ & Hn & Hv & _ & Hp' & Hn').
    pose proof Hw as Hw0. unfold wellFormed in Hw0. rewrite Hp in Hw0.
    destruct Hw0 as [Hd Hf]. rewrite Hn in Hd, Hf.
    assert (Hpre : ~ In h (map fst pre)).
    { rewrite map_app in Hd. simpl in Hd. apply NoDup_remove_2 in Hd.
      intros Hin. apply Hd. apply in_or_app. now left. }
    assert (Hid : (nodeId h < nextNodeId w)%nat).
    { rewrite Forall_forall in Hf. apply Hf. rewrite map_app. simpl.
      apply in_or_app. right. now left. }
    assert (Hnodes : nodesOf w = pre ++ (h, v) :: post)
      by (unfold nodesOf; rewrite Hp; exact Hn).
    assert (Hnodes' : nodesOf w' = pre ++ (h, markActive now v) :: post)
      by (unfold nodesOf; rewrite Hp'; reflexivity).
    rewrite Hnodes', Hn'. split.
    + split; [exact Hid |]. intros m Hm. rewrite Map_get_app in Hm by exact Hpre.
      injection Hm as <-. reflexivity.
    + intros x [Hx1 Hx2].
      assert (Hxh : x <> h).
      { intros ->. rewrite Hnodes, Map_get_app in Hx2 by exact Hpre.
        specialize (Hx2 v eq_refl). unfold available in Hv.
        rewrite Hx2, andb_false_r in Hv. discriminate. }
      split; [exact Hxh |]. split; [exact Hx1 |].
      intros m Hm. apply Hx2. rewrite Hnodes.
      rewrite (Map_get_replace_other x h v (markActive now v)) in Hm by exact Hxh.
      exact Hm.
  - (* miss, registered *)
    destruct Hc as (pool & Hp & _ & _ & _ & Hh & Hp' & Hn').
    assert (Hnodes : nodesOf w = nodes pool) by (unfold nodesOf; rewrite Hp; reflexivity).
    rewrite Hnodes in Hfresh.
    assert (Hnodes' : nodesOf w'
                      = nodes pool ++ [(h, {| node := h; type := ty; createdAt := now;
                                              lastUsed := now; isActive := true |})]).
    { unfold nodesOf. rewrite Hp'. cbn. apply Map_set_fresh.
      apply Map_get_None. rewrite Hh. exact Hfresh. }
    rewrite Hnodes', Hn'. split.
    + split; [rewrite Hh; simpl; lia |]. intros m Hm.
      rewrite Map_get_app in Hm
        by (apply Map_get_None; rewrite Hh; exact Hfresh).
      injection Hm as <-. reflexivity.
    + intros x [Hx1 Hx2].
      assert (Hxh : x <> h) by (intros ->; rewrite Hh in Hx1; simpl in Hx1; lia).
      split; [exact Hxh |]. split; [lia |].
      intros m Hm. apply Hx2. rewrite Hnodes.
      rewrite Map_get_app_other in Hm by exact Hxh. exact Hm.
  - (* miss, at capacity *)
    destruct Hc as (pool & Hp & _ & _ & _ & Hh & Hp' & Hn').
    assert (Hnodes : nodesOf w = nodes pool) by (unfold nodesOf; rewrite Hp; reflexivity).
    assert (Hnodes' : nodesOf w' = nodes pool) by (unfold nodesOf; rewrite Hp'; reflexivity).
    rewrite Hnodes in Hfresh. rewrite Hnodes', Hn', Hh. split.
    + split; [simpl; lia |]. intros m Hm. rewrite Hfresh in Hm. discriminate.
    + intros x [Hx1 Hx2]. rewrite Hnodes in Hx2.
      split; [| split; [lia | exact Hx2]].
      intros ->. simpl in Hx1. lia.
Qed.

Lemma createNodeBatch_inUse (ty : NodeType) (ctx : AudioContext)
    (options : option NodeOptions) (now : Z) (count : nat) :
  forall w, wellFormed w ->
    wellFormed (snd (createNodeBatch ty ctx count options now w)) /\
    List.length (fst (createNodeBatch ty ctx count options now w)) = count /\
    NoDup (fst (createNodeBatch ty ctx count options now w)) /\
    Forall (inUse (snd (createNodeBatch ty ctx count options now w)))
      (fst (createNodeBatch ty ctx count options now w)) /\
    forall x, inUse w x ->
      ~ In x (fst (createNodeBatch ty ctx count options now w)) /\
      inUse (snd (createNodeBatch ty ctx count options now w)) x.
Proof.
  induction count as [| count IH]; intros w Hw.
  - simpl. split; [exact Hw |]. split; [reflexivity |].
    split; [constructor |]. split; [constructor |].
    intros x Hx. split; [intros [] | exact Hx].
  - cbn [createNodeBatch].
    pose proof (getPooledNode_wellFormed ty ctx options now w Hw) as Hw1.
    destruct (getPooledNode_inUse ty ctx options now w Hw) as [Hh Hx].
    destruct (getPooledNode ty ctx options now w) as [h w1]. cbn [fst snd] in *.
    destruct (IH w1 Hw1) as (Hw2 & Hlen & Hnd & Hall & Hkeep).
    destruct (createNodeBatch ty ctx count options now w1) as [ns w2].
    cbn [fst snd] in *.
    destruct (Hkeep h Hh) as [Hnotin Hh2].
    split; [exact Hw2 |].
    split; [simpl; f_equal; exact Hlen |].
    split; [constructor; assumption |].
    split; [constructor; assumption |].
    intros x Hxu. destruct (Hx x Hxu) as [Hne Hx1].
    destruct (Hkeep x Hx1) as [Hn Hx2].
    split; [| exact Hx2].
    intros [e | Hin]; [congruence | tauto].
Qed.

(** X4. [createNodeBatch] returns as many nodes as asked for, all different,
    also when the request goes past the pool's capacity; and neither it nor
    [getPooledNode] ever hands out a node that is in use (an existing node
    that the pool does not hold as idle). *)
Theorem pool_batch_distinct (w : World) (ty : NodeType) (ctx : AudioContext)
    (count : nat) (options : option NodeOptions) (now : Z) (x : AudioNode) :
  reachable w ->
  List.length (fst (createNodeBatch ty ctx count options now w)) = count /\
  NoDup (fst (createNodeBatch ty ctx count options now w)) /\
  (inUse w x ->
   ~ In x (fst (createNodeBatch ty ctx count options now w)) /\
   x <> fst (getPooledNode ty ctx options now w)).
Proof.
  intros Hr. pose proof (reachable_wellFormed w Hr) as Hw.
  destruct (createNodeBatch_inUse ty ctx options now count w Hw)
    as (_ & Hlen & Hnd & _ & Hkeep).
  split; [exact Hlen |]. split; [exact Hnd |].
  intros Hx. split.
  - apply Hkeep. exact Hx.
  - apply (getPooledNode_inUse ty ctx options now w Hw). exact Hx.
Qed.

(** *** Capacity *)

Lemma Map_set_length_ge (k : AudioNode) (v : PooledNode) (m : NodeMap) :
  (List.length m <= List.length (Map_set k v m))%nat.
Proof.
  induction m as [| [k' v'] r IH]; simpl; [lia |].
  destruct (AudioNode_eq_dec k' k); simpl; lia.
Qed.

Lemma getPooledNode_capacity (ty : NodeType) (ctx : AudioContext)
    (options : option NodeOptions) (now : Z) (w : World) :
  trackedCount w <= trackedCount (snd (getPooledNode ty ctx options now w)) /\
  trackedCount (snd (getPooledNode ty ctx options now w))
  <= Z.max (trackedCount w) (capacityOf w) /\
  capacityOf (snd (getPooledNode ty ctx options now w)) = capacityOf w.
Proof.
  pose proof (getPooledNode_cases ty ctx options now w) as Hc. cbv zeta in Hc.
  unfold trackedCount, capacityOf.
  destruct Hc as [(_ & _ & Hp' & _) | [Hc | [Hc | Hc]]].
  - rewrite Hp'. destruct (globalPool w); repeat split; lia.
  - destruct Hc as (pool & pre & v & post & Hp & _ & Hn & _ & _ & Hp' & _).
    rewrite Hp', Hp. cbn. rewrite Hn. unfold Map_size. rewrite !length_app. cbn.
    repeat split; lia.
  - destruct Hc as (pool & Hp & _ & _ & Hlt & _ & Hp' & _).
    rewrite Hp', Hp. cbn. unfold Map_size in *.
    match goal with
    | |- context [Map_set ?k ?v ?m] =>
        pose proof (Map_set_length k v m); pose proof (Map_set_length_ge k v m)
    end.
    repeat split; lia.
  - destruct Hc as (pool & Hp & _ & _ & _ & _ & Hp' & _).
    rewrite Hp', Hp. cbn. repeat split; lia.
Qed.

(** X5. Acquiring never shrinks the pool and never grows it past its
    capacity: after [getPooledNode], and after a whole [createNodeBatch],
    the number of tracked nodes is at most the larger of what it was and
    [maxPoolSize]. *)
Theorem pool_capacity_bound (w : World) (ty : NodeType) (ctx : AudioContext)
    (count : nat) (options : option NodeOptions) (now : Z) :
  trackedCount w <= trackedCount (snd (getPooledNode ty ctx options now w)) /\
  trackedCount (snd (getPooledNode ty ctx options now w))
  <= Z.max (trackedCount w) (capacityOf w) /\
  trackedCount w <= trackedCount (snd (createNodeBatch ty ctx count options now w)) /\
  trackedCount (snd (createNodeBatch ty ctx count options now w))
  <= Z.max (trackedCount w) (capacityOf w).
Proof.
  destruct (getPooledNode_capacity ty ctx options now w) as (H1 & H2 & _).
  split; [exact H1 |]. split; [exact H2 |].
  clear H1 H2. revert w. induction count as [| count IH]; intros w.
  - simpl. lia.
  - cbn [createNodeBatch].
    destruct (getPooledNode_capacity ty ctx options now w) as (H1 & H2 & H3).
    destruct (getPooledNode ty ctx options now w) as [h w1]. cbn [snd] in *.
    specialize (IH w1).
    destruct (createNodeBatch ty ctx count options now w1) as [ns w2].
    cbn [snd] in *. lia.
Qed.

(** *** Invariants of the counters and of the node classes *)

Lemma Map_delete_In (k : AudioNode) (e : AudioNode * PooledNode) (m : NodeMap) :
  In e (Map_delete k m) -> In e m.
Proof.
  induction m as [| [k' v'] r IH]; simpl; [tauto |].
  destruct (AudioNode_eq_dec k' k); simpl; tauto.
Qed.

Lemma Map_mutate_In (k : AudioNode) (f : PooledNode -> PooledNode)
    (n : AudioNode) (m : PooledNode) (l : NodeMap) :
  In (n, m) (Map_mutate k f l) -> exists m0, In (n, m0) l /\ (m = m0 \/ m = f m0).
Proof.
  induction l as [| [k' v'] r IH]; simpl; [tauto |].
  destruct (AudioNode_eq_dec k' k) as [Ek | Ek]; simpl.
  - intros [e | Hin].
    + injection e as <- <-. exists v'. split; [now left | now right].
    + exists m. split; [now right | now left].
  - intros [e | Hin].
    + injection e as <- <-. exists v'. split; [now left | now left].
    + destruct (IH Hin) as (m0 & H1 & H2). exists m0. split; [now right | exact H2].
Qed.

Lemma Map_set_In (k : AudioNode) (v : PooledNode) (e : AudioNode * PooledNode)
    (l : NodeMap) :
  In e (Map_set k v l) -> e = (k, v) \/ In e l.
Proof.
  induction l as [| [k' v'] r IH]; simpl.
  - intros [e' | []]. left. congruence.
  - destruct (AudioNode_eq_dec k' k) as [-> | ne]; simpl.
    + intros [e' | Hin]; [left; congruence | right; now right].
    + intros [e' | Hin]; [right; now left |].
      destruct (IH Hin); [now left | right; now right].
Qed.

Lemma poolInvariant_of_pool (w w' : World) :
  (forall pool', globalPool w' = Some pool' ->
     poolHits (stats pool') = reused (stats pool') /\
     forall n m, In (n, m) (nodes pool') -> nodeClass n = Some (type m)) ->
  poolInvariant w'.
Proof.
  intros H. unfold poolInvariant, classesMatch, statsOf, nodesOf.
  destruct (globalPool w') as [pool' |]; [apply H; reflexivity |].
  split; [reflexivity | intros ? ? []].
Qed.

Lemma poolInvariant_pool (w : World) (pool : EnhancedAudioNodePool) :
  poolInvariant w -> globalPool w = Some pool ->
  poolHits (stats pool) = reused (stats pool) /\
  forall n m, In (n, m) (nodes pool) -> nodeClass n = Some (type m).
Proof.
  unfold poolInvariant, classesMatch, statsOf, nodesOf. intros H Hp.
  rewrite Hp in H. exact H.
Qed.

Lemma disposeNode_poolInvariant (n : AudioNode) (w : World) :
  poolInvariant w -> poolInvariant (disposeNode n w).
Proof.
  intros Hi. apply (poolInvariant_of_pool w). intros pool' Hp'.
  destruct (disposeNode_pool n w) as [Hd _]. rewrite Hd in Hp'.
  destruct (globalPool w) as [pool |] eqn:Hp; [| discriminate].
  destruct (poolInvariant_pool w pool Hi Hp) as [H1 H2].
  destruct (Map_get n (nodes pool)); injection Hp' as <-; cbn.
  - split; [exact H1 |]. intros k m Hin. apply H2. eapply Map_delete_In, Hin.
  - split; assumption.
Qed.

Lemma releaseNode_poolInvariant (n : AudioNode) (t : Z) (w : World) :
  poolInvariant w -> poolInvariant (releaseNode n t w).
Proof.
  intros Hi. apply (poolInvariant_of_pool w). intros pool' Hp'.
  destruct (releaseNode_pool n t w) as [Hr _]. rewrite Hr in Hp'.
  destruct (globalPool w) as [pool |] eqn:Hp; [| discriminate].
  destruct (poolInvariant_pool w pool Hi Hp) as [H1 H2].
  destruct (enablePooling (config pool)).
  - destruct (Map_get n (nodes pool)); injection Hp' as <-; cbn.
    + split; [exact H1 |]. intros k m Hin.
      apply Map_mutate_In in Hin. destruct Hin as (m0 & Hin & [-> | ->]);
        [apply H2, Hin | apply (H2 k m0 Hin)].
    + split; assumption.
  - apply (poolInvariant_pool (disposeNode n w) pool').
    + apply disposeNode_poolInvariant, Hi.
    + exact Hp'.
Qed.

Lemma getPooledNode_poolInvariant ty ctx options now (w : World) :
  poolInvariant w -> poolInvariant (snd (getPooledNode ty ctx options now w)).
Proof.
  intros Hi. apply (poolInvariant_of_pool w). intros pool' Hp'.
  pose proof (getPooledNode_cases ty ctx options now w) as Hc. cbv zeta in Hc.
  destruct Hc as [(_ & _ & Hq & _) | [Hc | [Hc | Hc]]].
  - rewrite Hq in Hp'. apply (poolInvariant_pool w pool' Hi Hp').
  - destruct Hc as (pool & pre & v & post & Hp & _ & Hn & Hv & _ & Hq & _).
    destruct (poolInvariant_pool w pool Hi Hp) as [H1 H2].
    rewrite Hq in Hp'. injection Hp' as <-. cbn. split; [lia |].
    intros k m Hin. apply in_app_or in Hin. destruct Hin as [Hin | [e | Hin]].
    + apply H2. rewrite Hn. apply in_or_app. now left.
    + injection e as <- <-. cbn. apply (H2 _ v). rewrite Hn.
      apply in_or_app. right. now left.
    + apply H2. rewrite Hn. apply in_or_app. right. now right.
  - destruct Hc as (pool & Hp & _ & _ & _ & Hh & Hq & _).
    destruct (poolInvariant_pool w pool Hi Hp) as [H1 H2].
    rewrite Hq in Hp'. injection Hp' as <-. cbn. split; [exact H1 |].
    intros k m Hin. apply Map_set_In in Hin. destruct Hin as [e | Hin].
    + injection e as -> ->. cbn. rewrite Hh. reflexivity.
    + apply H2, Hin.
  - destruct Hc as (pool & Hp & _ & _ & _ & _ & Hq & _).
    destruct (poolInvariant_pool w pool Hi Hp) as [H1 H2].
    rewrite Hq in Hp'. injection Hp' as <-. cbn. split; assumption.
Qed.

Lemma reachable_poolInvariant (w : World) : reachable w -> poolInvariant w.
Proof.
  induction 1 as [| c w _ IH | ty ctx options now w _ IH | n now w _ IH
                  | n w _ IH | now w _ IH | w _ IH | w _ IH | c w _ IH
                  | c port w _ IH].
  - split; [reflexivity | intros ? ? []].
  - unfold initializeNodePool.
    destruct (globalPool w) eqn:Hp; [exact IH |]. cbv zeta.
    apply (poolInvariant_of_pool w). intros pool' Hp'.
    destruct (enablePooling (mergeConfig DEFAULT_POOL_CONFIG c));
      cbn in Hp'; injection Hp' as <-; cbn; (split; [reflexivity | intros ? ? []]).
  - apply getPooledNode_poolInvariant, IH.
  - apply releaseNode_poolInvariant, IH.
  - apply disposeNode_poolInvariant, IH.
  - unfold cleanupPool. destruct (globalPool w) as [pool |]; [| exact IH].
    apply fold_left_preserves; [| exact IH].
    intros w' [k m] Hw'.
    destruct (negb (isActive m) && (60000 <? now - lastUsed m));
      [apply disposeNode_poolInvariant |]; exact Hw'.
  - unfold clearPool. destruct (globalPool w) as [pool |]; [| exact IH].
    apply fold_left_preserves; [| exact IH].
    intros w' e Hw'. apply disposeNode_poolInvariant, Hw'.
  - unfold resetPoolStats. destruct (globalPool w) as [pool |] eqn:Hp; [| exact IH].
    destruct (poolInvariant_pool w pool IH Hp) as [_ H2].
    apply (poolInvariant_of_pool w). intros pool' Hp'.
    cbn in Hp'. injection Hp' as <-. cbn. split; [reflexivity | exact H2].
  - unfold updatePoolConfig. destruct (globalPool w) as [pool |] eqn:Hp; [| exact IH].
    destruct (poolInvariant_pool w pool IH Hp) as [H1 H2].
    apply (poolInvariant_of_pool w). intros pool' Hp'.
    cbn in Hp'. injection Hp' as <-. cbn. split; assumption.
  - apply (poolInvariant_of_pool w). intros pool' Hp'. cbn in Hp'.
    apply (poolInvariant_pool w pool' IH Hp').
Qed.

(** X6. In every state the pool can reach, [poolHits] equals [reused]; and
    the node [getPooledNode] returns, reused or new, is of the class
    requested. *)
Theorem pool_reuse_counters_and_class (w : World) (ty : NodeType)
    (ctx : AudioContext) (options : option NodeOptions) (now : Z) :
  reachable w ->
  poolHits (statsOf w) = reused (statsOf w) /\
  nodeClass (fst (getPooledNode ty ctx options now w)) = Some ty /\
  instanceof (fst (getPooledNode ty ctx options now w)) ty = true.
Proof.
  intros Hr. destruct (reachable_poolInvariant w Hr) as [H1 H2].
  split; [exact H1 |].
  assert (Hc : nodeClass (fst (getPooledNode ty ctx options now w)) = Some ty).
  { pose proof (getPooledNode_cases ty ctx options now w) as Hc. cbv zeta in Hc.
    destruct Hc as [(_ & -> & _) | [Hc | [Hc | Hc]]]; [reflexivity | | |].
    - destruct Hc as (pool & pre & v & post & Hp & _ & Hn & Hv & _).
      unfold classesMatch, nodesOf in H2. rewrite Hp, Hn in H2.
      rewrite (H2 _ v) by (apply in_or_app; right; now left).
      unfold available in Hv. apply andb_true_iff in Hv. destruct Hv as [Hv _].
      apply internal_NodeType_dec_bl in Hv. congruence.
    - destruct Hc as (pool & _ & _ & _ & _ & -> & _). reflexivity.
    - destruct Hc as (pool & _ & _ & _ & _ & -> & _). reflexivity. }
  split; [exact Hc |]. unfold instanceof. rewrite Hc.
  apply internal_NodeType_dec_lb. reflexivity.
Qed.

(** *** [releaseNode] *)

Lemma Map_mutate_twice (k : AudioNode) (t t' : Z) (l : NodeMap) :
  Map_mutate k (markIdle t') (Map_mutate k (markIdle t) l)
  = Map_mutate k (markIdle t') l.
Proof.
  induction l as [| [k' v'] r IH]; simpl; [reflexivity |].
  destruct (AudioNode_eq_dec k' k) as [Ek | Ek]; simpl.
  - destruct (AudioNode_eq_dec k' k); [reflexivity | contradiction].
  - destruct (AudioNode_eq_dec k' k); [contradiction | now rewrite IH].
Qed.

(** X7. With pooling enabled, releasing a tracked node keeps it in the pool,
    idle and stamped with the release time; no other entry, no counter and
    not the number of tracked nodes changes, and of two releases in a row
    only the later time stamp remains. *)
Theorem pool_release_marks_idle (w : World) (n x : AudioNode) (m : PooledNode)
    (t t' : Z) :
  poolingEnabled w ->
  Map_get n (nodesOf w) = Some m ->
  Map_get n (nodesOf (releaseNode n t w))
  = Some {| node := node m; type := type m; createdAt := createdAt m;
            lastUsed := t; isActive := false |} /\
  (x <> n -> Map_get x (nodesOf (releaseNode n t w)) = Map_get x (nodesOf w)) /\
  statsOf (releaseNode n t w) = statsOf w /\
  trackedCount (releaseNode n t w) = trackedCount w /\
  globalPool (releaseNode n t' (releaseNode n t w)) = globalPool (releaseNode n t' w).
Proof.
  intros (pool & Hp & Hen) Hg.
  assert (Hr : forall s, globalPool (releaseNode n s w)
               = Some (withNodes (Map_mutate n (markIdle s) (nodes pool)) pool)).
  { intros s. destruct (releaseNode_pool n s w) as [-> _]. rewrite Hp, Hen.
    unfold nodesOf in Hg. rewrite Hp in Hg. rewrite Hg. reflexivity. }
  unfold nodesOf, statsOf, trackedCount in *. rewrite Hp in *.
  rewrite (Hr t). cbn [nodes withNodes stats].
  split; [rewrite Map_get_mutate_same, Hg; reflexivity |].
  split; [intros Hx; apply Map_get_mutate_other, Hx |].
  split; [reflexivity |].
  split.
  - unfold Map_size. rewrite <- (length_map fst (Map_mutate _ _ _)), Map_mutate_keys,
      length_map. reflexivity.
  - destruct (releaseNode_pool n t' (releaseNode n t w)) as [-> _].
    rewrite (Hr t), (Hr t'). cbn [config withNodes nodes]. rewrite Hen.
    rewrite Map_get_mutate_same, Hg. cbn [option_map].
    rewrite Map_mutate_twice. reflexivity.
Qed.

(** Releasing a node the pool does not track is the same as disposing
    of it, and neither touches the pool: its nodes, counters and
    configuration stay as they were. *)
Theorem pool_release_untracked (w : World) (n : AudioNode) (t : Z) :
  isNodeInPool n w = false ->
  releaseNode n t w = disposeNode n w /\
  globalPool (releaseNode n t w) = globalPool w.
Proof.
  intros Hin. unfold isNodeInPool, Map_has in Hin.
  assert (E : releaseNode n t w = disposeNode n w).
  { unfold releaseNode. destruct (globalPool w) as [pool |]; [| reflexivity].
    destruct (negb (enablePooling (config pool))); [reflexivity |].
    destruct (Map_get n (nodes pool)); [discriminate | reflexivity]. }
  split; [exact E |]. rewrite E.
  destruct (disposeNode_pool n w) as [-> _].
  destruct (globalPool w) as [pool |]; [| reflexivity].
  destruct (Map_get n (nodes pool)); [discriminate | reflexivity].
Qed.

(** X8. While pooling is switched off (or no pool exists), a node obtained
    from [getPooledNode] is new and untracked, and giving it back with
    [releaseNode] leaves nodes and counters as they were before the
    request. *)
Theorem pool_disabled_is_passthrough (w : World) (ty : NodeType)
    (ctx : AudioContext) (options : option NodeOptions) (now t : Z) :
  reachable w ->
  ~ poolingEnabled w ->
  fst (getPooledNode ty ctx options now w) = freshNode w ty /\
  isNodeInPool (fst (getPooledNode ty ctx options now w))
    (snd (getPooledNode ty ctx options now w)) = false /\
  globalPool (snd (getPooledNode ty ctx options now w)) = globalPool w /\
  globalPool (releaseNode (fst (getPooledNode ty ctx options now w)) t
                (snd (getPooledNode ty ctx options now w))) = globalPool w.
Proof.
  intros Hr Hoff. apply reachable_wellFormed in Hr.
  pose proof (getPooledNode_cases ty ctx options now w) as Hc. cbv zeta in Hc.
  destruct Hc as [(_ & Hh & Hq & _) | [Hc | [Hc | Hc]]].
  - assert (Hnot : isNodeInPool (fst (getPooledNode ty ctx options now w))
                     (snd (getPooledNode ty ctx options now w)) = false).
    { unfold isNodeInPool, Map_has. rewrite Hq, Hh.
      destruct (globalPool w) as [pool |] eqn:Hp; [| reflexivity].
      rewrite (proj2 (Map_get_None _ _)); [reflexivity |].
      apply (fresh_not_tracked w pool); assumption. }
    split; [exact Hh |]. split; [exact Hnot |]. split; [exact Hq |].
    destruct (releaseNode_pool (fst (getPooledNode ty ctx options now w)) t
                (snd (getPooledNode ty ctx options now w))) as [-> _].
    destruct (disposeNode_pool (fst (getPooledNode ty ctx options now w))
                (snd (getPooledNode ty ctx options now w))) as [-> _].
    unfold isNodeInPool, Map_has in Hnot. rewrite Hq in *.
    destruct (globalPool w) as [pool |]; [| reflexivity].
    destruct (Map_get _ (nodes pool)); [discriminate |].
    destruct (enablePooling (config pool)); reflexivity.
  - exfalso. apply Hoff. destruct Hc as (pool & _ & _ & _ & Hp & Hen & _).
    exists pool. split; assumption.
  - exfalso. apply Hoff. destruct Hc as (pool & Hp & Hen & _).
    exists pool. split; assumption.
  - exfalso. apply Hoff. destruct Hc as (pool & Hp & Hen & _).
    exists pool. split; assumption.
Qed.

(** *** Nodes created, disposed and tracked *)

Lemma balance_of_pool (w : World) (pool : EnhancedAudioNodePool) :
  globalPool w = Some pool ->
  balance w = created (stats pool) - disposed (stats pool)
              - Z.of_nat (List.length (nodes pool)).
Proof. intros Hp. unfold balance, statsOf, trackedCount. rewrite Hp. reflexivity. Qed.

Lemma balance_no_pool (w : World) : globalPool w = None -> balance w = 0.
Proof. intros Hp. unfold balance, statsOf, trackedCount. rewrite Hp. reflexivity. Qed.

Lemma disposeNode_balance (n : AudioNode) (w : World) :
  balance (disposeNode n w) = balance w.
Proof.
  destruct (disposeNode_pool n w) as [Hd _].
  destruct (globalPool w) as [pool |] eqn:Hp.
  - rewrite (balance_of_pool w pool Hp).
    destruct (Map_get n (nodes pool)) as [v |] eqn:Hg.
    + rewrite (balance_of_pool _ _ Hd). cbn.
      rewrite (Map_delete_length n v (nodes pool) Hg). lia.
    + rewrite (balance_of_pool _ _ Hd). reflexivity.
  - rewrite !balance_no_pool; [reflexivity | assumption | assumption].
Qed.

Lemma releaseNode_balance (n : AudioNode) (t : Z) (w : World) :
  balance (releaseNode n t w) = balance w.
Proof.
  destruct (releaseNode_pool n t w) as [Hr _].
  destruct (globalPool w) as [pool |] eqn:Hp.
  - destruct (enablePooling (config pool)).
    + rewrite (balance_of_pool w pool Hp).
      destruct (Map_get n (nodes pool)).
      * rewrite (balance_of_pool _ _ Hr). cbn.
        rewrite <- (length_map fst (Map_mutate _ _ _)), Map_mutate_keys, length_map.
        reflexivity.
      * rewrite (balance_of_pool _ _ Hr). reflexivity.
    + rewrite <- (disposeNode_balance n w).
      unfold balance, statsOf, trackedCount. rewrite Hr. reflexivity.
  - rewrite !balance_no_pool; [reflexivity | assumption | assumption].
Qed.

Lemma getPooledNode_balance ty ctx options now (w : World) :
  wellFormed w -> balance (snd (getPooledNode ty ctx options now w)) = balance w.
Proof.
  intros Hw.
  pose proof (getPooledNode_cases ty ctx options now w) as Hc. cbv zeta in Hc.
  destruct Hc as [(_ & _ & Hq & _) | [Hc | [Hc | Hc]]].
  - unfold balance, statsOf, trackedCount. rewrite Hq. reflexivity.
  - destruct Hc as (pool & pre & v & post & Hp & _ & Hn & _ & _ & Hq & _).
    rewrite (balance_of_pool _ _ Hq), (balance_of_pool _ _ Hp), Hn. cbn.
    rewrite !length_app. cbn. lia.
  - destruct Hc as (pool & Hp & _ & _ & _ & Hh & Hq & _).
    rewrite (balance_of_pool _ _ Hq), (balance_of_pool _ _ Hp). cbn.
    rewrite Map_set_fresh, length_app.
    + cbn. lia.
    + rewrite Hh. apply (fresh_not_tracked w pool); assumption.
  - destruct Hc as (pool & Hp & _ & _ & _ & _ & Hq & _).
    rewrite (balance_of_pool _ _ Hq), (balance_of_pool _ _ Hp). reflexivity.
Qed.

Lemma perform_reachable (c : PoolCall) (w : World) :
  reachable w -> reachable (perform w c).
Proof. intros Hr. destruct c; cbn [perform]; constructor; exact Hr. Qed.

Lemma perform_balance (c : PoolCall) (w : World) :
  isResetStats c = false -> wellFormed w -> balance (perform w c) = balance w.
Proof.
  intros Hc Hw. destruct c; cbn [perform]; try discriminate.
  - unfold initializeNodePool. destruct (globalPool w) eqn:Hp; [reflexivity |].
    cbv zeta. rewrite (balance_no_pool w Hp).
    destruct (enablePooling (mergeConfig DEFAULT_POOL_CONFIG c)); reflexivity.
  - apply getPooledNode_balance, Hw.
  - apply releaseNode_balance.
  - apply disposeNode_balance.
  - unfold cleanupPool. destruct (globalPool w) as [pool |]; [| reflexivity].
    apply (fold_left_preserves (fun w' => balance w' = balance w)); [| reflexivity].
    intros w' [k v] Hw'.
    destruct (negb (isActive v) && (60000 <? now - lastUsed v));
      [rewrite disposeNode_balance |]; exact Hw'.
  - unfold clearPool. destruct (globalPool w) as [pool |]; [| reflexivity].
    apply (fold_left_preserves (fun w' => balance w' = balance w)); [| reflexivity].
    intros w' e Hw'. rewrite disposeNode_balance. exact Hw'.
  - unfold updatePoolConfig. destruct (globalPool w) as [pool |] eqn:Hp; [| reflexivity].
    unfold balance, statsOf, trackedCount. rewrite Hp. reflexivity.
  - unfold balance, statsOf, trackedCount. reflexivity.
Qed.

(** X9. Over any run of calls from a freshly loaded module that never
    calls [resetPoolStats], the counters account for the nodes: [created]
    less [disposed] is the number of nodes the pool tracks. *)
Theorem pool_created_minus_disposed (cs : list PoolCall) :
  forallb (fun c => negb (isResetStats c)) cs = true ->
  created (statsOf (performAll cs emptyWorld))
  - disposed (statsOf (performAll cs emptyWorld))
  = trackedCount (performAll cs emptyWorld).
Proof.
  intros Hcs.
  enough (H : balance (performAll cs emptyWorld) = 0) by (unfold balance in H; lia).
  assert (G : forall w, reachable w -> balance w = 0 ->
                        balance (performAll cs w) = 0);
    [| apply G; [constructor | reflexivity]].
  unfold performAll. induction cs as [| c r IH]; intros w Hr Hb; [exact Hb |].
  cbn [fold_left forallb] in *. apply andb_true_iff in Hcs. destruct Hcs as [Hc Hcs].
  apply (IH Hcs).
  - apply perform_reachable, Hr.
  - rewrite perform_balance; [exact Hb | | apply reachable_wellFormed, Hr].
    destruct (isResetStats c); [discriminate | reflexivity].
Qed.

(** *** The properties above on the example pools *)

Lemma pool_cleanup_evicts_stale_witness :
  isNodeInPool PoolScenarios.gainNode (cleanupPool 70000 PoolScenarios.idleGainPool)
  = false /\
  isNodeInPool PoolScenarios.oscillatorNode
    (cleanupPool 70000 PoolScenarios.idleGainPool) = true /\
  disposed (statsOf (cleanupPool 70000 PoolScenarios.idleGainPool)) = 1.
Proof.
  destruct (pool_cleanup_evicts_stale PoolScenarios.idleGainPool 70000
              PoolScenarios.gainNode PoolScenarios.gainIdle)
    as (Hn & Hd & _ & _ & Hgone).
  - apply reach_release, reach_get, reach_get, reach_initialize, reach_start.
  - split; [apply Hgone; [right; left; reflexivity | reflexivity | reflexivity] |].
    split; [reflexivity | rewrite Hd; reflexivity].
Defined.

Lemma pool_batch_distinct_witness :
  List.length (fst (createNodeBatch gain PoolExamples.ctx0 40 None 30
                      PoolExamples.busyPool)) = 40%nat /\
  NoDup (fst (createNodeBatch gain PoolExamples.ctx0 40 None 30
                PoolExamples.busyPool)) /\
  ~ In PoolScenarios.gainNode
      (fst (createNodeBatch gain PoolExamples.ctx0 40 None 30 PoolExamples.busyPool)) /\
  PoolScenarios.gainNode
  <> fst (getPooledNode gain PoolExamples.ctx0 None 30 PoolExamples.busyPool).
Proof.
  destruct (pool_batch_distinct PoolExamples.busyPool gain PoolExamples.ctx0 40 None 30
              PoolScenarios.gainNode) as (Hlen & Hnd & Hx).
  - apply reach_get, reach_get, reach_initialize, reach_start.
  - split; [exact Hlen |]. split; [exact Hnd |]. apply Hx.
    split; [simpl; lia |].
    intros m Hm. vm_compute in Hm. injection Hm as <-. reflexivity.
Defined.

Lemma pool_reuse_counters_and_class_witness :
  poolHits (statsOf PoolScenarios.idleGainPool)
  = reused (statsOf PoolScenarios.idleGainPool) /\
  nodeClass (fst (getPooledNode gain PoolExamples.ctx0 None 200
                    PoolScenarios.idleGainPool)) = Some gain /\
  instanceof (fst (getPooledNode gain PoolExamples.ctx0 None 200
                     PoolScenarios.idleGainPool)) gain = true.
Proof.
  apply (pool_reuse_counters_and_class PoolScenarios.idleGainPool gain
           PoolExamples.ctx0 None 200).
  apply reach_release, reach_get, reach_get, reach_initialize, reach_start.
Defined.

Lemma pool_release_marks_idle_witness :
  Map_get PoolScenarios.gainNode
    (nodesOf (releaseNode PoolScenarios.gainNode 100 PoolExamples.busyPool))
  = Some PoolScenarios.gainIdle /\
  Map_get PoolScenarios.oscillatorNode
    (nodesOf (releaseNode PoolScenarios.gainNode 100 PoolExamples.busyPool))
  = Map_get PoolScenarios.oscillatorNode (nodesOf PoolExamples.busyPool) /\
  statsOf (releaseNode PoolScenarios.gainNode 100 PoolExamples.busyPool)
  = statsOf PoolExamples.busyPool /\
  trackedCount (releaseNode PoolScenarios.gainNode 100 PoolExamples.busyPool)
  = trackedCount PoolExamples.busyPool /\
  globalPool (releaseNode PoolScenarios.gainNode 150
                (releaseNode PoolScenarios.gainNode 100 PoolExamples.busyPool))
  = globalPool (releaseNode PoolScenarios.gainNode 150 PoolExamples.busyPool).
Proof.
  destruct (pool_release_marks_idle PoolExamples.busyPool PoolScenarios.gainNode
              PoolScenarios.oscillatorNode PoolScenarios.gainActive 100 150)
    as (H1 & H2 & H3 & H4 & H5).
  - eexists. split; reflexivity.
  - reflexivity.
  - split; [exact H1 |]. split; [apply H2; discriminate |].
    split; [exact H3 |]. split; [exact H4 | exact H5].
Defined.

Lemma pool_release_untracked_witness :
  releaseNode PoolScenarios.gainNode 5 PoolExamples.freshPool
  = disposeNode PoolScenarios.gainNode PoolExamples.freshPool /\
  globalPool (releaseNode PoolScenarios.gainNode 5 PoolExamples.freshPool)
  = globalPool PoolExamples.freshPool.
Proof.
  apply (pool_release_untracked PoolExamples.freshPool PoolScenarios.gainNode 5).
  reflexivity.
Defined.

Lemma pool_disabled_is_passthrough_witness :
  fst (getPooledNode gain PoolExamples.ctx0 None 10 PoolScenarios.pooledOff)
  = freshNode PoolScenarios.pooledOff gain /\
  isNodeInPool (fst (getPooledNode gain PoolExamples.ctx0 None 10 PoolScenarios.pooledOff))
    (snd (getPooledNode gain PoolExamples.ctx0 None 10 PoolScenarios.pooledOff)) = false /\
  globalPool (snd (getPooledNode gain PoolExamples.ctx0 None 10 PoolScenarios.pooledOff))
  = globalPool PoolScenarios.pooledOff /\
  globalPool
    (releaseNode (fst (getPooledNode gain PoolExamples.ctx0 None 10 PoolScenarios.pooledOff))
       20 (snd (getPooledNode gain PoolExamples.ctx0 None 10 PoolScenarios.pooledOff)))
  = globalPool PoolScenarios.pooledOff.
Proof.
  apply (pool_disabled_is_passthrough PoolScenarios.pooledOff gain PoolExamples.ctx0
           None 10 20).
  - apply reach_initialize, reach_start.
  - intros (pool & Hp & Hen). vm_compute in Hp. injection Hp as <-. discriminate.
Defined.

Lemma pool_created_minus_disposed_witness :
  created (statsOf (performAll PoolScenarios.session emptyWorld))
  - disposed (statsOf (performAll PoolScenarios.session emptyWorld))
  = trackedCount (performAll PoolScenarios.session emptyWorld).
Proof.
  apply (pool_created_minus_disposed PoolScenarios.session). reflexivity.
Defined.

End PoolMoreFacts.

(* ------------------------------------------------------------------ *)
(** ** MIDI messages *)

Section MidiMessageFacts.
Import MidiMessages.
Local Open Scope Z_scope.

Lemma nibble_cases (k : Z) :
  0 <= k < 16 ->
  k = 0 \/ k = 1 \/ k = 2 \/ k = 3 \/ k = 4 \/ k = 5 \/ k = 6 \/ k = 7 \/
  k = 8 \/ k = 9 \/ k = 10 \/ k = 11 \/ k = 12 \/ k = 13 \/ k = 14 \/ k = 15.
Proof. lia. Qed.

Lemma land_15 (z : Z) : Z.land z 15 = z mod 16.
Proof. change 15 with (Z.ones 4). rewrite Z.land_ones by lia. reflexivity. Qed.

Lemma land_127 (z : Z) : Z.land z 127 = z mod 128.
Proof. change 127 with (Z.ones 7). rewrite Z.land_ones by lia. reflexivity. Qed.

Ltac each_nibble k H :=
  destruct (nibble_cases k H)
    as [-> | [-> | [-> | [-> | [-> | [-> | [-> | [-> |
        [-> | [-> | [-> | [-> | [-> | [-> | [-> | ->]]]]]]]]]]]]]]].

(** The status byte [createMIDIMessage] builds for a channel message: it
    fits a byte, its high nibble is the type's and its low nibble the
    channel's. *)
Lemma status_byte (type : MIDIMessageType) (k : Z) :
  0 <= k < 16 ->
  Z.land (MIDI_STATUS_BYTES type) 0x0f = 0 ->
  Z.lor (MIDI_STATUS_BYTES type) k mod 256 = Z.lor (MIDI_STATUS_BYTES type) k /\
  Z.land (Z.lor (MIDI_STATUS_BYTES type) k) 0xf0 = MIDI_STATUS_BYTES type /\
  Z.land (Z.lor (MIDI_STATUS_BYTES type) k) 0x0f = k.
Proof.
  intros Hk Ht. each_nibble k Hk; destruct type; try discriminate Ht;
    repeat split; reflexivity.
Qed.

Lemma shiftLeft_byte (b : Z) : 0 <= b < 256 -> shiftLeft b 7 = 128 * b.
Proof.
  intros Hb. unfold shiftLeft, toInt32. change (Z.land 7 31) with 7.
  rewrite Z.shiftl_mul_pow2 by lia. change (2 ^ 7) with 128.
  rewrite Z.mod_small; lia.
Qed.

Lemma parse_create (type : MIDIMessageType) (channel d1 d2 : Z) :
  Z.land (MIDI_STATUS_BYTES type) 0x0f = 0 ->
  parseMIDIMessage (createMIDIMessage type channel [d1; d2])
  = parseMIDIMessage
      [MIDI_STATUS_BYTES type + (channel - 1) mod 16; d1 mod 256; d2 mod 256] /\
  Z.land (MIDI_STATUS_BYTES type + (channel - 1) mod 16) 0xf0 = MIDI_STATUS_BYTES type /\
  Z.land (MIDI_STATUS_BYTES type + (channel - 1) mod 16) 0x0f = (channel - 1) mod 16.
Proof.
  intros Ht. unfold createMIDIMessage, Uint8Array_from. cbn [map].
  change 0x0f with 15. rewrite land_15.
  assert (Hk : 0 <= (channel - 1) mod 16 < 16) by (apply Z.mod_pos_bound; lia).
  destruct (status_byte type _ Hk Ht) as (E1 & E2 & E3).
  assert (E : Z.lor (MIDI_STATUS_BYTES type) ((channel - 1) mod 16)
              = MIDI_STATUS_BYTES type + (channel - 1) mod 16).
  { revert Ht. generalize ((channel - 1) mod 16) Hk. intros k Hk' Ht.
    each_nibble k Hk'; destruct type; try discriminate Ht; reflexivity. }
  rewrite E in *. rewrite E1. repeat split; assumption.
Qed.

Lemma parse_create_pitch_bend (channel d1 d2 : Z) :
  1 <= channel <= 16 -> 0 <= d1 < 256 -> 0 <= d2 < 256 ->
  parseMIDIMessage (createMIDIMessage PITCH_BEND channel [d1; d2])
  = Some (MIDIPitchBendMessage channel (d1 + 128 * d2)).
Proof.
  intros Hc H1 H2.
  assert (Ek : (channel - 1) mod 16 + 1 = channel) by (rewrite Z.mod_small; lia).
  destruct (parse_create PITCH_BEND channel d1 d2 eq_refl) as (-> & E2 & E3).
  unfold parseMIDIMessage. rewrite E2, E3, Ek, !Z.mod_small by lia.
  cbn [MIDI_STATUS_BYTES Z.eqb orb]. rewrite shiftLeft_byte by lia. reflexivity.
Qed.

(** X10. A channel message built by [createMIDIMessage] comes back from
    [parseMIDIMessage]: for a channel in 1..16 and two data bytes, note-on,
    note-off and control-change messages give back type, channel and both
    bytes, and a pitch-bend message gives back the channel and the value
    [data1 + 128 * data2]. *)
Theorem midi_message_round_trip (channel d1 d2 : Z) :
  1 <= channel <= 16 -> isByte d1 -> isByte d2 ->
  parseMIDIMessage (createMIDIMessage NOTE_ON channel [d1; d2])
  = Some (MIDINoteMessage NOTE_ON channel d1 d2) /\
  parseMIDIMessage (createMIDIMessage NOTE_OFF channel [d1; d2])
  = Some (MIDINoteMessage NOTE_OFF channel d1 d2) /\
  parseMIDIMessage (createMIDIMessage CONTROL_CHANGE channel [d1; d2])
  = Some (MIDIControlChangeMessage channel d1 d2) /\
  parseMIDIMessage (createMIDIMessage PITCH_BEND channel [d1; d2])
  = Some (MIDIPitchBendMessage channel (d1 + 128 * d2)).
Proof.
  unfold isByte. intros Hc H1 H2.
  assert (Ek : (channel - 1) mod 16 + 1 = channel) by (rewrite Z.mod_small; lia).
  repeat split.
  - destruct (parse_create NOTE_ON channel d1 d2 eq_refl) as (-> & E2 & E3).
    unfold parseMIDIMessage. rewrite E2, E3, Ek, !Z.mod_small by lia. reflexivity.
  - destruct (parse_create NOTE_OFF channel d1 d2 eq_refl) as (-> & E2 & E3).
    unfold parseMIDIMessage. rewrite E2, E3, Ek, !Z.mod_small by lia. reflexivity.
  - destruct (parse_create CONTROL_CHANGE channel d1 d2 eq_refl) as (-> & E2 & E3).
    unfold parseMIDIMessage. rewrite E2, E3, Ek, !Z.mod_small by lia. reflexivity.
  - apply parse_create_pitch_bend; lia.
Qed.

Lemma midi_message_round_trip_witness :
  parseMIDIMessage (createMIDIMessage NOTE_ON 10 [60; 100])
  = Some (MIDINoteMessage NOTE_ON 10 60 100) /\
  parseMIDIMessage (createMIDIMessage NOTE_OFF 10 [60; 100])
  = Some (MIDINoteMessage NOTE_OFF 10 60 100) /\
  parseMIDIMessage (createMIDIMessage CONTROL_CHANGE 10 [60; 100])
  = Some (MIDIControlChangeMessage 10 60 100) /\
  parseMIDIMessage (createMIDIMessage PITCH_BEND 10 [60; 100])
  = Some (MIDIPitchBendMessage 10 (60 + 128 * 100)).
Proof.
  apply (midi_message_round_trip 10 60 100); unfold isByte; lia.
Defined.

(** X11. [createMIDIMessage] rejects nothing: a channel outside 1..16 is
    taken modulo 16 (17 becomes 1, 0 becomes 16) and a data value outside a
    byte modulo 256, so the message parsed back carries the reduced channel
    and data. *)
Theorem midi_create_wraps (channel d1 d2 : Z) :
  parseMIDIMessage (createMIDIMessage NOTE_ON channel [d1; d2])
  = Some (MIDINoteMessage NOTE_ON ((channel - 1) mod 16 + 1) (d1 mod 256) (d2 mod 256)) /\
  parseMIDIMessage (createMIDIMessage CONTROL_CHANGE channel [d1; d2])
  = Some (MIDIControlChangeMessage ((channel - 1) mod 16 + 1) (d1 mod 256)
            (d2 mod 256)) /\
  parseMIDIMessage (createMIDIMessage NOTE_ON 17 [d1; d2])
  = parseMIDIMessage (createMIDIMessage NOTE_ON 1 [d1; d2]) /\
  parseMIDIMessage (createMIDIMessage NOTE_ON 0 [d1; d2])
  = parseMIDIMessage (createMIDIMessage NOTE_ON 16 [d1; d2]) /\
  parseMIDIMessage (createMIDIMessage NOTE_ON channel [d1 + 256; d2])
  = parseMIDIMessage (createMIDIMessage NOTE_ON channel [d1; d2]).
Proof.
  assert (G : forall c a b,
    parseMIDIMessage (createMIDIMessage NOTE_ON c [a; b])
    = Some (MIDINoteMessage NOTE_ON ((c - 1) mod 16 + 1) (a mod 256) (b mod 256))).
  { intros c a b.
    destruct (parse_create NOTE_ON c a b eq_refl) as (-> & E2 & E3).
    unfold parseMIDIMessage. rewrite E2, E3. reflexivity. }
  split; [apply G |]. split.
  - destruct (parse_create CONTROL_CHANGE channel d1 d2 eq_refl) as (-> & E2 & E3).
    unfold parseMIDIMessage. rewrite E2, E3. reflexivity.
  - rewrite !G. repeat split.
    replace (d1 + 256) with (d1 + 1 * 256) by lia. rewrite Z.mod_add by lia.
    reflexivity.
Qed.

Lemma byte_land_15 (b : Z) : 0 <= Z.land b 0x0f < 16.
Proof. change 0x0f with 15. rewrite land_15. apply Z.mod_pos_bound. lia. Qed.

(** X12. [parseMIDIMessage] returns a message exactly when the array has at
    least three bytes and its status nibble is note-off, note-on, control
    change or pitch bend; every other array gives [null], among them program
    change and channel pressure, which [validateMIDIMessage] accepts.  A
    message it returns passed [validateMIDIMessage] and has its channel in
    1..16. *)
Theorem midi_parse_accepts (data : Uint8Array) (m : MIDIMessage) :
  (parseMIDIMessage data = None <->
   (List.length data < 3)%nat \/ parsedStatus (Z.land (hd 0 data) 0xf0) = false) /\
  (parseMIDIMessage data = Some m ->
   validateMIDIMessage data = true /\ 1 <= channelOf m <= 16) /\
  parseMIDIMessage [0xc0; 5] = None /\ validateMIDIMessage [0xc0; 5] = true.
Proof.
  split; [| split; [| split; reflexivity]].
  - destruct data as [| status [| d1 [| d2 rest]]]; cbn [parseMIDIMessage hd List.length].
    + split; [intros _; left; lia | reflexivity].
    + split; [intros _; left; lia | reflexivity].
    + split; [intros _; left; lia |]. intros _.
      destruct (_ || _); [reflexivity |].
      destruct (_ =? _); [reflexivity |]. destruct (_ =? _); reflexivity.
    + unfold parsedStatus. cbn [MIDI_STATUS_BYTES].
      destruct (Z.land status 0xf0 =? 0x90) eqn:E1;
      destruct (Z.land status 0xf0 =? 0x80) eqn:E2;
      destruct (Z.land status 0xf0 =? 0xb0) eqn:E3;
      destruct (Z.land status 0xf0 =? 0xe0) eqn:E4; cbn [orb];
      (split; [intros H; try discriminate H; right; reflexivity
              | intros [H | H]; [lia | try discriminate H; reflexivity]]).
  - destruct data as [| status [| d1 [| d2 rest]]]; cbn [parseMIDIMessage];
      try discriminate.
    + destruct (_ || _); [discriminate |].
      destruct (_ =? _); [discriminate |]. destruct (_ =? _); discriminate.
    + pose proof (byte_land_15 status) as Hb.
      unfold validateMIDIMessage. cbn [MIDI_STATUS_BYTES List.length].
      destruct (Z.land status 0xf0 =? 0x90) eqn:E1;
      destruct (Z.land status 0xf0 =? 0x80) eqn:E2;
      destruct (Z.land status 0xf0 =? 0xb0) eqn:E3;
      destruct (Z.land status 0xf0 =? 0xe0) eqn:E4; cbn [orb];
      intros H; try discriminate H; injection H as <-; cbn [channelOf];
      (split; [reflexivity || (apply Z.leb_le; lia) | lia]).
Qed.

Lemma midi_parse_accepts_witness :
  validateMIDIMessage [0x93; 60; 100] = true /\
  1 <= channelOf (MIDINoteMessage NOTE_ON 4 60 100) <= 16.
Proof.
  apply (proj1 (proj2 (midi_parse_accepts [0x93; 60; 100]
                         (MIDINoteMessage NOTE_ON 4 60 100)))).
  reflexivity.
Defined.


(** X13. A 14-bit pitch-bend value split into its low seven and high
    seven bits travels through [createMIDIMessage] and [parseMIDIMessage]
    unchanged, and the value parsed from two 7-bit data bytes is always a
    valid pitch bend; with a data byte above 127 it need not be. *)
Theorem midi_pitch_bend_14_bit (channel v d1 d2 : Z) :
  1 <= channel <= 16 -> 0 <= v <= 16383 ->
  0 <= d1 <= 127 -> 0 <= d2 <= 127 ->
  parseMIDIMessage
    (createMIDIMessage PITCH_BEND channel [Z.land v 0x7f; Z.shiftr v 7])
  = Some (MIDIPitchBendMessage channel v) /\
  isValidMIDIPitchBend (d1 + 128 * d2) = true /\
  parseMIDIMessage [0xe0; d1; d2] = Some (MIDIPitchBendMessage 1 (d1 + 128 * d2)) /\
  parseMIDIMessage [0xe0; 0; 0xff] = Some (MIDIPitchBendMessage 1 32640) /\
  isValidMIDIPitchBend 32640 = false.
Proof.
  intros Hc Hv H1 H2.
  split; [| split; [| split; [| split; reflexivity]]].
  - change 0x7f with 127. rewrite land_127, Z.shiftr_div_pow2 by lia.
    change (2 ^ 7) with 128.
    assert (Hlo : 0 <= v mod 128 < 128) by (apply Z.mod_pos_bound; lia).
    assert (Hhi : 0 <= v / 128 < 128).
    { split; [apply Z.div_pos; lia | apply Z.div_lt_upper_bound; lia]. }
    rewrite parse_create_pitch_bend by lia. do 2 f_equal. pose proof (Z.div_mod v 128). lia.
  - unfold isValidMIDIPitchBend. apply andb_true_iff.
    split; [apply Z.leb_le | apply Z.leb_le]; lia.
  - unfold parseMIDIMessage. cbn [MIDI_STATUS_BYTES Z.land Z.eqb orb Pos.land
      Pos.eqb Z.add Pos.add]. rewrite shiftLeft_byte by lia. reflexivity.
Qed.


Lemma midi_pitch_bend_14_bit_witness :
  parseMIDIMessage
    (createMIDIMessage PITCH_BEND 3 [Z.land 8192 0x7f; Z.shiftr 8192 7])
  = Some (MIDIPitchBendMessage 3 8192) /\
  isValidMIDIPitchBend (127 + 128 * 127) = true /\
  parseMIDIMessage [0xe0; 127; 127] = Some (MIDIPitchBendMessage 1 (127 + 128 * 127)) /\
  parseMIDIMessage [0xe0; 0; 0xff] = Some (MIDIPitchBendMessage 1 32640) /\
  isValidMIDIPitchBend 32640 = false.
Proof.
  apply (midi_pitch_bend_14_bit 3 8192 127 127); lia.
Defined.

End MidiMessageFacts.

(* ------------------------------------------------------------------ *)
(** ** Note names, velocity and ticks *)

Section NoteFacts.
Import JSMath JSString MidiUtils MidiScaling SignalScaling.

Lemma twelve_cases (k : Z) :
  (0 <= k < 12)%Z ->
  (k = 0 \/ k = 1 \/ k = 2 \/ k = 3 \/ k = 4 \/ k = 5 \/ k = 6 \/ k = 7 \/
   k = 8 \/ k = 9 \/ k = 10 \/ k = 11)%Z.
Proof. lia. Qed.

Lemma noteNames_index (k : Z) :
  (0 <= k < 12)%Z ->
  exists name, element noteNames k = Some name /\ noteNameToMidiNote name = k.
Proof.
  intros Hk.
  destruct (twelve_cases k Hk)
    as [-> | [-> | [-> | [-> | [-> | [-> | [-> | [-> | [-> | [-> | [-> | ->]]]]]]]]]]];
    eexists; split; reflexivity.
Qed.

(** X14. For a note number [n >= 0], [midiNoteToNoteName] gives one of the
    twelve names and [noteNameToMidiNote] maps that name back to [n mod 12];
    for a negative [n] that is not a multiple of 12 there is no name
    ([undefined]). *)
Theorem note_name_round_trip (n : Z) :
  ((0 <= n)%Z ->
   exists name, midiNoteToNoteName n = Some name /\
                noteNameToMidiNote name = (n mod 12)%Z) /\
  ((n < 0)%Z -> (n mod 12 <> 0)%Z -> midiNoteToNoteName n = None).
Proof.
  split.
  - intros Hn. unfold midiNoteToNoteName.
    rewrite Z.rem_mod_nonneg by lia.
    apply noteNames_index. apply Z.mod_pos_bound. lia.
  - intros Hn Hm. unfold midiNoteToNoteName, element.
    assert (Hr : (Z.rem n 12 < 0)%Z).
    { assert (Hb : (Z.rem n 12 <= 0)%Z).
      { pose proof (Z.rem_sign_mul n 12). nia. }
      assert (Z.rem n 12 <> 0)%Z; [| lia].
      intros E. apply Hm. apply Z.rem_divide in E; [| lia].
      apply Z.mod_divide; [lia | exact E]. }
    apply Z.ltb_lt in Hr. rewrite Hr. reflexivity.
Qed.

Lemma note_name_round_trip_witness :
  (exists name, midiNoteToNoteName 61 = Some name /\
                noteNameToMidiNote name = (61 mod 12)%Z) /\
  midiNoteToNoteName (-5) = None.
Proof.
  split.
  - apply (proj1 (note_name_round_trip 61)). lia.
  - apply (proj2 (note_name_round_trip (-5))); [lia | discriminate].
Defined.


(** The text [frequencyToNoteName] builds for the integer note it found. *)
Lemma frequencyToNoteName_midi (n : Z) :
  frequencyToNoteName (midiNoteToFrequency (IZR n))
  = (display (element noteNames (Z.rem n 12)) ++ Number_toString (n / 12 - 1))%string.
Proof.
  unfold frequencyToNoteName.
  assert (E : frequencyToMidiNote (midiNoteToFrequency (IZR n)) = IZR n).
  { unfold frequencyToMidiNote. rewrite log2_frequency_ratio.
    unfold MIDI.A4_MIDI_NOTE.
    replace (12 * ((IZR n - 69) / 12) + 69)%R with (IZR n) by field.
    apply Math_round_IZR. }
  rewrite E, Int_part_IZR. reflexivity.
Qed.

Lemma note_text_checked :
  forallb
    (fun k =>
       let n := Z.of_nat k in
       match noteToMidiNote
               (display (element noteNames (Z.rem n 12))
                ++ Number_toString (n / 12 - 1)) with
       | Some m => (m =? (if n <? 12 then 23 else n))%Z
       | None => false
       end)
    (seq 0 128) = true.
Proof. vm_compute. reflexivity. Qed.

(** X15. Naming the note of a frequency and reading the name back:
    for each MIDI note [n] from 12 to 127, [noteToMidiNote] of
    [frequencyToNoteName] of the note's frequency is [n] again.  For the
    notes 0 to 11, whose octave is printed as [-1], the sign is dropped with
    the name and the result is 23 whatever the note. *)
Theorem note_text_round_trip (n : Z) :
  (0 <= n <= 127)%Z ->
  noteToMidiNote (frequencyToNoteName (midiNoteToFrequency (IZR n)))
  = Some (if (n <? 12)%Z then 23%Z else n) /\
  noteToFrequency (frequencyToNoteName (midiNoteToFrequency (IZR n)))
  = Some (midiNoteToFrequency (IZR (if (n <? 12)%Z then 23%Z else n))).
Proof.
  intros Hn.
  assert (E : noteToMidiNote (frequencyToNoteName (midiNoteToFrequency (IZR n)))
              = Some (if (n <? 12)%Z then 23%Z else n)).
  { rewrite frequencyToNoteName_midi.
    pose proof note_text_checked as Hc. rewrite forallb_forall in Hc.
    specialize (Hc (Z.to_nat n)). rewrite Z2Nat.id in Hc by lia.
    cbv zeta in Hc.
    destruct (noteToMidiNote _) as [m |].
    - f_equal. apply Z.eqb_eq. apply Hc. apply in_seq. lia.
    - discriminate Hc. apply in_seq. lia. }
  split; [exact E |]. unfold noteToFrequency. rewrite E. reflexivity.
Qed.

Lemma note_text_round_trip_witness :
  noteToMidiNote (frequencyToNoteName (midiNoteToFrequency (IZR 61)))
  = Some (if (61 <? 12)%Z then 23%Z else 61%Z) /\
  noteToFrequency (frequencyToNoteName (midiNoteToFrequency (IZR 61)))
  = Some (midiNoteToFrequency (IZR (if (61 <? 12)%Z then 23%Z else 61%Z))).
Proof. apply (note_text_round_trip 61). lia. Defined.

Local Open Scope R_scope.

(** Velocity and gain: [gainToVelocity] undoes [velocityToGain] at
    every integer velocity, and a velocity in [0, 127] gives a gain in
    [0, 1], with 0 and 127 giving exactly 0 and 1. *)
Theorem velocity_gain_round_trip (v : Z) (x : R) :
  0 <= x <= 127 ->
  gainToVelocity (velocityToGain (IZR v)) = IZR v /\
  0 <= velocityToGain x <= 1 /\
  velocityToGain 0 = 0 /\ velocityToGain 127 = 1.
Proof.
  intros Hx. unfold gainToVelocity, velocityToGain.
  split.
  - replace (IZR v / 127 * 127) with (IZR v) by field. apply Math_round_IZR.
  - repeat split; lra.
Qed.

Lemma velocity_gain_round_trip_witness :
  gainToVelocity (velocityToGain (IZR 100)) = IZR 100 /\
  0 <= velocityToGain 64 <= 1 /\
  velocityToGain 0 = 0 /\ velocityToGain 127 = 1.
Proof. apply (velocity_gain_round_trip 100 64). lra. Defined.

(** X16. Ticks and seconds: for a tempo and a resolution other than zero,
    [secondsToTicks] undoes [ticksToSeconds] at every whole number of
    ticks, and one beat ([resolution] ticks) lasts [60 / tempo] seconds. *)
Theorem ticks_seconds_round_trip (ticks : Z) (tempo resolution : R) :
  tempo <> 0 -> resolution <> 0 ->
  secondsToTicks (ticksToSeconds (IZR ticks) tempo resolution) tempo resolution
  = IZR ticks /\
  ticksToSeconds resolution tempo resolution = 60 / tempo.
Proof.
  intros Ht Hr. unfold secondsToTicks, ticksToSeconds. split.
  - replace (IZR ticks / resolution * (60 / tempo) / (60 / tempo) * resolution)
      with (IZR ticks) by (field; split; assumption).
    apply Math_round_IZR.
  - field. split; assumption.
Qed.

Lemma ticks_seconds_round_trip_witness :
  secondsToTicks (ticksToSeconds (IZR 960) 120 480) 120 480 = IZR 960 /\
  ticksToSeconds 480 120 480 = 60 / 120.
Proof. apply (ticks_seconds_round_trip 960 120 480); lra. Defined.

End NoteFacts.

(* ------------------------------------------------------------------ *)
(** ** Time, modulation and volume scaling *)

Section ScalingFacts.
Import JSMath MidiUtils MidiScaling AudioScaling.
Local Open Scope R_scope.

Lemma Math_round_le (x y : R) : x <= y -> Math_round x <= Math_round y.
Proof.
  intros H. unfold Math_round. apply IZR_le.
  destruct (Z_le_gt_dec (Int_part (x + / 2)) (Int_part (y + / 2))) as [Hle | Hgt];
    [exact Hle | exfalso].
  destruct (base_Int_part (x + / 2)) as [Hx1 Hx2].
  destruct (base_Int_part (y + / 2)) as [Hy1 Hy2].
  assert (Hz : (Int_part (y + / 2) + 1 <= Int_part (x + / 2))%Z) by lia.
  apply IZR_le in Hz. rewrite plus_IZR in Hz. lra.
Qed.

Lemma Math_round_integer (x : R) : exists z : Z, Math_round x = IZR z.
Proof. eexists. reflexivity. Qed.

Lemma Math_round_close (x : R) : x - / 2 < Math_round x <= x + / 2.
Proof.
  unfold Math_round. destruct (base_Int_part (x + / 2)) as [H1 H2]. lra.
Qed.

Lemma Rpower_1_l (y : R) : Rpower 1 y = 1.
Proof. unfold Rpower. rewrite ln_1, Rmult_0_r. apply exp_0. Qed.

Lemma mapEnvelopeTime_Rpower (v : R) :
  mapEnvelopeTime v = 2 / 100 * Rpower 750 (v / 10).
Proof.
  unfold mapEnvelopeTime. replace (15 / (2 / 100)) with 750 by field.
  rewrite Math_pow_pos by lra. reflexivity.
Qed.

(** X17. [mapEnvelopeTime] maps the knob range onto the envelope times:
    0 gives 0.02 s, 10 gives 15 s, and a value in [0, 10] gives a time in
    [0.02, 15]; of two values in [0, 10] at least a thousandth apart, the
    larger gives the strictly longer time. *)
Theorem envelope_time_mapping (a b v : R) :
  0 <= a -> b <= 10 -> a + 1 / 1000 <= b -> 0 <= v <= 10 ->
  mapEnvelopeTime 0 = 2 / 100 /\
  mapEnvelopeTime 10 = 15 /\
  2 / 100 <= mapEnvelopeTime v <= 15 /\
  mapEnvelopeTime a < mapEnvelopeTime b.
Proof.
  intros _ _ Hab Hv.
  assert (H0 : mapEnvelopeTime 0 = 2 / 100).
  { rewrite mapEnvelopeTime_Rpower. replace (0 / 10) with 0 by field.
    rewrite Rpower_O by lra. lra. }
  assert (H10 : mapEnvelopeTime 10 = 15).
  { rewrite mapEnvelopeTime_Rpower. replace (10 / 10) with 1 by field.
    rewrite Rpower_1 by lra. lra. }
  assert (Hlt : forall x y, x < y -> mapEnvelopeTime x < mapEnvelopeTime y).
  { intros x y Hxy. rewrite !mapEnvelopeTime_Rpower.
    apply Rmult_lt_compat_l; [lra |]. apply Rpower_lt; lra. }
  assert (Hle : forall x y, x <= y -> mapEnvelopeTime x <= mapEnvelopeTime y).
  { intros x y [Hxy | ->]; [left; apply Hlt, Hxy | right; reflexivity]. }
  split; [exact H0 |]. split; [exact H10 |]. split.
  - split; [rewrite <- H0 | rewrite <- H10]; apply Hle; lra.
  - apply Hlt. lra.
Qed.

Lemma envelope_time_mapping_witness :
  mapEnvelopeTime 0 = 2 / 100 /\
  mapEnvelopeTime 10 = 15 /\
  2 / 100 <= mapEnvelopeTime 5 <= 15 /\
  mapEnvelopeTime 2 < mapEnvelopeTime 3.
Proof. apply (envelope_time_mapping 2 3 5); lra. Defined.

Lemma calculateGlideTime_Rpower (g : R) :
  calculateGlideTime g = Rpower 10 (g / 5) * (2 / 100).
Proof. unfold calculateGlideTime. rewrite Math_pow_pos by lra. reflexivity. Qed.

(** X18. [calculateGlideTime] is 0.02 s at 0 and 2 s at 10, stays within
    [0.02, 2] on [0, 10], and of two values in [0, 10] at least a thousandth
    apart the larger gives the strictly longer glide; [calculateVolume]
    never exceeds 1 and below that is [volume / 10 * volumeBoost]. *)
Theorem glide_time_and_volume (a b g volume volumeBoost : R) :
  0 <= a -> b <= 10 -> a + 1 / 1000 <= b -> 0 <= g <= 10 ->
  calculateGlideTime 0 = 2 / 100 /\
  calculateGlideTime 10 = 2 /\
  2 / 100 <= calculateGlideTime g <= 2 /\
  calculateGlideTime a < calculateGlideTime b /\
  calculateVolume volume volumeBoost <= 1 /\
  (volume / 10 * volumeBoost <= 1 ->
   calculateVolume volume volumeBoost = volume / 10 * volumeBoost).
Proof.
  intros _ _ Hab Hg.
  assert (H0 : calculateGlideTime 0 = 2 / 100).
  { rewrite calculateGlideTime_Rpower. replace (0 / 5) with 0 by field.
    rewrite Rpower_O by lra. lra. }
  assert (H10 : calculateGlideTime 10 = 2).
  { rewrite calculateGlideTime_Rpower. replace (10 / 5) with (1 + 1) by field.
    rewrite Rpower_plus, Rpower_1 by lra. lra. }
  assert (Hlt : forall x y, x < y -> calculateGlideTime x < calculateGlideTime y).
  { intros x y Hxy. rewrite !calculateGlideTime_Rpower.
    apply Rmult_lt_compat_r; [lra |]. apply Rpower_lt; lra. }
  assert (Hle : forall x y, x <= y -> calculateGlideTime x <= calculateGlideTime y).
  { intros x y [Hxy | ->]; [left; apply Hlt, Hxy | right; reflexivity]. }
  split; [exact H0 |]. split; [exact H10 |]. split.
  { split; [rewrite <- H0 | rewrite <- H10]; apply Hle; lra. }
  split; [apply Hlt; lra |].
  unfold calculateVolume, Math_min. split.
  - apply Rmin_l.
  - intros Hv. apply Rmin_right. exact Hv.
Qed.

Lemma glide_time_and_volume_witness :
  calculateGlideTime 0 = 2 / 100 /\
  calculateGlideTime 10 = 2 /\
  2 / 100 <= calculateGlideTime 7 <= 2 /\
  calculateGlideTime 1 < calculateGlideTime 2 /\
  calculateVolume 8 2 <= 1 /\
  (8 / 10 * 2 <= 1 -> calculateVolume 8 2 = 8 / 10 * 2).
Proof. apply (glide_time_and_volume 1 2 7 8 2); lra. Defined.

(** *** [expScale] *)

(** The curve before rounding. *)
Lemma expScale_unfold (value : R) :
  expScale value
  = Math_round
      ((if Rlt_dec (value / 127) (3 / 10) then value / 127
        else 3 / 10 + Math_pow ((value / 127 - 3 / 10) / (7 / 10)) (15 / 10) * (7 / 10))
       * 100).
Proof.
  unfold expScale. destruct (Rlt_dec (value / 127) (3 / 10)); [| reflexivity].
  f_equal. field.
Qed.

Lemma Math_pow_15_nonneg (x : R) : 0 <= Math_pow x (15 / 10).
Proof.
  unfold Math_pow.
  destruct (Req_dec_T (15 / 10) (IZR (Int_part (15 / 10)))) as [e | _].
  - exfalso. assert (E : Int_part (15 / 10) = 1%Z)
      by (symmetry; apply Int_part_spec; lra).
    rewrite E in e. lra.
  - destruct (Rlt_dec 0 x); [| lra]. left. apply exp_pos.
Qed.

Lemma Math_pow_15_le (x y : R) :
  0 <= x <= y -> Math_pow x (15 / 10) <= Math_pow y (15 / 10).
Proof.
  intros [Hx Hxy]. destruct Hx as [Hx | <-].
  - rewrite !Math_pow_pos by lra. apply Rle_Rpower_l; lra.
  - rewrite Math_pow_0_l by lra. apply Math_pow_15_nonneg.
Qed.

Lemma expScale_curve_le (a b : R) :
  a <= b ->
  (if Rlt_dec (a / 127) (3 / 10) then a / 127
   else 3 / 10 + Math_pow ((a / 127 - 3 / 10) / (7 / 10)) (15 / 10) * (7 / 10))
  <= (if Rlt_dec (b / 127) (3 / 10) then b / 127
      else 3 / 10 + Math_pow ((b / 127 - 3 / 10) / (7 / 10)) (15 / 10) * (7 / 10)).
Proof.
  intros Hab.
  destruct (Rlt_dec (a / 127) (3 / 10)) as [Ha | Ha],
           (Rlt_dec (b / 127) (3 / 10)) as [Hb | Hb].
  - lra.
  - pose proof (Math_pow_15_nonneg ((b / 127 - 3 / 10) / (7 / 10))). lra.
  - lra.
  - assert (H : Math_pow ((a / 127 - 3 / 10) / (7 / 10)) (15 / 10)
                <= Math_pow ((b / 127 - 3 / 10) / (7 / 10)) (15 / 10)).
    { apply Math_pow_15_le. lra. }
    lra.
Qed.

(** X19. [expScale] maps 0 to 0 and 127 to 100 and stays within [0, 100]
    on [0, 127]; on the whole control values 0..127 it never decreases, and
    on those below the knee (0..38) it is the plain percentage
    [round (value / 127 * 100)]. *)
Theorem expScale_range_and_order (a b z : Z) (v : R) :
  (0 <= a <= b)%Z -> (b <= 127)%Z -> (0 <= z <= 38)%Z -> 0 <= v <= 127 ->
  expScale 0 = 0 /\
  expScale 127 = 100 /\
  0 <= expScale v <= 100 /\
  expScale (IZR a) <= expScale (IZR b) /\
  expScale (IZR z) = Math_round (IZR z / 127 * 100).
Proof.
  intros Hab _ Hz Hv.
  assert (H0 : expScale 0 = 0).
  { rewrite expScale_unfold. destruct (Rlt_dec (0 / 127) (3 / 10)); [| lra].
    replace (0 / 127 * 100) with (IZR 0) by (simpl; field). apply Math_round_IZR. }
  assert (H127 : expScale 127 = 100).
  { rewrite expScale_unfold. destruct (Rlt_dec (127 / 127) (3 / 10)); [lra |].
    replace ((127 / 127 - 3 / 10) / (7 / 10)) with 1 by field.
    rewrite Math_pow_pos, Rpower_1_l by lra.
    replace ((3 / 10 + 1 * (7 / 10)) * 100) with (IZR 100) by (simpl; field).
    apply Math_round_IZR. }
  assert (Hle : forall x y, x <= y -> expScale x <= expScale y).
  { intros x y Hxy. rewrite !expScale_unfold. apply Math_round_le.
    apply Rmult_le_compat_r; [lra |]. apply expScale_curve_le, Hxy. }
  split; [exact H0 |]. split; [exact H127 |]. split.
  { split; [rewrite <- H0 | rewrite <- H127]; apply Hle; lra. }
  split; [apply Hle, IZR_le; lia |].
  rewrite expScale_unfold.
  destruct Hz as [Hz1 Hz2]. apply IZR_le in Hz1, Hz2.
  destruct (Rlt_dec (IZR z / 127) (3 / 10)); [reflexivity | lra].
Qed.

Lemma expScale_range_and_order_witness :
  expScale 0 = 0 /\
  expScale 127 = 100 /\
  0 <= expScale 64 <= 100 /\
  expScale (IZR 20) <= expScale (IZR 90) /\
  expScale (IZR 30) = Math_round (IZR 30 / 127 * 100).
Proof. apply (expScale_range_and_order 20 90 30 64); try lia; lra. Defined.

(** [clampMIDIValue] rounds before it clamps: with bounds
    [min <= max] the result lies between them; with the default bounds 0
    and 127 it is a whole number in that range, and a whole number already
    in range is returned as it is. *)
Theorem clampMIDIValue_range (value lo hi : R) (z : Z) :
  lo <= hi -> (0 <= z <= 127)%Z ->
  lo <= clampMIDIValue value lo hi <= hi /\
  (exists k : Z, (0 <= k <= 127)%Z /\ clampMIDIValue value 0 127 = IZR k) /\
  clampMIDIValue (IZR z) 0 127 = IZR z.
Proof.
  intros Hlh Hz. unfold clampMIDIValue, Math_max, Math_min.
  split; [| split].
  - unfold Rmax, Rmin.
    destruct (Rle_dec hi (Math_round value)); destruct (Rle_dec lo _); lra.
  - unfold Math_round. set (k := Int_part (value + / 2)).
    destruct (Z_le_gt_dec k 127) as [H1 | H1]; destruct (Z_le_gt_dec 0 k) as [H2 | H2].
    + exists k. split; [lia |]. apply IZR_le in H1, H2.
      rewrite Rmin_right, Rmax_right by lra. reflexivity.
    + exists 0%Z. split; [lia |].
      assert (IZR k <= 0) by (apply IZR_le; lia). apply IZR_le in H1.
      rewrite Rmin_right, Rmax_left by lra. reflexivity.
    + exists 127%Z. split; [lia |].
      assert (127 <= IZR k) by (apply IZR_le; lia).
      rewrite Rmin_left, Rmax_right by lra. reflexivity.
    + lia.
  - rewrite Math_round_IZR. destruct Hz as [Hz1 Hz2]. apply IZR_le in Hz1, Hz2.
    rewrite Rmin_right, Rmax_right by lra. reflexivity.
Qed.

Lemma clampMIDIValue_range_witness :
  -1 <= clampMIDIValue 300 (-1) 1 <= 1 /\
  (exists k : Z, (0 <= k <= 127)%Z /\ clampMIDIValue 300 0 127 = IZR k) /\
  clampMIDIValue (IZR 64) 0 127 = IZR 64.
Proof. apply (clampMIDIValue_range 300 (-1) 1 64); [lra | lia]. Defined.

End ScalingFacts.

(* ------------------------------------------------------------------ *)
(** ** The signal utilities *)

Section SignalFacts.
Import JSMath MidiUtils SignalUtils SignalScaling.
Local Open Scope R_scope.

Lemma Math_log2_Rpower (x : R) : Math_log2 (Rpower 2 x) = x.
Proof.
  unfold Math_log2, Rpower. rewrite ln_exp. field.
  pose proof ln2_pos. lra.
Qed.

Lemma Rpower_2_log2 (x : R) : 0 < x -> Rpower 2 (Math_log2 x) = x.
Proof.
  intros Hx. unfold Math_log2, Rpower.
  replace (ln x / ln 2 * ln 2) with (ln x) by (field; pose proof ln2_pos; lra).
  apply exp_ln, Hx.
Qed.

(** Over the real numbers the two cents functions are exact inverses. *)
Lemma cents_round_trip_exact (f g c : R) :
  0 < f -> 0 < g ->
  calculateCents (applyCents f c) f = c /\
  applyCents f (calculateCents g f) = g /\
  applyCents f 1200 = 2 * f /\
  applyCents f 0 = f.
Proof.
  intros Hf Hg. unfold calculateCents, applyCents.
  rewrite !Math_pow_pos by lra. repeat split.
  - replace (f * Rpower 2 (c / 1200) / f) with (Rpower 2 (c / 1200)) by (field; lra).
    rewrite Math_log2_Rpower. field.
  - replace (1200 * Math_log2 (g / f) / 1200) with (Math_log2 (g / f)) by field.
    rewrite Rpower_2_log2 by (apply Rdiv_lt_0_compat; assumption). field. lra.
  - replace (1200 / 1200) with 1 by field. rewrite Rpower_1 by lra. ring.
  - replace (0 / 1200) with 0 by field. rewrite Rpower_O by lra. ring.
Qed.

Lemma Rabs_same (x y tol : R) : x = y -> 0 <= tol -> Rabs (x - y) <= tol.
Proof. intros -> Ht. rewrite Rminus_diag, Rabs_R0. exact Ht. Qed.

(** X20. Cents, on audio frequencies (20 Hz to 20 kHz) and up to ten
    octaves of cents: [calculateCents] measures the cents [applyCents]
    applied to within 1e-9 cent, and applying the cents measured between two
    frequencies to the reference gives the other to within 1e-6 Hz; 1200
    cents double a frequency and 0 cents leave it. *)
Theorem cents_round_trip (f g c : R) :
  20 <= f <= 20000 -> 20 <= g <= 20000 -> -12000 <= c <= 12000 ->
  Rabs (calculateCents (applyCents f c) f - c) <= 1e-9 /\
  Rabs (applyCents f (calculateCents g f) - g) <= 1e-6 /\
  applyCents f 1200 = 2 * f /\
  applyCents f 0 = f.
Proof.
  intros Hf Hg _.
  destruct (cents_round_trip_exact f g c) as (E1 & E2 & E3 & E4); [lra | lra |].
  split; [apply Rabs_same; [exact E1 | lra] |].
  split; [apply Rabs_same; [exact E2 | lra] |].
  split; assumption.
Qed.

Lemma cents_round_trip_witness :
  Rabs (calculateCents (applyCents 440 50) 440 - 50) <= 1e-9 /\
  Rabs (applyCents 440 (calculateCents 880 440) - 880) <= 1e-6 /\
  applyCents 440 1200 = 2 * 440 /\
  applyCents 440 0 = 440.
Proof. apply (cents_round_trip 440 880 50); lra. Defined.

Lemma Int_part_frac (x : R) (z : Z) : IZR z < x < IZR z + 1 -> x <> IZR (Int_part x).
Proof.
  intros H E. assert (Ez : Int_part x = z) by (symmetry; apply Int_part_spec; lra).
  rewrite Ez in E. lra.
Qed.

(** [Math.pow] with a positive exponent that is not a whole number. *)
Lemma Math_pow_frac (x y : R) :
  y <> IZR (Int_part y) -> 0 < y -> 0 <= x ->
  (x = 0 -> Math_pow x y = 0) /\ (0 < x -> Math_pow x y = Rpower x y) /\
  0 <= Math_pow x y.
Proof.
  intros Hy Hpos Hx. unfold Math_pow.
  destruct (Req_dec_T y (IZR (Int_part y))) as [e | _]; [contradiction |].
  destruct (Rlt_dec 0 x) as [Hlt | Hn].
  - repeat split; [lra | left; apply exp_pos].
  - repeat split; [lra | lra].
Qed.

Lemma Math_pow_inverse (x p q : R) :
  p <> IZR (Int_part p) -> q <> IZR (Int_part q) -> 0 < p -> 0 < q ->
  p * q = 1 -> 0 <= x ->
  Math_pow (Math_pow x p) q = x.
Proof.
  intros Hp Hq Hp0 Hq0 Hpq Hx.
  destruct (Math_pow_frac x p Hp Hp0 Hx) as (H0 & H1 & _).
  destruct Hx as [Hx | <-].
  - rewrite (H1 Hx).
    destruct (Math_pow_frac (Rpower x p) q Hq Hq0) as (_ & H2 & _);
      [left; apply exp_pos |].
    rewrite H2 by apply exp_pos.
    rewrite Rpower_mult, Hpq. apply Rpower_1, Hx.
  - rewrite (H0 eq_refl).
    destruct (Math_pow_frac 0 q Hq Hq0) as (H2 & _); [lra |].
    apply H2. reflexivity.
Qed.

Lemma frac_15 : 15 / 10 <> IZR (Int_part (15 / 10)).
Proof. apply (Int_part_frac _ 1). lra. Qed.

Lemma frac_10_15 : 1 / (15 / 10) <> IZR (Int_part (1 / (15 / 10))).
Proof. apply (Int_part_frac _ 0). lra. Qed.

Lemma frac_12 : 12 / 10 <> IZR (Int_part (12 / 10)).
Proof. apply (Int_part_frac _ 1). lra. Qed.

Lemma frac_10_12 : 1 / (12 / 10) <> IZR (Int_part (1 / (12 / 10))).
Proof. apply (Int_part_frac _ 0). lra. Qed.

(** Over the real numbers the two gain functions are exact inverses. *)
Lemma volume_gain_round_trip_exact (v g maxVolume : R) :
  0 < maxVolume -> 0 <= v -> 0 <= g ->
  logGainToLinear (linearToLogGain v maxVolume) maxVolume = v /\
  linearToLogGain (logGainToLinear g maxVolume) maxVolume = g /\
  linearToLogGain 0 maxVolume = 0 /\
  linearToLogGain maxVolume maxVolume = 1.
Proof.
  intros Hm Hv Hg. unfold logGainToLinear, linearToLogGain.
  assert (Hn : 0 <= v / maxVolume).
  { apply Rmult_le_pos; [exact Hv | left; apply Rinv_0_lt_compat, Hm]. }
  repeat split.
  - rewrite (Math_pow_inverse _ _ _ frac_15 frac_10_15) by lra. field. lra.
  - replace (Math_pow g (1 / (15 / 10)) * maxVolume / maxVolume)
      with (Math_pow g (1 / (15 / 10))) by (field; lra).
    apply (Math_pow_inverse _ _ _ frac_10_15 frac_15); lra.
  - replace (0 / maxVolume) with 0 by (field; lra). apply Math_pow_0_l. lra.
  - replace (maxVolume / maxVolume) with 1 by (field; lra).
    rewrite Math_pow_pos by lra. unfold Rpower. rewrite ln_1, Rmult_0_r. apply exp_0.
Qed.

(** X21. Volume and gain, for a [maxVolume] between 0.001 and 1000:
    [logGainToLinear] undoes [linearToLogGain] on a volume in
    [0, maxVolume] and [linearToLogGain] undoes [logGainToLinear] on a gain
    in [0, 1], both to within 1e-9; volume 0 gives gain 0 and [maxVolume]
    gives gain 1. *)
Theorem volume_gain_round_trip (v g maxVolume : R) :
  1 / 1000 <= maxVolume <= 1000 -> 0 <= v <= maxVolume -> 0 <= g <= 1 ->
  Rabs (logGainToLinear (linearToLogGain v maxVolume) maxVolume - v) <= 1e-9 /\
  Rabs (linearToLogGain (logGainToLinear g maxVolume) maxVolume - g) <= 1e-9 /\
  linearToLogGain 0 maxVolume = 0 /\
  linearToLogGain maxVolume maxVolume = 1.
Proof.
  intros Hm Hv Hg.
  destruct (volume_gain_round_trip_exact v g maxVolume) as (E1 & E2 & E3 & E4);
    [lra | lra | lra |].
  split; [apply Rabs_same; [exact E1 | lra] |].
  split; [apply Rabs_same; [exact E2 | lra] |].
  split; assumption.
Qed.

Lemma volume_gain_round_trip_witness :
  Rabs (logGainToLinear (linearToLogGain 4 10) 10 - 4) <= 1e-9 /\
  Rabs (linearToLogGain (logGainToLinear (1 / 2) 10) 10 - 1 / 2) <= 1e-9 /\
  linearToLogGain 0 10 = 0 /\
  linearToLogGain 10 10 = 1.
Proof. apply (volume_gain_round_trip 4 (1 / 2) 10); lra. Defined.

(** Over the real numbers [fromMusicalScale] undoes [toMusicalScale]. *)
Lemma musical_scale_round_trip_exact (v fromMin fromMax toMin toMax : R) :
  fromMin < fromMax -> toMin <> toMax -> fromMin <= v ->
  fromMusicalScale (toMusicalScale v (fromMin, fromMax) (toMin, toMax))
    (toMin, toMax) (fromMin, fromMax) = v /\
  toMusicalScale fromMin (fromMin, fromMax) (toMin, toMax) = toMin /\
  toMusicalScale fromMax (fromMin, fromMax) (toMin, toMax) = toMax.
Proof.
  intros Hf Ht Hv. unfold fromMusicalScale, toMusicalScale.
  assert (Hn : 0 <= (v - fromMin) / (fromMax - fromMin)).
  { apply Rmult_le_pos; [lra | left; apply Rinv_0_lt_compat; lra]. }
  repeat split.
  - replace ((toMin + Math_pow ((v - fromMin) / (fromMax - fromMin)) (12 / 10)
                      * (toMax - toMin) - toMin) / (toMax - toMin))
      with (Math_pow ((v - fromMin) / (fromMax - fromMin)) (12 / 10))
      by (field; lra).
    rewrite (Math_pow_inverse _ _ _ frac_12 frac_10_12) by lra. field. lra.
  - replace ((fromMin - fromMin) / (fromMax - fromMin)) with 0 by (field; lra).
    rewrite Math_pow_0_l by lra. ring.
  - replace ((fromMax - fromMin) / (fromMax - fromMin)) with 1 by (field; lra).
    rewrite Math_pow_pos by lra. unfold Rpower. rewrite ln_1, Rmult_0_r, exp_0. ring.
Qed.

(** X22. [fromMusicalScale], with the two ranges exchanged, undoes
    [toMusicalScale] on every value of the source range to within a
    millionth of the source span, and [toMusicalScale] sends the lower end
    of the source range to [toMin] and the upper end to within 1e-9 spans of
    [toMax]; for ranges whose span lies between 1e-100 and 1e100 and whose
    lower end is at most a thousand spans from zero. *)
Theorem musical_scale_round_trip (v fromMin fromMax toMin toMax : R) :
  fromMin <= v <= fromMax ->
  1e-100 <= fromMax - fromMin <= 1e100 ->
  Rabs fromMin <= 1000 * (fromMax - fromMin) ->
  1e-100 <= Rabs (toMax - toMin) <= 1e100 ->
  Rabs toMin <= 1000 * Rabs (toMax - toMin) ->
  Rabs (fromMusicalScale (toMusicalScale v (fromMin, fromMax) (toMin, toMax))
          (toMin, toMax) (fromMin, fromMax) - v)
  <= 1e-6 * (fromMax - fromMin) /\
  toMusicalScale fromMin (fromMin, fromMax) (toMin, toMax) = toMin /\
  Rabs (toMusicalScale fromMax (fromMin, fromMax) (toMin, toMax) - toMax)
  <= 1e-9 * Rabs (toMax - toMin).
Proof.
  intros Hv Hf _ Ht _.
  assert (Hne : toMin <> toMax).
  { intros E. rewrite E, Rminus_diag, Rabs_R0 in Ht. lra. }
  destruct (musical_scale_round_trip_exact v fromMin fromMax toMin toMax)
    as (E1 & E2 & E3); [lra | exact Hne | lra |].
  split; [apply Rabs_same; [exact E1 | nra] |].
  split; [exact E2 |].
  apply Rabs_same; [exact E3 | lra].
Qed.

Lemma musical_scale_round_trip_witness :
  Rabs (fromMusicalScale (toMusicalScale 3 (0, 10) (20, 20000)) (20, 20000) (0, 10)
        - 3) <= 1e-6 * (10 - 0) /\
  toMusicalScale 0 (0, 10) (20, 20000) = 20 /\
  Rabs (toMusicalScale 10 (0, 10) (20, 20000) - 20000) <= 1e-9 * Rabs (20000 - 20).
Proof.
  apply (musical_scale_round_trip 3 0 10 20 20000);
    rewrite ?Rabs_R0, ?(Rabs_pos_eq (20000 - 20)), ?(Rabs_pos_eq 20); lra.
Defined.

(** The two scalings at the ends of the source range, over the real numbers. *)
Lemma scale_end_points_exact (v fromMin fromMax toMin toMax : R) :
  fromMin <> fromMax ->
  logarithmicScale v (fromMin, fromMin) (toMin, toMax) = toMin /\
  musicalScale v (fromMin, fromMin) (toMin, toMax) = toMin /\
  logarithmicScale fromMin (fromMin, fromMax) (toMin, toMax) = toMin /\
  logarithmicScale fromMax (fromMin, fromMax) (toMin, toMax) = toMax /\
  musicalScale fromMax (fromMin, fromMax) (toMin, toMax) = toMax /\
  musicalScale fromMin (fromMin, fromMax) (toMin, toMax)
  = toMin + (toMax - toMin) / 4096 /\
  (toMin <> toMax -> musicalScale fromMin (fromMin, fromMax) (toMin, toMax) <> toMin).
Proof.
  intros Hf. unfold logarithmicScale, musicalScale.
  destruct (Req_dec_T fromMin fromMin) as [_ | n]; [| contradiction].
  destruct (Req_dec_T fromMax fromMin) as [e | _]; [congruence |].
  assert (H12 : Math_pow 2 12 = 4096).
  { unfold Math_pow. change 12 with (IZR 12) at 1 2 3. rewrite Int_part_IZR.
    destruct (Req_dec_T (IZR 12) (IZR 12)); [simpl; lra | contradiction]. }
  assert (E0 : (fromMin - fromMin) / (fromMax - fromMin) = 0) by (field; lra).
  assert (E1 : (fromMax - fromMin) / (fromMax - fromMin) = 1) by (field; lra).
  rewrite E0, E1, H12.
  replace (0 * 12) with 0 by ring. replace (1 * 12) with 12 by ring.
  rewrite H12, Math_pow_0_r.
  unfold Math_log. replace (1 + 0 * 9) with 1 by ring.
  replace (1 + 1 * 9) with 10 by ring. rewrite ln_1.
  pose proof ln10_pos as H10.
  repeat split; try (field; lra).
  intros Ht E. apply Ht. lra.
Qed.

(** X23. [logarithmicScale] and [musicalScale] on the ends of the source
    range: both answer [toMin] for a degenerate source range and send
    [fromMax] to within 1e-9 spans of [toMax]; [logarithmicScale] sends
    [fromMin] to [toMin], but [musicalScale] sends it to
    [toMin + (toMax - toMin) / 4096], which is not [toMin].  For source ends
    of magnitude at most 1e100 and a target range whose span lies between
    1e-100 and 1e100 and whose lower end is at most a thousand spans from
    zero. *)
Theorem scale_end_points (v fromMin fromMax toMin toMax : R) :
  fromMin <> fromMax ->
  Rabs fromMin <= 1e100 -> Rabs fromMax <= 1e100 ->
  1e-100 <= Rabs (toMax - toMin) <= 1e100 ->
  Rabs toMin <= 1000 * Rabs (toMax - toMin) ->
  logarithmicScale v (fromMin, fromMin) (toMin, toMax) = toMin /\
  musicalScale v (fromMin, fromMin) (toMin, toMax) = toMin /\
  logarithmicScale fromMin (fromMin, fromMax) (toMin, toMax) = toMin /\
  Rabs (logarithmicScale fromMax (fromMin, fromMax) (toMin, toMax) - toMax)
  <= 1e-9 * Rabs (toMax - toMin) /\
  Rabs (musicalScale fromMax (fromMin, fromMax) (toMin, toMax) - toMax)
  <= 1e-9 * Rabs (toMax - toMin) /\
  musicalScale fromMin (fromMin, fromMax) (toMin, toMax)
  = toMin + (toMax - toMin) / 4096 /\
  musicalScale fromMin (fromMin, fromMax) (toMin, toMax) <> toMin.
Proof.
  intros Hf _ _ Ht _.
  assert (Hne : toMin <> toMax).
  { intros E. rewrite E, Rminus_diag, Rabs_R0 in Ht. lra. }
  destruct (scale_end_points_exact v fromMin fromMax toMin toMax Hf)
    as (E1 & E2 & E3 & E4 & E5 & E6 & E7).
  split; [exact E1 |]. split; [exact E2 |]. split; [exact E3 |].
  split; [apply Rabs_same; [exact E4 | lra] |].
  split; [apply Rabs_same; [exact E5 | lra] |].
  split; [exact E6 | apply E7, Hne].
Qed.

Lemma scale_end_points_witness :
  logarithmicScale 5 (0, 0) (20, 20000) = 20 /\
  musicalScale 5 (0, 0) (20, 20000) = 20 /\
  logarithmicScale 0 (0, 10) (20, 20000) = 20 /\
  Rabs (logarithmicScale 10 (0, 10) (20, 20000) - 20000)
  <= 1e-9 * Rabs (20000 - 20) /\
  Rabs (musicalScale 10 (0, 10) (20, 20000) - 20000) <= 1e-9 * Rabs (20000 - 20) /\
  musicalScale 0 (0, 10) (20, 20000) = 20 + (20000 - 20) / 4096 /\
  musicalScale 0 (0, 10) (20, 20000) <> 20.
Proof.
  apply (scale_end_points 5 0 10 20 20000);
    rewrite ?Rabs_R0, ?(Rabs_pos_eq (20000 - 20)), ?(Rabs_pos_eq 20),
      ?(Rabs_pos_eq 10); lra.
Defined.

(** X24. The signal utilities' pitch-bend pair, centred on 8191.5:
    [semitonesToPitchBend] undoes [pitchBendToSemitones] at every integer
    bend, the 14-bit range maps onto [-2, 2] with both ends reached, and no
    integer bend maps to 0. *)
Theorem signal_pitch_bend_round_trip (z : Z) (b : R) :
  0 <= b <= 16383 ->
  semitonesToPitchBend (pitchBendToSemitones (IZR z)) = IZR z /\
  -2 <= pitchBendToSemitones b <= 2 /\
  pitchBendToSemitones 0 = -2 /\
  pitchBendToSemitones 16383 = 2 /\
  pitchBendToSemitones (IZR z) <> 0.
Proof.
  intros Hb. destruct (pitchBendToSemitones_formula b) as (Eb & E0 & E1).
  split; [| split; [| split; [| split]]].
  - unfold semitonesToPitchBend, pitchBendToSemitones, CENTER_PITCH_BEND.
    replace (((IZR z - 81915 / 10) / (81915 / 10) * 2 / 2 + 1) * (81915 / 10))
      with (IZR z) by field.
    apply Math_round_IZR.
  - rewrite Eb. lra.
  - exact E0.
  - exact E1.
  - destruct (pitchBendToSemitones_formula (IZR z)) as (Ez & _). rewrite Ez.
    intros E. assert (E2 : 2 * IZR z = 16383) by lra.
    change 2 with (IZR 2) in E2. change 16383 with (IZR 16383) in E2.
    rewrite <- mult_IZR in E2. apply eq_IZR in E2. lia.
Qed.

Lemma signal_pitch_bend_round_trip_witness :
  semitonesToPitchBend (pitchBendToSemitones (IZR 8192)) = IZR 8192 /\
  -2 <= pitchBendToSemitones 100 <= 2 /\
  pitchBendToSemitones 0 = -2 /\
  pitchBendToSemitones 16383 = 2 /\
  pitchBendToSemitones (IZR 8192) <> 0.
Proof. apply (signal_pitch_bend_round_trip 8192 100). lra. Defined.

(** [roundToStep] over the real numbers. *)
Lemma roundToStep_multiple_exact (value step : R) (k : Z) :
  step <> 0 ->
  (exists n : Z, roundToStep value step = IZR n * step) /\
  Rabs (roundToStep value step - value) <= Rabs step / 2 /\
  roundToStep (IZR k * step) step = IZR k * step.
Proof.
  intros Hs. unfold roundToStep. split; [| split].
  - eexists. reflexivity.
  - pose proof (Math_round_close (value / step)) as Hc.
    replace (Math_round (value / step) * step - value)
      with ((Math_round (value / step) - value / step) * step) by (field; exact Hs).
    rewrite Rabs_mult.
    assert (Ha : Rabs (Math_round (value / step) - value / step) <= / 2).
    { apply Rabs_le. lra. }
    pose proof (Rabs_pos step). nra.
  - replace (IZR k * step / step) with (IZR k) by (field; exact Hs).
    rewrite Math_round_IZR. reflexivity.
Qed.

(** X25. [roundToStep], for a step of magnitude between 1e-100 and 1e100
    and a value of magnitude at most 1e100: the result is a whole multiple
    of the step, at most half a step away from the value up to a relative
    rounding allowance of 1e-9, and a whole multiple of the step, up to a
    billion steps, is returned unchanged. *)
Theorem roundToStep_multiple (value step : R) (k : Z) :
  1e-100 <= Rabs step <= 1e100 -> Rabs value <= 1e100 ->
  (- 1000000000 <= k <= 1000000000)%Z ->
  (exists n : Z, roundToStep value step = IZR n * step) /\
  Rabs (roundToStep value step - value)
  <= Rabs step / 2 + 1e-9 * (Rabs value + Rabs step) /\
  roundToStep (IZR k * step) step = IZR k * step.
Proof.
  intros Hs _ _.
  assert (Hne : step <> 0).
  { intros E. rewrite E, Rabs_R0 in Hs. lra. }
  destruct (roundToStep_multiple_exact value step k Hne) as (E1 & E2 & E3).
  split; [exact E1 |]. split; [| exact E3].
  pose proof (Rabs_pos value). pose proof (Rabs_pos step). lra.
Qed.

Lemma roundToStep_multiple_witness :
  (exists n : Z, roundToStep 7 (1 / 4) = IZR n * (1 / 4)) /\
  Rabs (roundToStep 7 (1 / 4) - 7) <= Rabs (1 / 4) / 2 + 1e-9 * (Rabs 7 + Rabs (1 / 4)) /\
  roundToStep (IZR 3 * (1 / 4)) (1 / 4) = IZR 3 * (1 / 4).
Proof.
  apply (roundToStep_multiple 7 (1 / 4) 3);
    rewrite ?(Rabs_pos_eq (1 / 4)), ?(Rabs_pos_eq 7); try lia; lra.
Defined.

End SignalFacts.

(* ------------------------------------------------------------------ *)
(** ** Knob mapping *)

Section KnobFacts.
Import JSMath KnobMapping.
Local Open Scope R_scope.

Ltac compare_all :=
  repeat match goal with
         | |- context [Rle_dec ?a ?b] =>
             destruct (Rle_dec a b); cbn [andb]; try lra
         | |- context [Rge_dec ?a ?b] =>
             destruct (Rge_dec a b); cbn [andb]; try lra
         end.

Ltac open_stops :=
  unfold msToEnvelopeRange, envelopeRangeToMs, msStops, rangeStops;
  cbn [interpolate fst snd]; unfold leb, geb.

Lemma msToEnvelopeRange_segments (ms : R) :
  (ms <= 0 -> msToEnvelopeRange ms = 0) /\
  (0 <= ms <= 10 -> msToEnvelopeRange ms = ms / 10) /\
  (10 <= ms <= 200 -> msToEnvelopeRange ms = 1 + (ms - 10) / 95) /\
  (200 <= ms <= 600 -> msToEnvelopeRange ms = 3 + (ms - 200) / 200) /\
  (600 <= ms <= 1000 -> msToEnvelopeRange ms = 5 + (ms - 600) / 400) /\
  (1000 <= ms <= 5000 -> msToEnvelopeRange ms = 6 + (ms - 1000) / 2000) /\
  (5000 <= ms <= 10000 -> msToEnvelopeRange ms = 8 + (ms - 5000) / 2500) /\
  (10000 <= ms -> msToEnvelopeRange ms = 10).
Proof.
  repeat split; intros H; open_stops; compare_all.
Qed.

Lemma envelopeRangeToMs_segments (range : R) :
  (range <= 0 -> envelopeRangeToMs range = 0) /\
  (0 <= range <= 1 -> envelopeRangeToMs range = range * 10) /\
  (1 <= range <= 3 -> envelopeRangeToMs range = 10 + (range - 1) * 95) /\
  (3 <= range <= 5 -> envelopeRangeToMs range = 200 + (range - 3) * 200) /\
  (5 <= range <= 6 -> envelopeRangeToMs range = 600 + (range - 5) * 400) /\
  (6 <= range <= 8 -> envelopeRangeToMs range = 1000 + (range - 6) * 2000) /\
  (8 <= range <= 10 -> envelopeRangeToMs range = 5000 + (range - 8) * 2500) /\
  (10 <= range -> envelopeRangeToMs range = 10000).
Proof.
  repeat split; intros H; open_stops; compare_all.
Qed.


Ltac ms_segment x :=
  let A := fresh "A" in
  pose proof (msToEnvelopeRange_segments x) as A;
  first [ rewrite (proj1 A) by lra
        | rewrite (proj1 (proj2 A)) by lra
        | rewrite (proj1 (proj2 (proj2 A))) by lra
        | rewrite (proj1 (proj2 (proj2 (proj2 A)))) by lra
        | rewrite (proj1 (proj2 (proj2 (proj2 (proj2 A))))) by lra
        | rewrite (proj1 (proj2 (proj2 (proj2 (proj2 (proj2 A)))))) by lra
        | rewrite (proj1 (proj2 (proj2 (proj2 (proj2 (proj2 (proj2 A))))))) by lra
        | rewrite (proj2 (proj2 (proj2 (proj2 (proj2 (proj2 (proj2 A))))))) by lra ];
  clear A.

Ltac range_segment x :=
  let A := fresh "A" in
  pose proof (envelopeRangeToMs_segments x) as A;
  first [ rewrite (proj1 A) by lra
        | rewrite (proj1 (proj2 A)) by lra
        | rewrite (proj1 (proj2 (proj2 A))) by lra
        | rewrite (proj1 (proj2 (proj2 (proj2 A)))) by lra
        | rewrite (proj1 (proj2 (proj2 (proj2 (proj2 A))))) by lra
        | rewrite (proj1 (proj2 (proj2 (proj2 (proj2 (proj2 A)))))) by lra
        | rewrite (proj1 (proj2 (proj2 (proj2 (proj2 (proj2 (proj2 A))))))) by lra
        | rewrite (proj2 (proj2 (proj2 (proj2 (proj2 (proj2 (proj2 A))))))) by lra ];
  clear A.

Lemma ms_segments_cover (ms : R) :
  ms <= 0 \/ 0 <= ms <= 10 \/ 10 <= ms <= 200 \/ 200 <= ms <= 600 \/
  600 <= ms <= 1000 \/ 1000 <= ms <= 5000 \/ 5000 <= ms <= 10000 \/ 10000 <= ms.
Proof. lra. Qed.

Lemma range_segments_cover (r : R) :
  r <= 0 \/ 0 <= r <= 1 \/ 1 <= r <= 3 \/ 3 <= r <= 5 \/
  5 <= r <= 6 \/ 6 <= r <= 8 \/ 8 <= r <= 10 \/ 10 <= r.
Proof. lra. Qed.

Ltac clamp_cases :=
  unfold Rmin;
  repeat match goal with
         | |- context [Rle_dec ?a ?b] => destruct (Rle_dec a b)
         end;
  unfold Rmax;
  repeat match goal with
         | |- context [Rle_dec ?a ?b] => destruct (Rle_dec a b)
         end;
  lra.

Lemma envelopeRangeToMs_msToEnvelopeRange (ms : R) :
  envelopeRangeToMs (msToEnvelopeRange ms) = Rmax 0 (Rmin 10000 ms).
Proof.
  destruct (ms_segments_cover ms) as [H | [H | [H | [H | [H | [H | [H | H]]]]]]];
    ms_segment ms;
    match goal with |- context [envelopeRangeToMs ?x] => range_segment x end;
    clamp_cases.
Qed.

Lemma msToEnvelopeRange_envelopeRangeToMs (r : R) :
  msToEnvelopeRange (envelopeRangeToMs r) = Rmax 0 (Rmin 10 r).
Proof.
  destruct (range_segments_cover r) as [H | [H | [H | [H | [H | [H | [H | H]]]]]]];
    range_segment r;
    match goal with |- context [msToEnvelopeRange ?x] => ms_segment x end;
    clamp_cases.
Qed.

Lemma msToEnvelopeRange_range (ms : R) : 0 <= msToEnvelopeRange ms <= 10.
Proof.
  destruct (ms_segments_cover ms) as [H | [H | [H | [H | [H | [H | [H | H]]]]]]];
    ms_segment ms; lra.
Qed.

Lemma msToEnvelopeRange_le (a b : R) :
  a <= b -> msToEnvelopeRange a <= msToEnvelopeRange b.
Proof.
  intros Hab.
  destruct (ms_segments_cover a) as [H | [H | [H | [H | [H | [H | [H | H]]]]]]];
    ms_segment a;
    destruct (ms_segments_cover b) as [G | [G | [G | [G | [G | [G | [G | G]]]]]]];
    try lra; ms_segment b; lra.
Qed.

(** The two envelope mappings over the real numbers. *)
Lemma envelope_range_ms_inverse_exact (ms range a b : R) :
  a <= b ->
  envelopeRangeToMs (msToEnvelopeRange ms) = Rmax 0 (Rmin 10000 ms) /\
  msToEnvelopeRange (envelopeRangeToMs range) = Rmax 0 (Rmin 10 range) /\
  msToEnvelopeRange a <= msToEnvelopeRange b /\
  0 <= msToEnvelopeRange ms <= 10.
Proof.
  intros Hab.
  split; [apply envelopeRangeToMs_msToEnvelopeRange |].
  split; [apply msToEnvelopeRange_envelopeRangeToMs |].
  split; [apply msToEnvelopeRange_le, Hab | apply msToEnvelopeRange_range].
Qed.

(** X26. [msToEnvelopeRange] and [envelopeRangeToMs] are inverse to each
    other between 0..10000 ms and 0..10: composed either way they return
    the argument clamped to that range, to within 1e-9.
    [msToEnvelopeRange] never decreases and stays within [0, 10]. *)
Theorem envelope_range_ms_inverse (ms range a b : R) :
  a <= b ->
  Rabs (envelopeRangeToMs (msToEnvelopeRange ms) - Rmax 0 (Rmin 10000 ms)) <= 1e-9 /\
  Rabs (msToEnvelopeRange (envelopeRangeToMs range) - Rmax 0 (Rmin 10 range))
  <= 1e-9 /\
  msToEnvelopeRange a <= msToEnvelopeRange b /\
  0 <= msToEnvelopeRange ms <= 10.
Proof.
  intros Hab.
  split; [apply Rabs_same; [apply envelopeRangeToMs_msToEnvelopeRange | lra] |].
  split; [apply Rabs_same; [apply msToEnvelopeRange_envelopeRangeToMs | lra] |].
  split; [apply msToEnvelopeRange_le, Hab | apply msToEnvelopeRange_range].
Qed.

Lemma envelope_range_ms_inverse_witness :
  Rabs (envelopeRangeToMs (msToEnvelopeRange 400) - Rmax 0 (Rmin 10000 400))
  <= 1e-9 /\
  Rabs (msToEnvelopeRange (envelopeRangeToMs 7) - Rmax 0 (Rmin 10 7)) <= 1e-9 /\
  msToEnvelopeRange 100 <= msToEnvelopeRange 400 /\
  0 <= msToEnvelopeRange 400 <= 10.
Proof. apply (envelope_range_ms_inverse 400 7 100 400). lra. Defined.


(** *** Knob positions *)

Ltac open_knob :=
  unfold attackDecayStops; cbn [interpolate map flip fst snd]; unfold leb, geb.

(** The milliseconds [knobPosToValue] interpolates for a position inside
    the stops, and the position [valueToKnobPos] interpolates back. *)
Lemma knob_stops_inverse (pos : R) :
  0 <= pos <= 10000 ->
  exists ms,
    interpolate attackDecayStops pos = Some ms /\ 0 <= ms <= 10000 /\
    interpolate (map flip attackDecayStops) ms = Some pos.
Proof.
  intros Hp.
  assert (Hc : 0 <= pos <= 1000 \/ 1000 < pos <= 2000 \/ 2000 < pos <= 4000 \/
               4000 < pos <= 6000 \/ 6000 < pos <= 8000 \/ 8000 < pos <= 10000)
    by lra.
  destruct Hc as [H | [H | [H | [H | [H | H]]]]].
  - exists (pos / 100). open_knob. compare_all.
    repeat split; try lra. f_equal. lra. compare_all. f_equal. lra.
  - exists (10 + (pos - 1000) * 19 / 100). open_knob. compare_all.
    repeat split; try lra. f_equal. lra. compare_all. f_equal. lra.
  - exists (200 + (pos - 2000) / 5). open_knob. compare_all.
    repeat split; try lra. f_equal. lra. compare_all. f_equal. lra.
  - exists (600 + (pos - 4000) / 5). open_knob. compare_all.
    repeat split; try lra. f_equal. lra. compare_all. f_equal. lra.
  - exists (1000 + (pos - 6000) * 2). open_knob. compare_all.
    repeat split; try lra. f_equal. lra. compare_all. f_equal. lra.
  - exists (5000 + (pos - 8000) * 5 / 2). open_knob. compare_all.
    repeat split; try lra. f_equal. lra. compare_all. f_equal. lra.
Qed.


(** The knob mapping over the real numbers. *)
Lemma knob_position_exact (pos value : R) :
  (exists v,
     knobPosToValue pos attackDecayStops = Some v /\ 0 <= v <= 10 /\
     valueToKnobPos v attackDecayStops = Some (Rmax 0 (Rmin 10000 pos))) /\
  knobPosToValue pos [] = None /\
  valueToKnobPos value [] = None.
Proof.
  split; [| split; reflexivity].
  assert (Hc : pos <= 0 \/ 10000 <= pos \/ 0 < pos < 10000) by lra.
  destruct Hc as [H | [H | H]].
  - exists (msToEnvelopeRange 0). split; [| split].
    + unfold knobPosToValue, attackDecayStops. cbn [fst snd List.last]. unfold leb.
      destruct (Rle_dec pos 0); [reflexivity | lra].
    + apply msToEnvelopeRange_range.
    + unfold valueToKnobPos. rewrite envelopeRangeToMs_msToEnvelopeRange.
      replace (Rmax 0 (Rmin 10000 0)) with 0 by clamp_cases.
      replace (Rmax 0 (Rmin 10000 pos)) with 0 by clamp_cases.
      open_knob. compare_all. f_equal. lra.
  - destruct (Rle_dec pos 0) as [H0 | H0]; [lra |].
    exists (msToEnvelopeRange 10000). split; [| split].
    + unfold knobPosToValue, attackDecayStops. cbn [fst snd List.last]. unfold leb, geb.
      destruct (Rle_dec pos 0); [lra |].
      destruct (Rge_dec pos 10000); [reflexivity | lra].
    + apply msToEnvelopeRange_range.
    + unfold valueToKnobPos. rewrite envelopeRangeToMs_msToEnvelopeRange.
      replace (Rmax 0 (Rmin 10000 10000)) with 10000 by clamp_cases.
      replace (Rmax 0 (Rmin 10000 pos)) with 10000 by clamp_cases.
      open_knob. compare_all. f_equal. lra.
  - destruct (knob_stops_inverse pos) as (ms & E1 & Hms & E2); [lra |].
    exists (msToEnvelopeRange ms). split; [| split].
    + unfold knobPosToValue.
      change (match attackDecayStops with
              | [] => None
              | first :: _ =>
                  let final := List.last attackDecayStops first in
                  if leb pos (fst first) then Some (msToEnvelopeRange (snd first))
                  else if geb pos (fst final)
                       then Some (msToEnvelopeRange (snd final))
                       else match interpolate attackDecayStops pos with
                            | Some msValue => Some (msToEnvelopeRange msValue)
                            | None => Some (msToEnvelopeRange (snd final))
                            end
              end = Some (msToEnvelopeRange ms)).
      rewrite E1. unfold attackDecayStops. cbn [fst snd List.last]. unfold leb, geb.
      destruct (Rle_dec pos 0); [lra |].
      destruct (Rge_dec pos 10000); [lra | reflexivity].
    + apply msToEnvelopeRange_range.
    + unfold valueToKnobPos. rewrite envelopeRangeToMs_msToEnvelopeRange.
      replace (Rmax 0 (Rmin 10000 ms)) with ms by clamp_cases.
      replace (Rmax 0 (Rmin 10000 pos)) with pos by clamp_cases.
      rewrite E2. reflexivity.
Qed.

(** X27. With the attack/decay stops, [knobPosToValue] gives a value in
    [0, 10] for every knob position, and [valueToKnobPos] maps that value
    back to the position, clamped to the 0..10000 the stops cover, to within
    1e-9.  With an empty array of stops both functions throw. *)
Theorem knob_position_round_trip (pos value : R) :
  (exists v,
     knobPosToValue pos attackDecayStops = Some v /\ 0 <= v <= 10 /\
     exists p,
       valueToKnobPos v attackDecayStops = Some p /\
       Rabs (p - Rmax 0 (Rmin 10000 pos)) <= 1e-9) /\
  knobPosToValue pos [] = None /\
  valueToKnobPos value [] = None.
Proof.
  destruct (knob_position_exact pos value) as ((v & E1 & Hv & E2) & E3 & E4).
  split; [| split; assumption].
  exists v. split; [exact E1 |]. split; [exact Hv |].
  exists (Rmax 0 (Rmin 10000 pos)). split; [exact E2 |].
  apply Rabs_same; [reflexivity | lra].
Qed.

End KnobFacts.

(* ------------------------------------------------------------------ *)
(** ** Levels of a buffer *)

Section LevelFacts.
Import JSMath SignalScaling.
Local Open Scope R_scope.

Lemma peak_fold (buffer : list R) (p : R) :
  p <= fold_left (fun peak sample => Math_max peak (Rabs sample)) buffer p /\
  forall x, In x buffer ->
    Rabs x <= fold_left (fun peak sample => Math_max peak (Rabs sample)) buffer p.
Proof.
  revert p. induction buffer as [| y r IH]; intros p; simpl.
  - split; [lra | intros x []].
  - destruct (IH (Math_max p (Rabs y))) as [H1 H2].
    pose proof (Rmax_l p (Rabs y)). pose proof (Rmax_r p (Rabs y)).
    unfold Math_max in *. split; [lra |].
    intros x [-> | Hin]; [lra | apply H2, Hin].
Qed.

Lemma sumOfAbs_fold (buffer : list R) (s P : R) :
  (forall x, In x buffer -> Rabs x <= P) ->
  s <= fold_left (fun sum sample => sum + Rabs sample) buffer s
  <= s + INR (List.length buffer) * P.
Proof.
  revert s. induction buffer as [| y r IH]; intros s HP.
  - simpl. lra.
  - cbn [fold_left]. change (List.length (y :: r)) with (S (List.length r)).
    rewrite S_INR.
    assert (Hy : Rabs y <= P) by (apply HP; now left).
    pose proof (Rabs_pos y).
    destruct (IH (s + Rabs y)) as [H1 H2]; [intros x Hx; apply HP; now right |].
    lra.
Qed.

Lemma sumOfSquares_fold (buffer : list R) (s P : R) :
  (forall x, In x buffer -> Rabs x <= P) ->
  s <= fold_left (fun sum sample => sum + sample * sample) buffer s
  <= s + INR (List.length buffer) * (P * P).
Proof.
  revert s. induction buffer as [| y r IH]; intros s HP.
  - simpl. lra.
  - cbn [fold_left]. change (List.length (y :: r)) with (S (List.length r)).
    rewrite S_INR.
    assert (Hy : Rabs y <= P) by (apply HP; now left).
    assert (Hsq : 0 <= y * y <= P * P).
    { pose proof (Rabs_pos y).
      assert (E : y * y = Rabs y * Rabs y).
      { unfold Rabs. destruct (Rcase_abs y); ring. }
      rewrite E. split; nra. }
    destruct (IH (s + y * y)) as [H1 H2]; [intros x Hx; apply HP; now right |].
    lra.
Qed.

(** The levels of a buffer over the real numbers. *)
Lemma buffer_levels_exact (buffer : list R) (x average rms : R) :
  In x buffer ->
  calculateAverage buffer = Some average ->
  calculateRMS buffer = Some rms ->
  Rabs x <= calculatePeak buffer /\
  0 <= average <= calculatePeak buffer /\
  0 <= rms <= calculatePeak buffer /\
  calculatePeak [] = 0 /\ calculateAverage [] = None /\ calculateRMS [] = None.
Proof.
  intros Hx Ha Hr.
  destruct (peak_fold buffer 0) as [Hp0 Hp]. fold (calculatePeak buffer) in Hp0, Hp.
  split; [apply Hp, Hx |].
  destruct buffer as [| y r]; [contradiction |].
  set (b := y :: r) in *.
  assert (Hn : 0 < INR (List.length b)).
  { apply lt_0_INR. simpl. lia. }
  injection Ha as <-. injection Hr as <-.
  destruct (sumOfAbs_fold b 0 (calculatePeak b) Hp) as [A1 A2].
  destruct (sumOfSquares_fold b 0 (calculatePeak b) Hp) as [S1 S2].
  fold (sumOfAbs b) in A1, A2. fold (sumOfSquares b) in S1, S2.
  split; [| split; [| repeat split]].
  - split.
    + apply Rmult_le_pos; [exact A1 | left; apply Rinv_0_lt_compat, Hn].
    + apply Rmult_le_reg_r with (INR (List.length b)); [exact Hn |].
      unfold Rdiv. rewrite Rmult_assoc, Rinv_l by lra. lra.
  - unfold Math_sqrt. split; [apply sqrt_pos |].
    rewrite <- (sqrt_square (calculatePeak b)) by exact Hp0.
    apply sqrt_le_1_alt.
    apply Rmult_le_reg_r with (INR (List.length b)); [exact Hn |].
    unfold Rdiv. rewrite Rmult_assoc, Rinv_l by lra. lra.
Qed.

(** X28. [calculatePeak] is an upper bound of every sample's magnitude,
    and 0 on an empty buffer; on a buffer of up to a million samples that is
    not empty, [calculateAverage] and [calculateRMS] are at least 0 and at
    most the peak, up to a relative rounding allowance of one millionth; on
    an empty buffer both are NaN. *)
Theorem buffer_levels (buffer : list R) (x average rms : R) :
  (Z.of_nat (List.length buffer) <= 1000000)%Z ->
  In x buffer ->
  calculateAverage buffer = Some average ->
  calculateRMS buffer = Some rms ->
  Rabs x <= calculatePeak buffer /\
  0 <= average <= (1 + 1e-6) * calculatePeak buffer /\
  0 <= rms <= (1 + 1e-6) * calculatePeak buffer /\
  calculatePeak [] = 0 /\ calculateAverage [] = None /\ calculateRMS [] = None.
Proof.
  intros _ Hx Ha Hr.
  destruct (buffer_levels_exact buffer x average rms Hx Ha Hr)
    as (E1 & E2 & E3 & E4).
  pose proof (Rabs_pos x).
  split; [exact E1 |]. split; [nra |]. split; [nra | exact E4].
Qed.

Lemma buffer_levels_witness :
  Rabs (-3) <= calculatePeak [1; -3; 2] /\
  0 <= (0 + Rabs 1 + Rabs (-3) + Rabs 2) / INR 3
  <= (1 + 1e-6) * calculatePeak [1; -3; 2] /\
  0 <= Math_sqrt ((0 + 1 * 1 + -3 * -3 + 2 * 2) / INR 3)
  <= (1 + 1e-6) * calculatePeak [1; -3; 2] /\
  calculatePeak [] = 0 /\ calculateAverage [] = None /\ calculateRMS [] = None.
Proof.
  apply (buffer_levels [1; -3; 2] (-3));
    [simpl; lia | simpl; tauto | reflexivity | reflexivity].
Defined.

End LevelFacts.

(* ------------------------------------------------------------------ *)
(** ** The decoder on arbitrary input *)

Section DecoderFacts.
Import Floats JSNumber AudioUtils ParseUtils SynthTypes UrlUtils CodecSpec.
Local Open Scope float_scope.

Lemma is_nan_false (x : float) :
  PrimFloat.is_nan x = false -> Prim2SF x <> S754_nan.
Proof.
  unfold PrimFloat.is_nan. rewrite eqb_spec. unfold SFeqb. intros H E.
  rewrite E in H. discriminate.
Qed.

Lemma SFcompare_total (x y : spec_float) :
  x <> S754_nan -> y <> S754_nan -> SFcompare x y <> None.
Proof.
  destruct x as [s | s | | s m e], y as [s' | s' | | s' m' e']; simpl;
    intros Hx Hy; try contradiction; try discriminate;
    try (destruct s; discriminate); try (destruct s'; discriminate);
    try (destruct s, s'; discriminate).
Qed.

Lemma leb_refl (x : float) : PrimFloat.is_nan x = false -> (x <=? x) = true.
Proof.
  intros H. apply is_nan_false in H. rewrite leb_spec. unfold SFleb.
  rewrite SFcompare_refl by exact H. reflexivity.
Qed.

Lemma ltb_leb (x y : float) : (x <? y) = true -> (x <=? y) = true.
Proof.
  rewrite ltb_spec, leb_spec. unfold SFltb, SFleb.
  destruct (SFcompare (Prim2SF x) (Prim2SF y)) as [[] |]; congruence.
Qed.

Lemma not_ltb_leb (x y : float) :
  PrimFloat.is_nan x = false -> PrimFloat.is_nan y = false ->
  (x <? y) = false -> (y <=? x) = true.
Proof.
  intros Hx Hy. apply is_nan_false in Hx, Hy.
  rewrite ltb_spec, leb_spec. unfold SFltb, SFleb.
  rewrite (SFcompare_antisym (Prim2SF x) (Prim2SF y)).
  pose proof (SFcompare_total _ _ Hx Hy) as Ht.
  destruct (SFcompare (Prim2SF x) (Prim2SF y)) as [[] |]; simpl;
    congruence.
Qed.

(** [Math.min] and [Math.max] of two numbers: one of the two, on the right
    side of both. *)
Lemma Math_min_spec (a b : float) :
  PrimFloat.is_nan a = false -> PrimFloat.is_nan b = false ->
  (Math_min a b = a \/ Math_min a b = b) /\
  (Math_min a b <=? a) = true /\ (Math_min a b <=? b) = true.
Proof.
  intros Ha Hb. unfold Math_min, isNaN. rewrite Ha, Hb. cbn [orb].
  destruct (a <? b) eqn:E1.
  - split; [now left |]. split; [apply leb_refl, Ha | apply ltb_leb, E1].
  - destruct (b <? a) eqn:E2.
    + split; [now right |]. split; [apply ltb_leb, E2 | apply leb_refl, Hb].
    + pose proof (not_ltb_leb _ _ Ha Hb E1). pose proof (not_ltb_leb _ _ Hb Ha E2).
      destruct (isNegativeZero a).
      * split; [now left |]. split; [apply leb_refl, Ha | assumption].
      * split; [now right |]. split; [assumption | apply leb_refl, Hb].
Qed.

Lemma Math_max_spec (a b : float) :
  PrimFloat.is_nan a = false -> PrimFloat.is_nan b = false ->
  (Math_max a b = a \/ Math_max a b = b) /\
  (a <=? Math_max a b) = true /\ (b <=? Math_max a b) = true.
Proof.
  intros Ha Hb. unfold Math_max, isNaN. rewrite Ha, Hb. cbn [orb].
  destruct (a <? b) eqn:E1.
  - split; [now right |]. split; [apply ltb_leb, E1 | apply leb_refl, Hb].
  - destruct (b <? a) eqn:E2.
    + split; [now left |]. split; [apply leb_refl, Ha | apply ltb_leb, E2].
    + pose proof (not_ltb_leb _ _ Ha Hb E1). pose proof (not_ltb_leb _ _ Hb Ha E2).
      destruct (isNegativeZero a).
      * split; [now right |]. split; [assumption | apply leb_refl, Hb].
      * split; [now left |]. split; [apply leb_refl, Ha | assumption].
Qed.

Lemma clampParameter_bounds (v lo hi : float) :
  (lo <=? hi) = true -> PrimFloat.is_nan v = false ->
  (lo <=? clampParameter v lo hi) = true /\ (clampParameter v lo hi <=? hi) = true.
Proof.
  intros Hlh Hv. destruct (leb_not_nan _ _ Hlh) as [Hlo Hhi].
  unfold clampParameter.
  destruct (Math_min_spec hi v Hhi Hv) as (Hm & Hm1 & _).
  assert (Hmn : PrimFloat.is_nan (Math_min hi v) = false)
    by (destruct Hm as [-> | ->]; assumption).
  destruct (Math_max_spec lo (Math_min hi v) Hlo Hmn) as (Hx & Hx1 & _).
  split; [exact Hx1 |].
  destruct Hx as [-> | ->]; assumption.
Qed.

Context `{NC : NumberCodec}.

Lemma parseAndClamp_bounds (value : option string) (lo hi d : float) :
  (lo <=? hi) = true -> (lo <=? d) = true -> (d <=? hi) = true ->
  (lo <=? parseAndClamp value lo hi d) = true /\
  (parseAndClamp value lo hi d <=? hi) = true.
Proof.
  intros Hlh Hld Hdh. unfold parseAndClamp.
  destruct (isNaN (parseFloat (nullish value ""))) eqn:E.
  - split; assumption.
  - apply clampParameter_bounds; assumption.
Qed.

(** X29. The parse helpers never let NaN or an out-of-range number
    through: [parseAndClamp] always answers within its bounds when the
    default is, [parseOrDefault] is never NaN when its default is not, so
    whatever the query string and whatever [parseFloat] makes of it, a
    decoded [filterCutoff] lies in [-4, 4]. *)
Theorem decoder_numbers_in_range (value : option string) (lo hi d : float)
    (search : string) (st : Partial.t) (c : float) :
  (lo <=? hi) = true -> (lo <=? d) = true -> (d <=? hi) = true ->
  loadStateFromURL search = Some st ->
  Partial.filterCutoff st = Some c ->
  (lo <=? parseAndClamp value lo hi d) = true /\
  (parseAndClamp value lo hi d <=? hi) = true /\
  isNaN (parseOrDefault value d) = false /\
  (-4 <=? c) = true /\ (c <=? 4) = true.
Proof.
  intros Hlh Hld Hdh Hst Hc.
  destruct (parseAndClamp_bounds value lo hi d Hlh Hld Hdh) as [B1 B2].
  split; [exact B1 |]. split; [exact B2 |]. split.
  - unfold parseOrDefault.
    destruct (isNaN (parseFloat (nullish value ""))) eqn:E; [| exact E].
    apply (leb_not_nan _ _ Hld).
  - unfold loadStateFromURL, loadStateFromParams in Hst.
    destruct (String.eqb _ _); [discriminate |].
    injection Hst as <-. cbn [Partial.filterCutoff] in Hc.
    unfold guarded in Hc. destruct (URLSearchParams.has _ _); [| discriminate].
    injection Hc as <-.
    apply parseAndClamp_bounds; reflexivity.
Qed.

(** X30. For every state, valid or not,
    [loadStateFromURL (saveStateToURL state)] is an overlay, never [null],
    with every group populated.  All twenty switches and all eight
    enumerated fields (the waveform and range of each oscillator, the noise
    type and the LFO waveform) come back as written, even when a number does
    not survive [toString]/[parseFloat]; and the decoded [filterCutoff] lies
    in [-4, 4]. *)
Theorem encoding_always_decodes (state : SynthState) (g : Group) :
  exists st,
    loadStateFromURL (saveStateToURL state) = Some st /\
    populated g st = true /\
    SwitchSpec.loadedSwitches st = map Some (SwitchSpec.switchesOf state) /\
    SwitchSpec.loadedTags st = map Some (SwitchSpec.tagsOf state) /\
    exists c, Partial.filterCutoff st = Some c /\
              (-4 <=? c) = true /\ (c <=? 4) = true.
Proof.
  unfold loadStateFromURL, saveStateToURL.
  rewrite setAll_assignments.
  destruct (fromString_toString (assignments state)) as [-> _].
  unfold loadStateFromParams. rewrite assignments_toString_nonempty.
  eexists. split; [reflexivity |].
  unfold SwitchSpec.loadedSwitches, SwitchSpec.loadedTags,
    SwitchSpec.switchesOf, SwitchSpec.tagsOf.
  unfold loadOscillator, loadMixerSource, guarded, assignments.
  cbn [URLSearchParams.has URLSearchParams.get String.eqb Ascii.eqb Bool.eqb andb].
  rewrite !isTrue_Boolean_toString, !orString_noiseTag.
  split; [destruct g; reflexivity |].
  split; [reflexivity |].
  split; [reflexivity |].
  eexists. split; [reflexivity |].
  apply parseAndClamp_bounds; reflexivity.
Qed.

End DecoderFacts.

Section DecoderExamples.
Import Floats JSNumber AudioUtils ParseUtils SynthTypes UrlUtils CodecSpec.
Local Open Scope float_scope.

Lemma decoder_numbers_in_range_witness :
  (0 <=? @parseAndClamp sampleCodec (Some "50"%string) 0 10 5) = true /\
  (@parseAndClamp sampleCodec (Some "50"%string) 0 10 5 <=? 10) = true /\
  isNaN (@parseOrDefault sampleCodec (Some "50"%string) 5) = false /\
  (-4 <=? 4) = true /\ (4 <=? 4) = true.
Proof.
  apply (@decoder_numbers_in_range sampleCodec (Some "50"%string) 0 10 5
           CodecScenarios.clampedQuery CodecScenarios.clampedOverlay 4);
    vm_compute; reflexivity.
Defined.

End DecoderExamples.

(* ------------------------------------------------------------------ *)
(** ** [calculateFrequency] and the control curves in binary64 *)

Section Binary64Facts.
Import Floats JSNumber Binary64 FrequencySpec.
Local Open Scope float_scope.











Context `{H : HostMath}.




End Binary64Facts.

Section Binary64Examples.
Import Floats JSNumber Binary64 FrequencySpec.
Local Open Scope float_scope.



(** C7, as stated, fails in binary64, and not only off the integers.
    Control value 0.25 on the linear curve over [0, 1] comes back as 0,
    because [valueToControl] rounds.  Control value 64 on the linear curve
    over [1e16, 1e16 + 2] comes back as 127: the range is narrow for its
    magnitude and the sum [min + (max - min) * normalized] has no digits
    left for the control value.  Both results are more than 1e-9 away from
    the control value. *)
Lemma C7_curve_round_trip_binary64_counterexample :
  @valueToControl sampleHost
    (@controlToValue sampleHost 0.25 (0, 1) MidiUtils.Linear) (0, 1) MidiUtils.Linear
  = 0 /\
  (0.000000001
   <? PrimFloat.abs
        (@valueToControl sampleHost
           (@controlToValue sampleHost 0.25 (0, 1) MidiUtils.Linear)
           (0, 1) MidiUtils.Linear - 0.25)) = true /\
  @valueToControl sampleHost
    (@controlToValue sampleHost 64 (10000000000000000, 10000000000000002)
       MidiUtils.Linear)
    (10000000000000000, 10000000000000002) MidiUtils.Linear
  = 127 /\
  (0.000000001
   <? PrimFloat.abs
        (@valueToControl sampleHost
           (@controlToValue sampleHost 64 (10000000000000000, 10000000000000002)
              MidiUtils.Linear)
           (10000000000000000, 10000000000000002) MidiUtils.Linear - 64)) = true.
Proof. repeat split; vm_compute; reflexivity. Qed.

End Binary64Examples.

(* ------------------------------------------------------------------ *)
(** ** A field that is not a number through the codec *)

Section NaNFieldFacts.
Import Floats JSNumber ParseUtils SynthTypes UrlUtils CodecSpec NaNScenario.
Local Open Scope float_scope.


(** A NaN oscillator frequency, which the decoder reads with a bare
    [parseFloat], is read back as NaN. *)
Example nan_frequency_reads_back :
  @readsBack sampleCodec PrimFloat.nan /\
  @parseFloat sampleCodec (@Number_toString sampleCodec PrimFloat.nan)
  = PrimFloat.nan.
Proof. split; [split; [vm_compute; discriminate | reflexivity] | reflexivity]. Qed.

End NaNFieldFacts.
